(** * markdown-site: content gateway, snippet extraction, embedding backfill
      and keyword / semantic search

    A shallow embedding of [convex/search.ts], [convex/semanticSearch.ts],
    [convex/embeddings.ts] (the Hugging Face revision, with the gateway
    fallback) and [convex/embeddingsQueries.ts].

    Modelling conventions
    - A JavaScript string is a list of UTF-16 code units.  The model keeps the
      code units below 256 (Basic Latin and Latin-1 Supplement), so a code
      unit is an [ascii]; [toLowerCase], the class [\s], the class [.] and
      [trim] are the ECMAScript ones restricted to that range.
    - Regular expressions are kept as syntax and run by a small backtracking
      matcher with the ECMAScript priorities (greedy and lazy quantifiers,
      capture groups, left-most match, global replacement).
    - [fetch], [console.error], the document store and the embedding provider
      are effects: code that uses them runs in a state-and-exception monad
      over a [World] that records every request made. *)

From Stdlib Require Import List Ascii ZArith NArith Lia Bool Arith Sorted.
From Stdlib Require Import Permutation.
From Stdlib Require String DecimalString QArith.
Import String.StringSyntax.
Import ListNotations.

Set Implicit Arguments.
Set Warnings "-register-all".

(* ================================================================== *)
(** * JavaScript strings *)
(* ================================================================== *)

Module Js.

Definition jsstring := list ascii.

(** A string literal of the source. *)
Definition lit (s : String.string) : jsstring :=
  String.list_ascii_of_string s.
Arguments lit s%_string_scope.

Definition LF : ascii := ascii_of_nat 10.
Definition CR : ascii := ascii_of_nat 13.

Definition code (c : ascii) : nat := nat_of_ascii c.

Definition in_range (lo hi : nat) (c : ascii) : bool :=
  (lo <=? code c) && (code c <=? hi).

(** [\s]: WhiteSpace and LineTerminator code units below 256, that is
    TAB, LF, VT, FF, CR, SPACE and NO-BREAK SPACE. *)
Definition isWs (c : ascii) : bool :=
  in_range 9 13 c || (code c =? 32) || (code c =? 160).

(** [.] without the [s] flag: anything but a line terminator. *)
Definition isDot (c : ascii) : bool :=
  negb ((code c =? 10) || (code c =? 13)).

Definition isAny (_ : ascii) : bool := true.

Definition isChar (x : ascii) (c : ascii) : bool := Ascii.eqb c x.
Definition notChar (x : ascii) (c : ascii) : bool := negb (Ascii.eqb c x).

(** [String.prototype.toLowerCase] on one code unit: A-Z and the Latin-1
    capitals U+00C0..U+00DE (U+00D7, the multiplication sign, excepted). *)
Definition lower (c : ascii) : ascii :=
  if in_range 65 90 c then ascii_of_nat (code c + 32)
  else if in_range 192 222 c && negb (code c =? 215)
       then ascii_of_nat (code c + 32)
       else c.

(** On the strings of this model [toLowerCase] works code unit by code
    unit, so it keeps every length and every offset.  Beyond U+00FF it does
    not always (U+0130 becomes two code units): a statement that uses an
    offset found in a lower-cased string therefore names that string, and a
    statement that needs the offsets of a string and of its lower-cased
    form to agree is one about the strings of the model. *)
Definition toLowerCase (s : jsstring) : jsstring := map lower s.

Fixpoint trimStart (s : jsstring) : jsstring :=
  match s with
  | c :: t => if isWs c then trimStart t else s
  | [] => []
  end.

Fixpoint trimEnd (s : jsstring) : jsstring :=
  match s with
  | [] => []
  | c :: t =>
      match trimEnd t with
      | [] => if isWs c then [] else [c]
      | t' => c :: t'
      end
  end.

Definition trim (s : jsstring) : jsstring := trimEnd (trimStart s).

Fixpoint startsWith (p s : jsstring) : bool :=
  match p, s with
  | [], _ => true
  | a :: p', b :: s' => Ascii.eqb a b && startsWith p' s'
  | _ :: _, [] => false
  end.

(** [s.indexOf(needle)], [None] standing for [-1]. *)
Fixpoint indexOf_from (needle s : jsstring) (pos : nat) : option nat :=
  if startsWith needle s then Some pos
  else match s with
       | [] => None
       | _ :: t => indexOf_from needle t (S pos)
       end.

Definition indexOf (s needle : jsstring) : option nat :=
  indexOf_from needle s 0.

Definition includes (s needle : jsstring) : bool :=
  match indexOf s needle with Some _ => true | None => false end.

Definition eqb (a b : jsstring) : bool :=
  if list_eq_dec ascii_dec a b then true else false.

(** Relative index of [slice] and friends: negative counts from the end. *)
Definition clampIndex (len i : Z) : Z :=
  if (i <? 0)%Z then Z.max (len + i) 0 else Z.min i len.

(** [s.slice(b, e)], for strings and for arrays. *)
Definition slice {A : Type} (s : list A) (b e : Z) : list A :=
  let len := Z.of_nat (length s) in
  let from := clampIndex len b in
  let to := clampIndex len e in
  firstn (Z.to_nat (to - from)) (skipn (Z.to_nat from) s).

(** [s.split("\n")]. *)
Fixpoint split_on (sep : ascii) (cur : jsstring) (s : jsstring)
  : list jsstring :=
  match s with
  | [] => [rev cur]
  | c :: t => if Ascii.eqb c sep then rev cur :: split_on sep [] t
              else split_on sep (c :: cur) t
  end.

Definition splitLines (s : jsstring) : list jsstring := split_on LF [] s.

(** [s.split(/\s+/)]: the pieces between maximal runs of white space. *)
Fixpoint split_ws_go (cur : jsstring) (in_run : bool) (s : jsstring)
  : list jsstring :=
  match s with
  | [] => [rev cur]
  | c :: t =>
      if isWs c
      then if in_run then split_ws_go cur true t
           else rev cur :: split_ws_go [] true t
      else split_ws_go (c :: cur) false t
  end.

Definition splitWs (s : jsstring) : list jsstring := split_ws_go [] false s.

(** [String(n)] for a non-negative integer. *)
Definition ofN (n : N) : jsstring :=
  lit (DecimalString.NilZero.string_of_uint (N.to_uint n)).

(** JavaScript truthiness of a string. *)
Definition truthy (s : jsstring) : bool :=
  match s with [] => false | _ => true end.

End Js.

Import Js.

(* ================================================================== *)
(** * Regular expressions *)
(* ================================================================== *)

Module Regex.

(** The patterns of the source only quantify character classes and only
    capture one quantified class, so this is the whole syntax needed. *)
Inductive node : Type :=
| Chr (p : ascii -> bool)
| Rep (p : ascii -> bool) (lo : nat) (hi : option nat) (greedy : bool)
| Cap (n : node)
| Bos
| Eos.

Definition regex := list node.

Definition Plus (p : ascii -> bool) : node := Rep p 1 None true.
Definition Star (p : ascii -> bool) : node := Rep p 0 None true.
Definition StarLazy (p : ascii -> bool) : node := Rep p 0 None false.

(** A match: the captures, in the order the groups close, and the number of
    code units matched. *)
Definition result := (list jsstring * nat)%type.

Definition cont := nat -> jsstring -> list jsstring -> option result.

Definition can_more (hi : option nat) : bool :=
  match hi with Some 0 => false | _ => true end.

Definition dec (hi : option nat) : option nat := option_map pred hi.

(** Greedy quantifier: one more repetition is tried before stopping. *)
Fixpoint rep_greedy (p : ascii -> bool) (lo : nat) (hi : option nat)
         (pos : nat) (s : jsstring)
         (k : nat -> jsstring -> option result) : option result :=
  let stop := if lo =? 0 then k pos s else None in
  match s with
  | c :: t =>
      if p c && can_more hi
      then match rep_greedy p (pred lo) (dec hi) (S pos) t k with
           | Some r => Some r
           | None => stop
           end
      else stop
  | [] => stop
  end.

(** Lazy quantifier: stopping is tried before one more repetition. *)
Fixpoint rep_lazy (p : ascii -> bool) (lo : nat) (hi : option nat)
         (pos : nat) (s : jsstring)
         (k : nat -> jsstring -> option result) : option result :=
  let more :=
    match s with
    | c :: t =>
        if p c && can_more hi
        then rep_lazy p (pred lo) (dec hi) (S pos) t k
        else None
    | [] => None
    end in
  if lo =? 0
  then match k pos s with
       | Some r => Some r
       | None => more
       end
  else more.

Fixpoint node_exec (n : node) (pos : nat) (s : jsstring)
         (caps : list jsstring) (k : cont) : option result :=
  match n with
  | Chr p =>
      match s with
      | c :: t => if p c then k (S pos) t caps else None
      | [] => None
      end
  | Rep p lo hi true =>
      rep_greedy p lo hi pos s (fun pos' s' => k pos' s' caps)
  | Rep p lo hi false =>
      rep_lazy p lo hi pos s (fun pos' s' => k pos' s' caps)
  | Cap n' =>
      node_exec n' pos s caps
        (fun pos' s' caps' => k pos' s' (caps' ++ [firstn (pos' - pos) s]))
  | Bos => if pos =? 0 then k pos s caps else None
  | Eos => match s with [] => k pos s caps | _ :: _ => None end
  end.

Fixpoint exec (r : regex) (pos : nat) (s : jsstring)
         (caps : list jsstring) (k : cont) : option result :=
  match r with
  | [] => k pos s caps
  | n :: r' =>
      node_exec n pos s caps (fun pos' s' caps' => exec r' pos' s' caps' k)
  end.

(** The match of [r] that starts at offset [pos], [s] being the input from
    that offset on. *)
Definition match_at (r : regex) (pos : nat) (s : jsstring) : option result :=
  exec r pos s [] (fun pos' _ caps => Some (caps, pos' - pos)).

(** [s.replace(/r/g, tpl)]: left to right, non-overlapping; [skip] counts the
    code units of the current match still to be dropped.  After an empty
    match the next code unit is copied and the scan moves on by one. *)
Fixpoint replace_go (r : regex) (tpl : list jsstring -> jsstring)
         (pos skip : nat) (s : jsstring) : jsstring :=
  match skip with
  | S skip' =>
      match s with
      | [] => []
      | _ :: t => replace_go r tpl (S pos) skip' t
      end
  | 0 =>
      match match_at r pos s with
      | Some (caps, len) =>
          tpl caps ++
          match s with
          | [] => []
          | c :: t =>
              match len with
              | 0 => c :: replace_go r tpl (S pos) 0 t
              | S n => replace_go r tpl (S pos) n t
              end
          end
      | None =>
          match s with
          | [] => []
          | c :: t => c :: replace_go r tpl (S pos) 0 t
          end
      end
  end.

Definition replaceAll (r : regex) (tpl : list jsstring -> jsstring)
           (s : jsstring) : jsstring :=
  replace_go r tpl 0 0 s.

(** Replacement templates: a constant, and ["$1"]. *)
Definition const (x : jsstring) : list jsstring -> jsstring := fun _ => x.
Definition group1 : list jsstring -> jsstring := fun caps => nth 0 caps [].

(** [s.match(/r/)] without the [g] flag: the captures of the left-most
    match. *)
Fixpoint match_go (r : regex) (pos : nat) (s : jsstring)
  : option (list jsstring) :=
  match match_at r pos s with
  | Some (caps, _) => Some caps
  | None =>
      match s with
      | [] => None
      | _ :: t => match_go r (S pos) t
      end
  end.

Definition matchFirst (r : regex) (s : jsstring) : option (list jsstring) :=
  match_go r 0 s.

End Regex.

Import Regex.

(* ================================================================== *)
(** * Snippets and anchors ([convex/search.ts], [convex/semanticSearch.ts]) *)
(* ================================================================== *)

Module Markdown.

Definition hash := isChar "#".
Definition star := isChar "*".
Definition tick := isChar "`".

(** The patterns of [createSnippet], in the order of the source. *)
Definition reHeaders : regex := [Rep hash 1 (Some 6) true; Chr isWs].
Definition reBold : regex :=
  [Chr star; Chr star; Cap (Plus (notChar "*")); Chr star; Chr star].
Definition reItalic : regex := [Chr star; Cap (Plus (notChar "*")); Chr star].
Definition reInlineCode : regex :=
  [Chr tick; Cap (Plus (notChar "`")); Chr tick].
Definition reCodeBlocks : regex :=
  [Chr tick; Chr tick; Chr tick; StarLazy isAny; Chr tick; Chr tick; Chr tick].
Definition reLinks : regex :=
  [Chr (isChar "["); Cap (Plus (notChar "]")); Chr (isChar "]");
   Chr (isChar "("); Plus (notChar ")"); Chr (isChar ")")].
Definition reImages : regex :=
  [Chr (isChar "!"); Chr (isChar "["); Cap (Star (notChar "]"));
   Chr (isChar "]"); Chr (isChar "("); Plus (notChar ")"); Chr (isChar ")")].
Definition reNewlines : regex := [Plus (isChar LF)].
Definition reSpaces : regex := [Plus isWs].

Definition space : jsstring := lit " ".
Definition ellipsis : jsstring := lit "...".

(** The chain that computes [cleanContent]; it is the same text in
    [search.ts] and in [semanticSearch.ts]. *)
Definition cleanContent (content : jsstring) : jsstring :=
  let s := replaceAll reHeaders (const []) content in      (* Headers *)
  let s := replaceAll reBold group1 s in                   (* Bold *)
  let s := replaceAll reItalic group1 s in                 (* Italic *)
  let s := replaceAll reInlineCode group1 s in             (* Inline code *)
  let s := replaceAll reCodeBlocks (const []) s in         (* Code blocks *)
  let s := replaceAll reLinks group1 s in                  (* Links *)
  let s := replaceAll reImages (const []) s in             (* Images *)
  let s := replaceAll reNewlines (const space) s in        (* Newlines *)
  let s := replaceAll reSpaces (const space) s in          (* Multiple spaces *)
  trim s.

End Markdown.

Import Markdown.

Module SearchSnippet.

(** [generateSlug] of [search.ts]. *)
Definition slugKeep (c : ascii) : bool :=
  in_range 97 122 c || in_range 48 57 c || isWs c || isChar "-" c.

Definition reNotSlug : regex := [Chr (fun c => negb (slugKeep c))].
Definition reDashes : regex := [Plus (isChar "-")].

Definition generateSlug (text : jsstring) : jsstring :=
  let s := toLowerCase text in
  let s := replaceAll reNotSlug (const []) s in
  let s := replaceAll reSpaces (const (lit "-")) s in
  let s := replaceAll reDashes (const (lit "-")) s in
  trim s.

Record heading : Type := {
  text : jsstring;
  position : nat;
  id : jsstring
}.

(** [/^(#{1,6})\s+(.+)$/] *)
Definition reHeading : regex :=
  [Bos; Cap (Rep hash 1 (Some 6) true); Plus isWs; Cap (Plus isDot); Eos].

(** The first loop of [findNearestHeading]: [currentPosition] is the offset
    of the line's first code unit. *)
Fixpoint collectHeadings (lines : list jsstring) (currentPosition : nat)
  : list heading :=
  match lines with
  | [] => []
  | line :: rest =>
      let later := collectHeadings rest (currentPosition + length line + 1) in
      match matchFirst reHeading line with
      | Some caps =>
          let text := trim (nth 1 caps []) in
          {| text := text; position := currentPosition;
             id := generateSlug text |} :: later
      | None => later
      end
  end.

(** The second loop: the last heading seen before the first one that lies
    after the match position. *)
Fixpoint nearest (headings : list heading) (matchPosition : nat)
         (nearestHeading : option heading) : option heading :=
  match headings with
  | [] => nearestHeading
  | h :: rest =>
      if position h <=? matchPosition
      then nearest rest matchPosition (Some h)
      else nearestHeading
  end.

Definition findNearestHeading (content : jsstring) (matchPosition : nat)
  : option jsstring :=
  let headings := collectHeadings (splitLines content) 0 in
  match nearest headings matchPosition None with
  | Some h => if truthy (id h) then Some (id h) else None
  | None => None
  end.

Record snippetResult : Type := {
  snippet : jsstring;
  anchor : option jsstring
}.

(** [createSnippet(content, searchTerm, maxLength)] of [search.ts], for an
    integer [maxLength] (every call passes 150). *)
Definition createSnippet (content searchTerm : jsstring) (maxLength : Z)
  : snippetResult :=
  let lowerSearchTerm := toLowerCase searchTerm in
  let originalIndex := indexOf (toLowerCase content) lowerSearchTerm in
  let anchor :=
    match originalIndex with
    | Some i => findNearestHeading content i
    | None => None
    end in
  let clean := cleanContent content in
  let len := Z.of_nat (length clean) in
  let lowerContent := toLowerCase clean in
  match indexOf lowerContent lowerSearchTerm with
  | None =>
      {| snippet := slice clean 0 maxLength ++
                    (if (len >? maxLength)%Z then ellipsis else []);
         anchor := None |}
  | Some index =>
      let start := Z.max 0 (Z.of_nat index - maxLength / 3) in
      let end_ := Z.min len (start + maxLength) in
      let snippet := slice clean start end_ in
      let snippet := if (start >? 0)%Z then ellipsis ++ snippet else snippet in
      let snippet := if (end_ <? len)%Z then snippet ++ ellipsis else snippet in
      {| snippet := snippet; anchor := anchor |}
  end.

End SearchSnippet.

Module SemanticSnippet.

(** [createSnippet(content, maxLength)] of [semanticSearch.ts]. *)
Definition createSnippet (content : jsstring) (maxLength : Z) : jsstring :=
  let clean := cleanContent content in
  if (Z.of_nat (length clean) <=? maxLength)%Z then clean
  else slice clean 0 maxLength ++ ellipsis.

End SemanticSnippet.

(* ================================================================== *)
(** * Effects: requests, console, document store *)
(* ================================================================== *)

Module Effects.

(** JSON numbers and similarity scores. *)
Definition Q : Set := QArith_base.Q.

(** What a [catch] clause receives. *)
Inductive thrown : Type :=
| ErrorObj (message : jsstring)      (* [error instanceof Error] *)
| Value (str : jsstring).            (* anything else, with [String(error)] *)

Inductive outcome (A : Type) : Type :=
| Returns (a : A)
| Throws (e : thrown).
Arguments Returns {A} a.
Arguments Throws {A} e.

(** A parsed JSON body. *)
Inductive json : Type :=
| JNull
| JBool (b : bool)
| JNum (q : Q)
| JStr (s : jsstring)
| JArr (items : list json)
| JObj (fields : list (jsstring * json)).

Record response : Type := {
  status : N;
  statusText : jsstring;
  body_text : outcome jsstring;      (* [await response.text()] *)
  body_json : outcome json           (* [await response.json()] *)
}.

(** [response.ok] *)
Definition ok (r : response) : bool :=
  (200 <=? status r)%N && (status r <=? 299)%N.

Inductive request : Type :=
| Get (url : jsstring)
| Post (url authorization inputs : jsstring).

Inductive event : Type :=
| Fetch (req : request)
| ConsoleLog (msg : jsstring)
| ConsoleError (msg : jsstring) (error : option thrown).

(** The outside world answers a request knowing everything that happened
    before it. *)
Definition Net := list event -> request -> outcome response.

(** A document of the store; posts and pages share the fields the code
    reads ([description] is a post field, [excerpt] a page field). *)
Record doc : Type := {
  _id : jsstring;
  slug : jsstring;
  title : jsstring;
  description : option jsstring;
  excerpt : option jsstring;
  contentCid : jsstring;
  published : bool;
  unlisted : bool;
  embedding : option (list Q)
}.

Record World : Type := {
  trace : list event;
  posts : list doc;
  pages : list doc
}.

Record Env : Type := {
  PINATA_GATEWAY_URL : option jsstring;
  HUGGINGFACE_API_KEY : option jsstring
}.

(** [!!process.env.X] *)
Definition envTruthy (x : option jsstring) : bool :=
  match x with Some s => truthy s | None => false end.

Definition M (A : Type) : Type := World -> outcome A * World.

Definition ret {A} (a : A) : M A := fun w => (Returns a, w).

Definition throw {A} (e : thrown) : M A := fun w => (Throws e, w).

Definition bind {A B} (m : M A) (k : A -> M B) : M B :=
  fun w =>
    match m w with
    | (Returns a, w') => k a w'
    | (Throws e, w') => (Throws e, w')
    end.

(** [try { m } catch (error) { handler error }] *)
Definition try_catch {A} (m : M A) (handler : thrown -> M A) : M A :=
  fun w =>
    match m w with
    | (Returns a, w') => (Returns a, w')
    | (Throws e, w') => handler e w'
    end.

Definition emit (ev : event) : M unit :=
  fun w => (Returns tt,
            {| trace := trace w ++ [ev]; posts := posts w; pages := pages w |}).

Definition fetch (net : Net) (req : request) : M response :=
  fun w =>
    (net (trace w) req,
     {| trace := trace w ++ [Fetch req]; posts := posts w; pages := pages w |}).

Definition await {A} (o : outcome A) : M A :=
  fun w => (o, w).

(** [for (const x of xs) { acc = body acc x }] *)
Fixpoint forEach {A S} (xs : list A) (acc : S) (body : S -> A -> M S) : M S :=
  match xs with
  | [] => ret acc
  | x :: rest => bind (body acc x) (fun acc' => forEach rest acc' body)
  end.

Declare Scope js_scope.
Delimit Scope js_scope with js.
Notation "x <- m ;; k" := (bind m (fun x => k))
  (at level 61, m at next level, right associativity) : js_scope.
Notation "m ;; k" := (bind m (fun _ => k))
  (at level 61, right associativity) : js_scope.

End Effects.

Import Effects.
Local Open Scope js_scope.

(* ================================================================== *)
(** * Content gateway client ([fetchContentFromIPFS] with fallback) *)
(* ================================================================== *)

Module Gateway.

Definition publicGatewayBase : jsstring := lit "https://gateway.pinata.cloud".

Section WithEnv.

Variable env : Env.
Variable net : Net.

Definition getIPFSGatewayUrl : jsstring :=
  match PINATA_GATEWAY_URL env with
  | Some customGateway =>
      if truthy customGateway
      then if startsWith (lit "http://") customGateway
              || startsWith (lit "https://") customGateway
           then customGateway
           else lit "https://" ++ customGateway
      else lit "https://gateway.pinata.cloud"
  | None => lit "https://gateway.pinata.cloud"
  end.

Definition failPrefix : jsstring := lit "Failed to fetch content from IPFS: ".

(** [new Error(`Failed to fetch content from IPFS: ${r.status} ${r.statusText}`)] *)
Definition statusError (r : response) : thrown :=
  ErrorObj (failPrefix ++ ofN (status r) ++ lit " " ++ statusText r).

(** The two-armed rethrow at the end of each [catch]. *)
Definition rethrow (error : thrown) : thrown :=
  match error with
  | ErrorObj message => ErrorObj (failPrefix ++ message)
  | Value str => ErrorObj (failPrefix ++ str)
  end.

Definition fallbackStatus (r : response) : bool :=
  (status r =? 403)%N || (status r =? 401)%N || (status r =? 429)%N.

Definition gatewayUrl (cid : jsstring) : jsstring :=
  getIPFSGatewayUrl ++ lit "/ipfs/" ++ cid.

Definition publicGatewayUrl (cid : jsstring) : jsstring :=
  publicGatewayBase ++ lit "/ipfs/" ++ cid.

Definition fetchContentFromIPFS (cid : jsstring) : M jsstring :=
  if negb (truthy cid)
  then throw (ErrorObj (lit "CID is required to fetch content from IPFS"))
  else
    let gatewayBase := getIPFSGatewayUrl in
    try_catch
      (response <- fetch net (Get (gatewayUrl cid)) ;;
       if negb (ok response)
       then
         if fallbackStatus response
         then
           fallbackResponse <- fetch net (Get (publicGatewayUrl cid)) ;;
           if negb (ok fallbackResponse)
           then throw (statusError fallbackResponse)
           else await (body_text fallbackResponse)
         else throw (statusError response)
       else await (body_text response))
      (fun error =>
         if negb (Js.eqb gatewayBase publicGatewayBase)
         then
           try_catch
             (fallbackResponse <- fetch net (Get (publicGatewayUrl cid)) ;;
              if negb (ok fallbackResponse)
              then throw (statusError fallbackResponse)
              else await (body_text fallbackResponse))
             (fun fallbackError => throw (rethrow error))
         else throw (rethrow error)).

End WithEnv.

End Gateway.

(* ================================================================== *)
(** * Embedding pipeline ([embeddings.ts], [embeddingsQueries.ts]) *)
(* ================================================================== *)

Module Embeddings.

Definition HUGGINGFACE_API_URL : jsstring :=
  lit "https://router.huggingface.co/hf-inference/models/sentence-transformers/all-MiniLM-L6-v2/pipeline/feature-extraction".

(** [/\n{3,}/g] *)
Definition reBlankLines : regex := [Rep (isChar LF) 3 None true].

Definition prepareTextForEmbedding (title content : jsstring) : jsstring :=
  let s := replaceAll reCodeBlocks (const []) content in
  let s := replaceAll reImages (const []) s in
  let s := replaceAll reBlankLines (const [LF; LF]) s in
  title ++ [LF; LF] ++ trim s.

(** The validator [v.array(v.float64())], declared for the value
    [generateEmbedding] returns and for the [embedding] argument of the save
    mutations; Convex checks it when the function returns or is called. *)
Fixpoint floats (items : list json) : option (list Q) :=
  match items with
  | [] => Some []
  | JNum q :: rest => option_map (cons q) (floats rest)
  | _ :: _ => None
  end.

Definition validationError : thrown :=
  ErrorObj (lit "Value does not match validator v.array(v.float64())").

Definition v_array_float64 (items : list json) : M (list Q) :=
  match floats items with
  | Some v => ret v
  | None => throw validationError
  end.

(** The two tables, which the source handles by two copies of each
    function ([...Post...] and [...Page...]). *)
Inductive kind : Type := KPost | KPage.

Definition label (k : kind) : jsstring :=
  match k with KPost => lit "post" | KPage => lit "page" end.

Definition table (k : kind) (w : World) : list doc :=
  match k with KPost => posts w | KPage => pages w end.

Definition set_table (k : kind) (t : list doc) (w : World) : World :=
  match k with
  | KPost => {| trace := trace w; posts := t; pages := pages w |}
  | KPage => {| trace := trace w; posts := posts w; pages := t |}
  end.

(** What the [...WithoutEmbeddings] queries return for a document. *)
Record pending : Type := {
  p_id : jsstring;
  p_title : jsstring;
  p_contentCid : jsstring
}.

Definition project (d : doc) : pending :=
  {| p_id := _id d; p_title := title d; p_contentCid := contentCid d |}.

(** [!doc.embedding && !doc.unlisted] *)
Definition lacksEmbedding (d : doc) : bool :=
  match embedding d with None => negb (unlisted d) | Some _ => false end.

(** [getPostsWithoutEmbeddings] / [getPagesWithoutEmbeddings] on a table. *)
Definition withoutEmbeddings (t : list doc) (limit : Z) : list pending :=
  map project
      (slice (filter lacksEmbedding (filter published t)) 0 limit).

Definition getWithoutEmbeddings (k : kind) (limit : Z) : M (list pending) :=
  fun w => (Returns (withoutEmbeddings (table k w) limit), w).

Definition setEmbedding (v : list Q) (d : doc) : doc :=
  {| _id := _id d; slug := slug d; title := title d;
     description := description d; excerpt := excerpt d;
     contentCid := contentCid d; published := published d;
     unlisted := unlisted d; embedding := Some v |}.

(** [ctx.db.patch(id, { embedding })] on a table. *)
Definition patch (id : jsstring) (v : list Q) (t : list doc) : list doc :=
  map (fun d => if Js.eqb (_id d) id then setEmbedding v d else d) t.

(** [savePostEmbedding] / [savePageEmbedding]; patching a document that
    does not exist throws. *)
Definition saveEmbedding (k : kind) (id : jsstring) (v : list Q) : M unit :=
  fun w =>
    if existsb (fun d => Js.eqb (_id d) id) (table k w)
    then (Returns tt, set_table k (patch id v (table k w)) w)
    else (Throws (ErrorObj (lit "Update on nonexistent document ID")), w).

Definition getPostsWithoutEmbeddings : Z -> M (list pending) :=
  getWithoutEmbeddings KPost.
Definition getPagesWithoutEmbeddings : Z -> M (list pending) :=
  getWithoutEmbeddings KPage.
Definition savePostEmbedding : jsstring -> list Q -> M unit :=
  saveEmbedding KPost.
Definition savePageEmbedding : jsstring -> list Q -> M unit :=
  saveEmbedding KPage.

Section WithEnv.

Variable env : Env.
Variable net : Net.

Definition generateEmbedding (text : jsstring) : M (list Q) :=
  match HUGGINGFACE_API_KEY env with
  | Some ((_ :: _) as apiKey) =>
      let truncatedText := slice text 0 2000 in
      response <- fetch net (Post HUGGINGFACE_API_URL
                                  (lit "Bearer " ++ apiKey) truncatedText) ;;
      if negb (ok response)
      then
        errorText <- await (body_text response) ;;
        throw (ErrorObj (lit "Hugging Face API error: "
                         ++ ofN (status response) ++ lit " "
                         ++ statusText response ++ lit " - " ++ errorText))
      else
        embedding <- await (body_json response) ;;
        match embedding with
        | JArr ((_ :: _) as items) => v_array_float64 items
        | _ => throw (ErrorObj
                        (lit "Invalid embedding response from Hugging Face API"))
        end
  | _ =>
      throw (ErrorObj
               (lit "HUGGINGFACE_API_KEY not configured in Convex environment"))
  end.

Definition fetchFailedMsg (k : kind) (id : jsstring) : jsstring :=
  lit "Failed to fetch content from IPFS for " ++ label k ++ lit " "
  ++ id ++ lit ":".

Definition embedFailedMsg (k : kind) (id : jsstring) : jsstring :=
  lit "Failed to generate embedding for " ++ label k ++ lit " "
  ++ id ++ lit ":".

(** The body of the [for] loop of [generatePostEmbeddings] and
    [generatePageEmbeddings]. *)
Definition embedOne (k : kind) (processed : nat) (post : pending) : M nat :=
  try_catch
    (content <-
       try_catch
         (Gateway.fetchContentFromIPFS env net (p_contentCid post))
         (fun error =>
            emit (ConsoleError (fetchFailedMsg k (p_id post)) (Some error)) ;;
            ret []) ;;
     let textToEmbed :=
       if truthy content
       then prepareTextForEmbedding (p_title post) content
       else p_title post in
     embedding <- generateEmbedding textToEmbed ;;
     saveEmbedding k (p_id post) embedding ;;
     ret (S processed))
    (fun error =>
       emit (ConsoleError (embedFailedMsg k (p_id post)) (Some error)) ;;
       ret processed).

Definition generateEmbeddings (k : kind) : M nat :=
  posts <- getWithoutEmbeddings k 10 ;;
  forEach posts 0 (embedOne k).

Definition generatePostEmbeddings : M nat := generateEmbeddings KPost.
Definition generatePageEmbeddings : M nat := generateEmbeddings KPage.

End WithEnv.

End Embeddings.

(* ================================================================== *)
(** * Keyword search ([convex/search.ts]) *)
(* ================================================================== *)

Module Search.

Import Embeddings.

(** [Array.prototype.sort(cmp)].  The sort is stable, and for a consistent
    comparator the sorted array is then unique; insertion from the right
    computes it. *)
Fixpoint insert {A} (cmp : A -> A -> Z) (x : A) (l : list A) : list A :=
  match l with
  | [] => [x]
  | y :: ys => if (cmp x y <=? 0)%Z then x :: l else y :: insert cmp x ys
  end.

Definition sort {A} (cmp : A -> A -> Z) (l : list A) : list A :=
  fold_right (insert cmp) [] l.

Inductive rtype : Type := TPost | TPage.

Record searchResult : Type := {
  r_id : jsstring;
  r_type : rtype;
  r_slug : jsstring;
  r_title : jsstring;
  r_description : option jsstring;
  r_snippet : jsstring;
  r_anchor : option jsstring
}.

(** [x ? x.slice(0, 120) + (x.length > 120 ? "..." : "") : fallback] *)
Definition lead (x : option jsstring) (fallback : jsstring) : jsstring :=
  match x with
  | Some ((_ :: _) as d) =>
      slice d 0 120 ++ (if (120 <? length d) then ellipsis else [])
  | _ => fallback
  end.

Definition has (ids : list jsstring) (id : jsstring) : bool :=
  existsb (Js.eqb id) ids.

(** [a.title.toLowerCase().includes(queryLower)] *)
Definition inTitle (queryLower : jsstring) (a : searchResult) : bool :=
  includes (toLowerCase (r_title a)) queryLower.

Definition byTitle (queryLower : jsstring) (a b : searchResult) : Z :=
  let aInTitle := inTitle queryLower a in
  let bInTitle := inTitle queryLower b in
  if aInTitle && negb bInTitle then (-1)%Z
  else if negb aInTitle && bInTitle then 1%Z
  else 0%Z.

Section WithStore.

Variable env : Env.
Variable net : Net.

(** [ctx.db.query(table).withSearchIndex("search_title", q =>
    q.search("title", query).eq("published", true))]: the store's full-text
    index, in relevance order. *)
Variable searchIndex : kind -> jsstring -> list doc.

(** [api.posts.getAllPosts], [api.pages.getAllPages], [getPostBySlug] and
    [getPageBySlug]: queries of modules that are not part of this
    development. *)
Variable getAll : kind -> list doc.
Variable getBySlug : kind -> jsstring -> option doc.

Definition getIPFSGatewayUrl : jsstring :=
  match PINATA_GATEWAY_URL env with
  | Some ((_ :: _) as customGateway) => lit "https://" ++ customGateway
  | _ => lit "https://gateway.pinata.cloud"
  end.

(** [fetchContentFromIPFS] of [search.ts]: one gateway, no fallback. *)
Definition fetchContentFromIPFS (cid : jsstring) : M jsstring :=
  if negb (truthy cid)
  then throw (ErrorObj (lit "CID is required to fetch content from IPFS"))
  else
    let gatewayUrl := getIPFSGatewayUrl ++ lit "/ipfs/" ++ cid in
    try_catch
      (response <- fetch net (Get gatewayUrl) ;;
       if negb (ok response)
       then throw (Gateway.statusError response)
       else await (body_text response))
      (fun error => throw (Gateway.rethrow error)).

(** One pass of a title loop of [searchTitleOnly]; the state is the set of
    seen ids and the results pushed so far. *)
Definition titleStep (k : kind) (st : list jsstring * list searchResult)
           (d : doc) : list jsstring * list searchResult :=
  let (seen, results) := st in
  if has seen (_id d) then st
  else
    let seen := _id d :: seen in
    match k with
    | KPost =>
        if unlisted d then (seen, results)
        else (seen,
              results ++
              [{| r_id := _id d; r_type := TPost; r_slug := slug d;
                  r_title := title d; r_description := description d;
                  r_snippet := lead (description d) [];
                  r_anchor := None |}])
    | KPage =>
        (seen,
         results ++
         [{| r_id := _id d; r_type := TPage; r_slug := slug d;
             r_title := title d; r_description := None;
             r_snippet := lead (excerpt d) (title d);
             r_anchor := None |}])
    end.

Definition titleMatches (query : jsstring) : list searchResult :=
  let postsByTitle := firstn 10 (searchIndex KPost query) in
  let pagesByTitle := firstn 10 (searchIndex KPage query) in
  let results := snd (fold_left (titleStep KPost) postsByTitle ([], [])) in
  snd (fold_left (titleStep KPage) pagesByTitle ([], results)).

Definition searchTitleOnly (query : jsstring) : list searchResult :=
  if negb (truthy (trim query)) then []
  else
    let results := titleMatches query in
    let queryLower := toLowerCase query in
    slice (sort (byTitle queryLower) results) 0 15.

Definition searchFailedMsg (k : kind) (slug : jsstring) : jsstring :=
  lit "Failed to search content for " ++ label k ++ lit " " ++ slug ++ lit ":".

Definition rtypeOf (k : kind) : rtype :=
  match k with KPost => TPost | KPage => TPage end.

(** One pass of a content loop of [search]; the state is [addedIds] and
    [results]. *)
Definition contentStep (k : kind) (query : jsstring)
           (st : list jsstring * list searchResult) (d : doc)
  : M (list jsstring * list searchResult) :=
  let (addedIds, results) := st in
  let queryLower := toLowerCase query in
  let searchTerms :=
    filter (fun t => 2 <? length t) (splitWs (toLowerCase query)) in
  if has addedIds (_id d)
     || (match k with KPost => unlisted d | KPage => false end)
  then ret st
  else
    try_catch
      (match getBySlug k (slug d) with
       | None => ret st
       | Some full =>
           if negb (truthy (contentCid full)) then ret st
           else
             content <- fetchContentFromIPFS (contentCid full) ;;
             let contentLower := toLowerCase content in
             let matchesInContent :=
               includes contentLower queryLower
               || existsb (fun term => includes contentLower term)
                          searchTerms in
             if matchesInContent
             then
               let snippetResult :=
                 SearchSnippet.createSnippet content query 150 in
               ret (_id d :: addedIds,
                    results ++
                    [{| r_id := _id d; r_type := rtypeOf k; r_slug := slug d;
                        r_title := title d;
                        r_description :=
                          match k with
                          | KPost => description d
                          | KPage => None
                          end;
                        r_snippet := SearchSnippet.snippet snippetResult;
                        r_anchor :=
                          match SearchSnippet.anchor snippetResult with
                          | Some ((_ :: _) as a) => Some a
                          | _ => None
                          end |}])
             else ret st
       end)
      (fun error =>
         emit (ConsoleError (searchFailedMsg k (slug d)) (Some error)) ;;
         ret st).

(** [results] as it stands just before the sort: the title matches, then the
    content matches among the posts, then those among the pages. *)
Definition collect (query : jsstring) : M (list searchResult) :=
  let titleResults := searchTitleOnly query in
  let addedIds := map r_id titleResults in
  st <- forEach (getAll KPost) (addedIds, titleResults)
                (contentStep KPost query) ;;
  st <- forEach (getAll KPage) st (contentStep KPage query) ;;
  ret (snd st).

Definition search (query : jsstring) : M (list searchResult) :=
  if negb (truthy (trim query)) then ret []
  else
    results <- collect query ;;
    let queryLower := toLowerCase query in
    ret (slice (sort (byTitle queryLower) results) 0 15).

End WithStore.

End Search.

(* ================================================================== *)
(** * Semantic search ([convex/semanticSearch.ts]) *)
(* ================================================================== *)

Module Semantic.

Import Embeddings.

Record scoredResult : Type := {
  s_id : jsstring;
  s_type : Search.rtype;
  s_slug : jsstring;
  s_title : jsstring;
  s_description : option jsstring;
  s_snippet : jsstring;
  s_score : Q
}.

Definition isArray (j : json) : bool :=
  match j with JArr _ => true | _ => false end.

Fixpoint assoc (key : jsstring) (fields : list (jsstring * json))
  : option json :=
  match fields with
  | [] => None
  | (k, v) :: rest => if Js.eqb k key then Some v else assoc key rest
  end.

(** [x[0]] for a value that is not [null]; [None] is [undefined]. *)
Definition index0 (j : json) : option json :=
  match j with
  | JArr items => hd_error items
  | JObj fields => assoc (lit "0") fields
  | JStr (c :: _) => Some (JStr [c])
  | _ => None
  end.

(** [x.embeddings]. *)
Definition embeddingsOf (j : json) : option json :=
  match j with
  | JObj fields => assoc (lit "embeddings") fields
  | _ => None
  end.

Definition jsonTruthy (j : json) : bool :=
  match j with
  | JNull => false
  | JBool b => b
  | JNum q => negb (QArith_base.Qeq_bool q (QArith_base.Qmake 0 1))
  | JStr s => truthy s
  | JArr _ | JObj _ => true
  end.

Definition isArrayOpt (j : option json) : bool :=
  match j with Some x => isArray x | None => false end.

Definition typeError : thrown :=
  ErrorObj (lit "Cannot read properties of null (reading '0')").

(** The chain of [if]s that picks [queryEmbedding] out of [responseData];
    [Returns None] is the branch that logs and returns the empty list. *)
Definition extractEmbedding (responseData : json)
  : outcome (option (list json)) :=
  match responseData with
  | JArr items => Returns (Some items)
  | JNull => Throws typeError
  | _ =>
      if isArrayOpt (index0 responseData)
      then match index0 responseData with
           | Some (JArr items) => Returns (Some items)
           | _ => Returns None
           end
      else
        match embeddingsOf responseData with
        | Some e =>
            if jsonTruthy e && isArrayOpt (index0 e)
            then match index0 e with
                 | Some (JArr items) => Returns (Some items)
                 | _ => Returns None
                 end
            else Returns None
        | None => Returns None
        end
  end.

Definition byScore (a b : scoredResult) : Z :=
  match QArith_base.Qcompare (s_score b) (s_score a) with
  | Lt => (-1)%Z
  | Eq => 0%Z
  | Gt => 1%Z
  end.

Definition find (docs : list doc) (id : jsstring) : option doc :=
  List.find (fun p => Js.eqb (_id p) id) docs.

Section WithStore.

Variable env : Env.
Variable net : Net.

(** [ctx.vectorSearch(table, "by_embedding", { vector, limit: 10, filter })]
    and the queries [fetchPostsByIds] / [fetchPagesByIds]. *)
Variable vectorSearch : kind -> list json -> list (jsstring * Q).
Variable fetchByIds : kind -> list jsstring -> list doc.

Definition isSemanticSearchAvailable : bool :=
  envTruthy (HUGGINGFACE_API_KEY env).

Definition postStep (posts : list doc) (results : list scoredResult)
           (result : jsstring * Q) : M (list scoredResult) :=
  match find posts (fst result) with
  | Some post =>
      if unlisted post then ret results
      else
        match description post with
        | Some d =>
            ret (results ++
                 [{| s_id := _id post; s_type := Search.TPost;
                     s_slug := slug post; s_title := title post;
                     s_description := description post;
                     s_snippet :=
                       slice d 0 120 ++
                       (if 120 <? length d then ellipsis else []);
                     s_score := snd result |}])
        | None =>
            throw (ErrorObj
                     (lit "Cannot read properties of undefined (reading 'slice')"))
        end
  | None => ret results
  end.

Definition pageStep (pages : list doc) (results : list scoredResult)
           (result : jsstring * Q) : M (list scoredResult) :=
  match find pages (fst result) with
  | Some page =>
      ret (results ++
           [{| s_id := _id page; s_type := Search.TPage;
               s_slug := slug page; s_title := title page;
               s_description := None;
               s_snippet := title page;
               s_score := snd result |}])
  | None => ret results
  end.

(** The handler of [semanticSearch].  A console message that interpolates
    a value is recorded by its constant part. *)
Definition semanticSearch (query : jsstring) : M (list scoredResult) :=
  if negb (truthy (trim query)) then ret []
  else
    match HUGGINGFACE_API_KEY env with
    | Some ((_ :: _) as apiKey) =>
        emit (ConsoleLog (lit "Generating embedding for query")) ;;
        emit (ConsoleLog (lit "Using endpoint")) ;;
        response <- fetch net (Post HUGGINGFACE_API_URL
                                    (lit "Bearer " ++ apiKey) query) ;;
        if negb (ok response)
        then
          errorText <- await (body_text response) ;;
          emit (ConsoleError (lit "Hugging Face Router API error") None) ;;
          emit (ConsoleError (lit "Error details: " ++ errorText) None) ;;
          emit (ConsoleError (lit "Request URL") None) ;;
          emit (ConsoleError (lit "Model") None) ;;
          ret []
        else
          responseData <- await (body_json response) ;;
          extracted <- await (extractEmbedding responseData) ;;
          match extracted with
          | None =>
              emit (ConsoleError
                      (lit "Invalid embedding response format from Hugging Face API")
                      None) ;;
              emit (ConsoleError (lit "Response data:") None) ;;
              ret []
          | Some [] =>
              emit (ConsoleError
                      (lit "Invalid embedding response from Hugging Face API - not an array or empty")
                      None) ;;
              emit (ConsoleError (lit "Extracted embedding:") None) ;;
              ret []
          | Some queryEmbedding =>
              let postResults := vectorSearch KPost queryEmbedding in
              let pageResults := vectorSearch KPage queryEmbedding in
              let posts := fetchByIds KPost (map fst postResults) in
              let pages := fetchByIds KPage (map fst pageResults) in
              results <- forEach postResults [] (postStep posts) ;;
              results <- forEach pageResults results (pageStep pages) ;;
              ret (slice (Search.sort byScore results) 0 15)
          end
    | _ =>
        emit (ConsoleLog
                (lit "HUGGINGFACE_API_KEY not set, semantic search unavailable")) ;;
        ret []
    end.

End WithStore.

End Semantic.

(* ================================================================== *)
(** * Queries by id and by slug ([semanticSearchQueries.ts],
      [embeddingsQueries.ts]) *)
(* ================================================================== *)

Module Queries.

Import Embeddings.

(** [ctx.db.get(id)] on a table. *)
Definition get (t : list doc) (id : jsstring) : option doc :=
  List.find (fun d => Js.eqb (_id d) id) t.

(** One pass of the loop of [fetchPostsByIds] / [fetchPagesByIds].  The
    object pushed keeps the fields of the document that the caller reads. *)
Definition fetchStep (k : kind) (t : list doc) (results : list doc)
           (id : jsstring) : list doc :=
  match get t id with
  | Some doc =>
      if published doc
         && match k with KPost => negb (unlisted doc) | KPage => true end
      then results ++ [doc]
      else results
  | None => results
  end.

Definition fetchByIds (k : kind) (t : list doc) (ids : list jsstring)
  : list doc :=
  fold_left (fetchStep k t) ids [].

Definition fetchPostsByIds : list doc -> list jsstring -> list doc :=
  fetchByIds KPost.
Definition fetchPagesByIds : list doc -> list jsstring -> list doc :=
  fetchByIds KPage.

(** [getPostBySlug] / [getPageBySlug] of [embeddingsQueries.ts]:
    [withIndex("by_slug", q => q.eq("slug", slug)).first()]. *)
Definition getBySlug (k : kind) (s : jsstring) : M (option pending) :=
  fun w =>
    (Returns (option_map project
                (List.find (fun d => Js.eqb (slug d) s) (table k w))),
     w).

Definition getPostBySlug : jsstring -> M (option pending) := getBySlug KPost.
Definition getPageBySlug : jsstring -> M (option pending) := getBySlug KPage.

End Queries.

(* ================================================================== *)
(** * Maintenance entry points of [embeddings.ts] *)
(* ================================================================== *)

Module Maintenance.

Import Embeddings.

Record missingResult : Type := {
  postsProcessed : nat;
  pagesProcessed : nat;
  skipped : bool
}.

Record regenResult : Type := {
  success : bool;
  error : option jsstring
}.

(** [String(error)]: for an [Error], its name and its message. *)
Definition stringOf (e : thrown) : jsstring :=
  match e with
  | ErrorObj [] => lit "Error"
  | ErrorObj message => lit "Error: " ++ message
  | Value str => str
  end.

Definition notFound (k : kind) : jsstring :=
  match k with
  | KPost => lit "Post not found"
  | KPage => lit "Page not found"
  end.

Section WithEnv.

Variable env : Env.
Variable net : Net.

Definition generateMissingEmbeddings : M missingResult :=
  if negb (envTruthy (HUGGINGFACE_API_KEY env))
  then
    emit (ConsoleLog
            (lit "HUGGINGFACE_API_KEY not set, skipping embedding generation")) ;;
    ret {| postsProcessed := 0; pagesProcessed := 0; skipped := true |}
  else
    postsResult <- generatePostEmbeddings env net ;;
    pagesResult <- generatePageEmbeddings env net ;;
    ret {| postsProcessed := postsResult; pagesProcessed := pagesResult;
           skipped := false |}.

(** [regeneratePostEmbedding] / [regeneratePageEmbedding]. *)
Definition regenerateEmbedding (k : kind) (s : jsstring) : M regenResult :=
  if negb (envTruthy (HUGGINGFACE_API_KEY env))
  then ret {| success := false;
              error := Some (lit "HUGGINGFACE_API_KEY not configured") |}
  else
    found <- Queries.getBySlug k s ;;
    match found with
    | None => ret {| success := false; error := Some (notFound k) |}
    | Some post =>
        try_catch
          (content <-
             try_catch
               (Gateway.fetchContentFromIPFS env net (p_contentCid post))
               (fun error =>
                  emit (ConsoleError (fetchFailedMsg k (p_id post))
                                     (Some error)) ;;
                  ret []) ;;
           let textToEmbed :=
             if truthy content
             then prepareTextForEmbedding (p_title post) content
             else p_title post in
           embedding <- generateEmbedding env net textToEmbed ;;
           saveEmbedding k (p_id post) embedding ;;
           ret {| success := true; error := None |})
          (fun error =>
             ret {| success := false; error := Some (stringOf error) |})
    end.

Definition regeneratePostEmbedding : jsstring -> M regenResult :=
  regenerateEmbedding KPost.
Definition regeneratePageEmbedding : jsstring -> M regenResult :=
  regenerateEmbedding KPage.

End WithEnv.

End Maintenance.

(* ================================================================== *)
(** * Semantic search with snippets from the content (the later revision
      of [semanticSearch.ts]) *)
(* ================================================================== *)

Module SemanticIpfs.

Import Embeddings.

Definition warnMsg (k : kind) (id message : jsstring) : jsstring :=
  lit "Failed to fetch content from IPFS for " ++ label k ++ lit " "
  ++ id ++ lit ": " ++ message.

(** The [catch] clause of a snippet: rate-limit errors are not logged.  The
    trace keeps [console.warn] with [console.log]. *)
Definition onSnippetError (k : kind) (id : jsstring) (e : thrown) : M unit :=
  let errorMessage :=
    match e with ErrorObj message => message | Value str => str end in
  if negb (includes errorMessage (lit "429"))
  then emit (ConsoleLog (warnMsg k id errorMessage))
  else ret tt.

Section WithStore.

Variable env : Env.
Variable net : Net.
Variable vectorSearch : kind -> list json -> list (jsstring * Q).
Variable fetchByIds : kind -> list jsstring -> list doc.

(** [snippet] after the [try]: from the content if it could be fetched,
    else the value it was initialised with. *)
Definition snippetOf (k : kind) (d : doc) (initial : jsstring) : M jsstring :=
  try_catch
    (content <- Gateway.fetchContentFromIPFS env net (contentCid d) ;;
     ret (SemanticSnippet.createSnippet content 150))
    (fun error => onSnippetError k (_id d) error ;; ret initial).

Definition postStep (posts : list doc) (results : list Semantic.scoredResult)
           (result : jsstring * Q) : M (list Semantic.scoredResult) :=
  match Semantic.find posts (fst result) with
  | Some post =>
      if unlisted post then ret results
      else
        snippet <- snippetOf KPost post (Search.lead (description post) []) ;;
        ret (results ++
             [{| Semantic.s_id := _id post;
                 Semantic.s_type := Search.TPost;
                 Semantic.s_slug := slug post;
                 Semantic.s_title := title post;
                 Semantic.s_description := description post;
                 Semantic.s_snippet := snippet;
                 Semantic.s_score := snd result |}])
  | None => ret results
  end.

Definition pageStep (pages : list doc) (results : list Semantic.scoredResult)
           (result : jsstring * Q) : M (list Semantic.scoredResult) :=
  match Semantic.find pages (fst result) with
  | Some page =>
      snippet <- snippetOf KPage page (title page) ;;
      ret (results ++
           [{| Semantic.s_id := _id page;
               Semantic.s_type := Search.TPage;
               Semantic.s_slug := slug page;
               Semantic.s_title := title page;
               Semantic.s_description := None;
               Semantic.s_snippet := snippet;
               Semantic.s_score := snd result |}])
  | None => ret results
  end.

(** What follows the validation of [queryEmbedding]. *)
Definition rank (queryEmbedding : list json) : M (list Semantic.scoredResult) :=
  let postResults := vectorSearch KPost queryEmbedding in
  let pageResults := vectorSearch KPage queryEmbedding in
  let posts := fetchByIds KPost (map fst postResults) in
  let pages := fetchByIds KPage (map fst pageResults) in
  results <- forEach postResults [] (postStep posts) ;;
  results <- forEach pageResults results (pageStep pages) ;;
  ret (slice (Search.sort Semantic.byScore results) 0 15).

Definition semanticSearch (query : jsstring)
  : M (list Semantic.scoredResult) :=
  if negb (truthy (trim query)) then ret []
  else
    match HUGGINGFACE_API_KEY env with
    | Some ((_ :: _) as apiKey) =>
        emit (ConsoleLog (lit "Generating embedding for query")) ;;
        emit (ConsoleLog (lit "Using endpoint")) ;;
        response <- fetch net (Post HUGGINGFACE_API_URL
                                    (lit "Bearer " ++ apiKey) query) ;;
        if negb (ok response)
        then
          errorText <- await (body_text response) ;;
          emit (ConsoleError (lit "Hugging Face Router API error") None) ;;
          emit (ConsoleError (lit "Error details: " ++ errorText) None) ;;
          emit (ConsoleError (lit "Request URL") None) ;;
          emit (ConsoleError (lit "Model") None) ;;
          ret []
        else
          responseData <- await (body_json response) ;;
          extracted <- await (Semantic.extractEmbedding responseData) ;;
          match extracted with
          | None =>
              emit (ConsoleError
                      (lit "Invalid embedding response format from Hugging Face API")
                      None) ;;
              emit (ConsoleError (lit "Response data:") None) ;;
              ret []
          | Some [] =>
              emit (ConsoleError
                      (lit "Invalid embedding response from Hugging Face API - not an array or empty")
                      None) ;;
              emit (ConsoleError (lit "Extracted embedding:") None) ;;
              ret []
          | Some queryEmbedding => rank queryEmbedding
          end
    | _ =>
        emit (ConsoleLog
                (lit "HUGGINGFACE_API_KEY not set, semantic search unavailable")) ;;
        ret []
    end.

End WithStore.

End SemanticIpfs.

(* ================================================================== *)
(** * Feed escaping ([http.ts]) *)
(* ================================================================== *)

Module Http.

Definition quote : ascii := ascii_of_nat 34.

Definition escapeXml (text : jsstring) : jsstring :=
  let s := replaceAll [Chr (isChar "&")] (Regex.const (lit "&amp;")) text in
  let s := replaceAll [Chr (isChar "<")] (Regex.const (lit "&lt;")) s in
  let s := replaceAll [Chr (isChar ">")] (Regex.const (lit "&gt;")) s in
  let s := replaceAll [Chr (isChar quote)] (Regex.const (lit "&quot;")) s in
  replaceAll [Chr (isChar "'")] (Regex.const (lit "&apos;")) s.

(** [post.content.replace(/]]>/g, "]]&gt;")] of [generateFullRssXml]. *)
Definition reCdataEnd : regex :=
  [Chr (isChar "]"); Chr (isChar "]"); Chr (isChar ">")].

Definition escapedContent (content : jsstring) : jsstring :=
  replaceAll reCdataEnd (Regex.const (lit "]]&gt;")) content.

End Http.

(* ================================================================== *)
(** * Import from a URL ([importAction.ts]) *)
(* ================================================================== *)

Module ImportAction.

(** A pattern [r1|r2|...]: at a position the alternatives are tried from
    left to right. *)
Fixpoint match_alt (rs : list regex) (pos : nat) (s : jsstring)
  : option Regex.result :=
  match rs with
  | [] => None
  | r :: rest =>
      match match_at r pos s with
      | Some m => Some m
      | None => match_alt rest pos s
      end
  end.

(** [s.replace(/r1|r2|.../g, tpl)], as [replace_go]. *)
Fixpoint replace_alt_go (rs : list regex) (tpl : list jsstring -> jsstring)
         (pos skip : nat) (s : jsstring) : jsstring :=
  match skip with
  | S skip' =>
      match s with
      | [] => []
      | _ :: t => replace_alt_go rs tpl (S pos) skip' t
      end
  | 0 =>
      match match_alt rs pos s with
      | Some (caps, len) =>
          tpl caps ++
          match s with
          | [] => []
          | c :: t =>
              match len with
              | 0 => c :: replace_alt_go rs tpl (S pos) 0 t
              | S n => replace_alt_go rs tpl (S pos) n t
              end
          end
      | None =>
          match s with
          | [] => []
          | c :: t => c :: replace_alt_go rs tpl (S pos) 0 t
          end
      end
  end.

Definition replaceAllAlt (rs : list regex) (tpl : list jsstring -> jsstring)
           (s : jsstring) : jsstring :=
  replace_alt_go rs tpl 0 0 s.

(** [s.substring(b, e)]: both indices clamped to the string, and swapped
    when the first is the larger. *)
Definition substring {A : Type} (s : list A) (b e : Z) : list A :=
  let len := Z.of_nat (length s) in
  let b' := Z.min (Z.max b 0) len in
  let e' := Z.min (Z.max e 0) len in
  let from := Z.min b' e' in
  let to := Z.max b' e' in
  firstn (Z.to_nat (to - from)) (skipn (Z.to_nat from) s).

(** [/^-|-$/g] *)
Definition reEdgeDash : list regex :=
  [[Bos; Chr (isChar "-")]; [Chr (isChar "-"); Eos]].

(** [/^\s+|\s+$/g] *)
Definition reEdgeSpace : list regex :=
  [[Bos; Plus isWs]; [Plus isWs; Eos]].

Definition generateSlug (title : jsstring) : jsstring :=
  let s := toLowerCase title in
  let s := replaceAll SearchSnippet.reNotSlug (Regex.const []) s in
  let s := replaceAll reSpaces (Regex.const (lit "-")) s in
  let s := replaceAll SearchSnippet.reDashes (Regex.const (lit "-")) s in
  let s := replaceAllAlt reEdgeDash (Regex.const []) s in
  substring s 0 60.

Definition cleanMarkdown (content : jsstring) : jsstring :=
  let s := replaceAllAlt reEdgeSpace (Regex.const []) content in
  replaceAll Embeddings.reBlankLines (Regex.const [LF; LF]) s.

(** What [firecrawl.scrapeUrl] resolves to, as far as the handler reads
    it; [sr_title] is [result.metadata?.title]. *)
Record scrapeResult : Type := {
  sr_success : bool;
  sr_markdown : option jsstring;
  sr_error : option jsstring;
  sr_title : option jsstring
}.

Record importResult : Type := {
  success : bool;
  slug : option jsstring;
  title : option jsstring;
  error : option jsstring
}.

(** [x || fallback] for an optional string. *)
Definition orElse (x : option jsstring) (fallback : jsstring) : jsstring :=
  match x with
  | Some ((_ :: _) as s) => s
  | _ => fallback
  end.

Definition failed (message : jsstring) : importResult :=
  {| success := false; slug := None; title := None;
     error := Some message |}.

Section WithServices.

(** [process.env.FIRECRAWL_API_KEY]; the scraper (its construction and the
    call); [new URL(url).hostname]; [Date.now()] and today's date, as
    strings. *)
Variable FIRECRAWL_API_KEY : option jsstring.
Variable scrapeUrl : jsstring -> jsstring -> outcome scrapeResult.
Variable hostnameOf : jsstring -> outcome jsstring.
Variable now today : jsstring.

(** The [try] block of the handler. *)
Definition attempt (apiKey url : jsstring) : outcome importResult :=
  match scrapeUrl apiKey url with
  | Throws e => Throws e
  | Returns result =>
      if negb (sr_success result)
         || negb (envTruthy (sr_markdown result))
      then Returns
             (failed (orElse (sr_error result)
                        (lit "Failed to scrape URL - no content returned")))
      else
        let title := orElse (sr_title result) (lit "Imported Post") in
        let content :=
          cleanMarkdown (match sr_markdown result with
                         | Some markdown => markdown
                         | None => []
                         end) in
        let baseSlug := generateSlug title in
        let slug :=
          if truthy baseSlug then baseSlug else lit "imported-" ++ now in
        let hostname :=
          match hostnameOf url with
          | Returns h => h
          | Throws _ => lit "external source"
          end in
        let contentWithAttribution :=
          content ++ [LF; LF] ++ lit "---" ++ [LF; LF]
          ++ lit "*Originally published at [" ++ hostname ++ lit "]("
          ++ url ++ lit ")*" in
        Throws (ErrorObj
                  (lit "Import action requires IPFS upload. Please use sync script instead."))
  end.

Definition importFromUrl (url : jsstring) : importResult :=
  match FIRECRAWL_API_KEY with
  | Some ((_ :: _) as apiKey) =>
      match attempt apiKey url with
      | Returns r => r
      | Throws (ErrorObj message) => failed message
      | Throws (Value _) => failed (lit "Unknown error occurred")
      end
  | _ =>
      failed (lit "FIRECRAWL_API_KEY not configured. Add it to your Convex environment variables.")
  end.

End WithServices.

End ImportAction.

(* ================================================================== *)
(** * Vocabulary of the properties, and concrete inputs *)
(* ================================================================== *)

Module Observe.

(** ** Reading the global replacements *)

(** The length of the longest prefix of [s] made of [p]. *)
Fixpoint run (p : ascii -> bool) (s : jsstring) : nat :=
  match s with
  | c :: t => if p c then S (run p t) else 0
  | [] => 0
  end.

(** Every maximal run of [p] replaced by [x]; [in_run] tells that the
    run the scan is in was already replaced. *)
Fixpoint collapse (p : ascii -> bool) (x : jsstring) (in_run : bool)
         (s : jsstring) : jsstring :=
  match s with
  | [] => []
  | c :: t =>
      if p c
      then if in_run then collapse p x true t else x ++ collapse p x true t
      else c :: collapse p x false t
  end.

(** White space occurs only as single spaces. *)
Fixpoint tidy (after_space : bool) (s : jsstring) : Prop :=
  match s with
  | [] => True
  | c :: t =>
      if isWs c
      then c = " "%char /\ after_space = false /\ tidy true t
      else tidy false t
  end.





(** ** Anchors *)

Definition dash : ascii -> bool := isChar "-".

(** What [generateSlug] computes: lower case, only [a-z0-9], white space
    and [-] kept, runs of white space turned into one [-], runs of [-]
    turned into one [-]. *)
Definition slugOf (text : jsstring) : jsstring :=
  collapse dash (lit "-") false
    (collapse isWs (lit "-") false
       (filter SearchSnippet.slugKeep (toLowerCase text))).




Definition headingsOf (content : jsstring) : list SearchSnippet.heading :=
  SearchSnippet.collectHeadings (splitLines content) 0.




Definition noFetch (evs : list event) : Prop :=
  forall req, ~ In (Fetch req) evs.

Definition isFetch (ev : event) : bool :=
  match ev with Fetch _ => true | _ => false end.

(** The events a run added to the trace. *)
Definition newEvents (w w' : World) : list event :=
  skipn (length (trace w)) (trace w').

Section Gateway.

Variable env : Env.
Variable net : Net.
Variable cid : jsstring.
Variable w : World.

(** What the primary endpoint answers to the first request of a call. *)
Definition primaryOutcome : outcome response :=
  net (trace w) (Get (Gateway.gatewayUrl env cid)).

(** The error of one attempt, if it failed: the fetch threw, the status was
    not a success, or reading the body threw. *)
Definition attemptError (o : outcome response) : option thrown :=
  match o with
  | Throws e => Some e
  | Returns r =>
      if ok r
      then match body_text r with Throws e => Some e | Returns _ => None end
      else Some (Gateway.statusError r)
  end.

(** One attempt on one endpoint: the request, the status test, the body. *)
Definition attemptResult (o : outcome response) : outcome jsstring :=
  match o with
  | Throws e => Throws e
  | Returns r => if ok r then body_text r else Throws (Gateway.statusError r)
  end.

Definition grown (evs : list event) : World :=
  {| trace := trace w ++ evs; posts := posts w; pages := pages w |}.

(** The call as a function of what the endpoints answer: the [try] block,
    then the [catch] clause; each comes with the requests it makes. *)
Definition tryBlock : outcome jsstring * list event :=
  let u1 := Gateway.gatewayUrl env cid in
  let u2 := Gateway.publicGatewayUrl cid in
  match net (trace w) (Get u1) with
  | Throws e => (Throws e, [Fetch (Get u1)])
  | Returns r =>
      if ok r then (body_text r, [Fetch (Get u1)])
      else if Gateway.fallbackStatus r
           then (attemptResult
                   (net (trace w ++ [Fetch (Get u1)]) (Get u2)),
                 [Fetch (Get u1); Fetch (Get u2)])
           else (Throws (Gateway.statusError r), [Fetch (Get u1)])
  end.

Definition catchClause (error : thrown) (evs : list event)
  : outcome jsstring * list event :=
  let u2 := Gateway.publicGatewayUrl cid in
  if negb (Js.eqb (Gateway.getIPFSGatewayUrl env) Gateway.publicGatewayBase)
  then match attemptResult (net (trace w ++ evs) (Get u2)) with
       | Returns body => (Returns body, evs ++ [Fetch (Get u2)])
       | Throws _ => (Throws (Gateway.rethrow error), evs ++ [Fetch (Get u2)])
       end
  else (Throws (Gateway.rethrow error), evs).

(** The primary attempt failed with status 401, 403 or 429. *)
Definition deniedStatus (o : outcome response) : bool :=
  match o with
  | Returns r => negb (ok r) && Gateway.fallbackStatus r
  | Throws _ => false
  end.

(** The transport call threw. *)
Definition transportThrew (o : outcome response) : bool :=
  match o with Throws _ => true | Returns _ => false end.

(** Requests of a call after its first one. *)
Definition fallbackAttempts : nat :=
  length (filter isFetch
            (newEvents w (snd (Gateway.fetchContentFromIPFS env net cid w))))
  - 1.

(** The fallback rule in the words of the specification. *)
Definition fallback_policy_as_stated : Prop :=
  fallbackAttempts <= 1
  /\ (1 <= fallbackAttempts ->
      (deniedStatus primaryOutcome = true
       \/ transportThrew primaryOutcome = true)
      /\ Gateway.getIPFSGatewayUrl env <> Gateway.publicGatewayBase)
  /\ (Gateway.getIPFSGatewayUrl env = Gateway.publicGatewayBase ->
      fallbackAttempts = 0).

End Gateway.

(** The acceptance rule of the provider response in the words of the
    specification, for a provider whose vectors have [dimension] entries. *)
Definition response_validation_as_stated
           (dimension : nat) (env : Env) (net : Net) (text : jsstring)
           (w : World) : Prop :=
  forall v,
    fst (Embeddings.generateEmbedding env net text w) = Returns v ->
    v <> [] /\ length v = dimension.

(** The request [generateEmbedding] sends for [text]. *)
Definition embeddingRequest (apiKey text : jsstring) : request :=
  Post Embeddings.HUGGINGFACE_API_URL (lit "Bearer " ++ apiKey)
       (slice text 0 2000).

(** The results whose title contains the query, then the others, each
    group in the order of the input. *)
Definition titleFirst (queryLower : jsstring)
           (results : list Search.searchResult) : list Search.searchResult :=
  filter (Search.inTitle queryLower) results
  ++ filter (fun a => negb (Search.inTitle queryLower a)) results.


(** The document with this id has an embedding. *)
Definition hasEmbedding (t : list doc) (id : jsstring) : bool :=
  existsb (fun d => Js.eqb (_id d) id
                    && match embedding d with Some _ => true | None => false end)
          t.

(** No document with this id has an embedding. *)
Definition lacks (t : list doc) (id : jsstring) : Prop :=
  forall d, In d t -> _id d = id -> embedding d = None.

(** The failure of the attempt for this document was logged. *)
Definition failureLogged (k : Embeddings.kind) (id : jsstring)
           (evs : list event) : Prop :=
  exists error,
    In (ConsoleError (Embeddings.embedFailedMsg k id) (Some error)) evs.

(** The documents the backfill selects: published, without an embedding
    and not unlisted. *)
Definition selectable (d : doc) : bool :=
  published d && Embeddings.lacksEmbedding d.

(** A table after some embeddings were saved. *)
Definition saved (d d' : doc) : Prop :=
  d' = d \/ exists v, d' = Embeddings.setEmbedding v d.

End Observe.

Module Fixtures.

Definition nl : jsstring := [LF].

Definition emptyWorld : World := {| trace := []; posts := []; pages := [] |}.

Definition envNoKey : Env :=
  {| PINATA_GATEWAY_URL := None; HUGGINGFACE_API_KEY := None |}.

(** A dedicated gateway is configured. *)
Definition envCustom : Env :=
  {| PINATA_GATEWAY_URL := Some (lit "example.mypinata.cloud");
     HUGGINGFACE_API_KEY := Some (lit "hf_key") |}.

(** No gateway is configured: the primary endpoint is the public one. *)
Definition envPublic : Env :=
  {| PINATA_GATEWAY_URL := None;
     HUGGINGFACE_API_KEY := Some (lit "hf_key") |}.

Definition reply (status : N) (statusText body : jsstring) : outcome response :=
  Returns {| status := status; statusText := statusText;
             body_text := Returns body;
             body_json := Throws (ErrorObj (lit "Unexpected token")) |}.

Definition replyJson (j : json) : outcome response :=
  Returns {| status := 200; statusText := lit "OK";
             body_text := Returns [];
             body_json := Returns j |}.

Definition refused : outcome response :=
  Throws (ErrorObj (lit "fetch failed")).

(** A network that answers the n-th request with the n-th scripted answer
    and refuses once the script is over. *)
Definition scripted (answers : list (outcome response)) : Net :=
  fun history _ =>
    nth (length (filter Observe.isFetch history)) answers refused.

Definition cid1 : jsstring := lit "QmT5NvUtoM5n".

Definition mdCSharp : jsstring := lit "# Intro" ++ nl ++ lit "I like C# a lot".
Definition mdFenced : jsstring :=
  lit "Setup" ++ nl ++ lit "```" ++ nl ++ lit "secret" ++ nl ++ lit "```".
Definition mdImage : jsstring := lit "See ![diagram](d.png) here".

(** The dedicated gateway answers 500, the public one has the content. *)
Definition netServerError : Net :=
  scripted [reply 500 (lit "Internal Server Error") [];
            reply 200 (lit "OK") (lit "# Intro")].

(** The dedicated gateway answers 403 and the public one 404, each time it
    is asked. *)
Definition netForbiddenThenMissing : Net :=
  scripted [reply 403 (lit "Forbidden") [];
            reply 404 (lit "Not Found") [];
            reply 404 (lit "Not Found") []].

(** The (only) gateway answers 403 first and has the content when asked
    again. *)
Definition netForbiddenThenOk : Net :=
  scripted [reply 403 (lit "Forbidden") [];
            reply 200 (lit "OK") (lit "# Intro")].

Definition half : Q := QArith_base.Qmake 1 2.
Definition quarter : Q := QArith_base.Qmake 1 4.

(** The provider answers with a vector of two numbers. *)
Definition netShortVector : Net :=
  scripted [replyJson (JArr [JNum half; JNum quarter])].

(** The provider answers 200 with an error object instead of a vector. *)
Definition netErrorObject : Net :=
  scripted [replyJson (JObj [(lit "error", JStr (lit "Model is loading"))])].

(** Three posts: one with the query in its title, one with it in its body
    only, and an unlisted one with it in both. *)
Definition mkPost (id slug title cid : jsstring) (unlisted : bool) : doc :=
  {| _id := id; slug := slug; title := title;
     description := Some title; excerpt := None; contentCid := cid;
     published := true; unlisted := unlisted; embedding := None |}.

Definition postCaching : doc :=
  mkPost (lit "p1") (lit "intro-to-caching") (lit "Intro to Caching")
         (lit "QmCaching") false.

Definition postReplication : doc :=
  mkPost (lit "p2") (lit "replication") (lit "Deep Dive: Replication")
         (lit "QmReplication") false.

Definition postDraft : doc :=
  mkPost (lit "p3") (lit "caching-internals") (lit "Caching internals")
         (lit "QmDraft") true.

Definition allPosts : list doc := [postCaching; postReplication; postDraft].

Definition indexFix (k : Embeddings.kind) (query : jsstring) : list doc :=
  match k with
  | Embeddings.KPost => [postCaching; postDraft]
  | Embeddings.KPage => []
  end.

Definition getAllFix (k : Embeddings.kind) : list doc :=
  match k with
  | Embeddings.KPost => allPosts
  | Embeddings.KPage => []
  end.

Definition getBySlugFix (k : Embeddings.kind) (s : jsstring) : option doc :=
  List.find (fun d => Js.eqb (slug d) s) (getAllFix k).

(** Every body mentions a cache. *)
Definition netBodies : Net :=
  fun _ _ => reply 200 (lit "OK") (lit "# Notes" ++ nl ++ lit "Keep the cache warm.").

(** Two posts wait for an embedding; the provider fails for the first and
    answers for the second. *)
Definition worldTwoPosts : World :=
  {| trace := []; posts := [postCaching; postReplication]; pages := [] |}.

Definition netBackfill : Net :=
  scripted [reply 200 (lit "OK") (lit "# Caching");
            reply 503 (lit "Service Unavailable") (lit "loading");
            reply 200 (lit "OK") (lit "# Replication");
            replyJson (JArr [JNum half; JNum quarter])].

End Fixtures.

Import Observe Fixtures.

(* ================================================================== *)
(** * Further vocabulary *)
(* ================================================================== *)

Module Observe2.

(** ** Feed escaping *)

(** The entity of a character that XML reserves, the character itself
    otherwise. *)
Definition escapeChar (c : ascii) : jsstring :=
  if isChar "&" c then lit "&amp;"
  else if isChar "<" c then lit "&lt;"
  else if isChar ">" c then lit "&gt;"
  else if isChar Http.quote c then lit "&quot;"
  else if isChar "'" c then lit "&apos;"
  else [c].

Definition isRawSpecial (c : ascii) : bool :=
  isChar "<" c || isChar ">" c || isChar Http.quote c || isChar "'" c.

(** [s] has an occurrence of [needle]. *)
Definition occurs (needle s : jsstring) : Prop :=
  exists pre post, s = pre ++ needle ++ post.

(** No suffix of [s] starts with [needle]. *)
Fixpoint free_of (needle s : jsstring) : Prop :=
  startsWith needle s = false
  /\ match s with [] => True | _ :: t => free_of needle t end.

(** ** Search *)

(** Empty or made of white space only. *)
Definition blank (query : jsstring) : Prop :=
  Forall (fun c => isWs c = true) query.

(** What identifies a search result: its kind and the id of its document. *)
Definition key (r : Search.searchResult) : Search.rtype * jsstring :=
  (Search.r_type r, Search.r_id r).

(** Every request to the gateway fails: the fetch throws, the status is not
    a success, or the body cannot be read. *)
Definition gatewayDown (net : Net) : Prop :=
  forall history url, exists e,
      attemptResult (net history (Get url)) = Throws e.

(** ** Slugs *)

(** Between a-z, 0-9 and the hyphen. *)
Definition isSlugChar (c : ascii) : bool :=
  in_range 97 122 c || in_range 48 57 c || isChar "-" c.

(** No run of [p] is longer than one; [after] tells that the code unit
    before [s] is in [p]. *)
Fixpoint single (p : ascii -> bool) (after : bool) (s : jsstring) : Prop :=
  match s with
  | [] => True
  | c :: t => if p c then after = false /\ single p true t
              else single p false t
  end.

(** ** Heading lines *)

(** Where the second group of [/^(#{1,6})\s+(.+)$/] starts in [tail], the
    line without its hashes: behind the white space that follows the
    hashes, but one code unit before the end of the line at the latest (the
    group wants one code unit at least, and takes the last one of the white
    space when nothing else is left). *)
Definition restStart (tail : jsstring) : nat :=
  Nat.min (run isWs tail) (length tail - 1).

(** The lines the pattern matches: one to six [#], then white space, then
    a rest that is not empty and holds no line terminator.  So a line that
    ends in a carriage return is no heading, and [#] followed by two spaces
    is one, with an empty text. *)
Definition headingLine (line : jsstring) : bool :=
  let hashes := run hash line in
  let tail := skipn hashes line in
  (1 <=? hashes) && (hashes <=? 6)
  && (1 <=? restStart tail)
  && forallb isDot (skipn (restStart tail) tail).

(** The text of a heading line: what follows the hashes, trimmed. *)
Definition headingText (line : jsstring) : jsstring :=
  trim (skipn (run hash line) line).

(** The headings of the lines, [offset] being the offset of the first
    line: text, offset of the line, and id. *)
Fixpoint headingsFrom (lines : list jsstring) (offset : nat)
  : list SearchSnippet.heading :=
  match lines with
  | [] => []
  | line :: rest =>
      let later := headingsFrom rest (offset + length line + 1) in
      if headingLine line
      then {| SearchSnippet.text := headingText line;
              SearchSnippet.position := offset;
              SearchSnippet.id := slugOf (headingText line) |} :: later
      else later
  end.

(** The headings of a markdown text, its lines being the pieces between
    line feeds. *)
Definition headings_as_stated (content : jsstring)
  : list SearchSnippet.heading :=
  headingsFrom (splitLines content) 0.

(** The first line of [s]: what comes before its first line feed. *)
Fixpoint firstLine (s : jsstring) : jsstring :=
  match s with
  | [] => []
  | c :: t => if Ascii.eqb c LF then [] else c :: firstLine t
  end.

(** [s] without a hyphen at its start, and without one at its end. *)
Definition dropFirstDash (s : jsstring) : jsstring :=
  match s with
  | c :: t => if isChar "-" c then t else s
  | [] => []
  end.

Fixpoint dropLastDash (s : jsstring) : jsstring :=
  match s with
  | [] => []
  | c :: t =>
      match t with
      | [] => if isChar "-" c then [] else [c]
      | _ :: _ => c :: dropLastDash t
      end
  end.

(** ** Snippets *)

(** The only white space is the space. *)
Definition oneLine (s : jsstring) : Prop :=
  Forall (fun c => isWs c = true -> c = " "%char) s.

(** ** Documents and ranked results *)

(** What a reader may be shown: published and, for a post, not unlisted. *)
Definition visible (k : Embeddings.kind) (d : doc) : bool :=
  published d
  && match k with
     | Embeddings.KPost => negb (unlisted d)
     | Embeddings.KPage => true
     end.

Definition kindOf (t : Search.rtype) : Embeddings.kind :=
  match t with
  | Search.TPost => Embeddings.KPost
  | Search.TPage => Embeddings.KPage
  end.

(** Scores never go up along the list. *)
Definition descending (rs : list Semantic.scoredResult) : Prop :=
  StronglySorted
    (fun a b => QArith_base.Qle (Semantic.s_score b) (Semantic.s_score a))
    rs.

(** The result carries the id and the score of a hit of the vector index
    of its kind, and the slug and title of a fetched document with that
    id, which for a post is not unlisted. *)
Definition fromIndex (hits : Embeddings.kind -> list (jsstring * Q))
           (docs : Embeddings.kind -> list doc)
           (r : Semantic.scoredResult) : Prop :=
  let k := kindOf (Semantic.s_type r) in
  In (Semantic.s_id r, Semantic.s_score r) (hits k)
  /\ exists d, In d (docs k)
               /\ _id d = Semantic.s_id r
               /\ slug d = Semantic.s_slug r
               /\ title d = Semantic.s_title r
               /\ (k = Embeddings.KPost -> unlisted d = false).

(** At most fifteen results, best first, all from the index. *)
Definition ranked (hits : Embeddings.kind -> list (jsstring * Q))
           (docs : Embeddings.kind -> list doc)
           (results : list Semantic.scoredResult) : Prop :=
  length results <= 15
  /\ descending results
  /\ Forall (fromIndex hits docs) results.

(** No run of [p] is longer than two. *)
Fixpoint short (p : ascii -> bool) (s : jsstring) : Prop :=
  run p s <= 2 /\ match s with [] => True | _ :: t => short p t end.

(** A result without its snippet. *)
Definition bare (r : Semantic.scoredResult) : Semantic.scoredResult :=
  {| Semantic.s_id := Semantic.s_id r;
     Semantic.s_type := Semantic.s_type r;
     Semantic.s_slug := Semantic.s_slug r;
     Semantic.s_title := Semantic.s_title r;
     Semantic.s_description := Semantic.s_description r;
     Semantic.s_snippet := [];
     Semantic.s_score := Semantic.s_score r |}.

(** Two runs end alike: with the same error, or with lists that differ in
    their snippets only. *)
Definition sameButSnippets (o o' : outcome (list Semantic.scoredResult))
  : Prop :=
  match o, o' with
  | Returns rs, Returns rs' => map bare rs = map bare rs'
  | Throws e, Throws e' => e = e'
  | _, _ => False
  end.

(** Two networks that answer every [POST] alike: they differ in what the
    gateway serves only. *)
Definition sameProvider (net net' : Net) : Prop :=
  forall history url authorization inputs,
    net history (Post url authorization inputs)
    = net' history (Post url authorization inputs).

(** ** Requests *)

Definition isGet (ev : event) : bool :=
  match ev with Fetch (Get _) => true | _ => false end.

Definition isPost (ev : event) : bool :=
  match ev with Fetch (Post _ _ _) => true | _ => false end.

(** How many requests went to the gateways, and how many to the provider. *)
Definition gets (evs : list event) : nat := length (filter isGet evs).
Definition provider (evs : list event) : nat := length (filter isPost evs).

(** The endpoint answered this request with a success status and this
    body. *)
Definition served (net : Net) (history : list event) (url body : jsstring)
  : Prop :=
  exists r, net history (Get url) = Returns r
            /\ ok r = true
            /\ body_text r = Returns body.

(** ** Embeddings *)

(** The [try] block that [generatePostEmbeddings], [generatePageEmbeddings],
    [regeneratePostEmbedding] and [regeneratePageEmbedding] share: fetch the
    content (or fall back to the title), embed, save; [done] is what the
    block ends with. *)
Definition attemptBlock {A} (env : Env) (net : Net) (k : Embeddings.kind)
           (post : Embeddings.pending) (done : A) : M A :=
  (content <-
     try_catch
       (Gateway.fetchContentFromIPFS env net (Embeddings.p_contentCid post))
       (fun error =>
          emit (ConsoleError
                  (Embeddings.fetchFailedMsg k (Embeddings.p_id post))
                  (Some error)) ;;
          ret []) ;;
   let textToEmbed :=
     if truthy content
     then Embeddings.prepareTextForEmbedding (Embeddings.p_title post) content
     else Embeddings.p_title post in
   embedding <- Embeddings.generateEmbedding env net textToEmbed ;;
   Embeddings.saveEmbedding k (Embeddings.p_id post) embedding ;;
   ret done)%js.

(** How many documents of a table the backfill has still to treat. *)
Definition pendingCount (t : list doc) : nat :=
  length (filter selectable t).

Definition other (k : Embeddings.kind) : Embeddings.kind :=
  match k with
  | Embeddings.KPost => Embeddings.KPage
  | Embeddings.KPage => Embeddings.KPost
  end.

(** The first document of the table with this slug. *)
Definition bySlug (t : list doc) (s : jsstring) : option doc :=
  List.find (fun d => Js.eqb (slug d) s) t.

End Observe2.

Module Fixtures2.

(** Every request is refused. *)
Definition netDown : Net := scripted [].

(** The vector index finds the two posts, the second one twice as far. *)
Definition hitsFix (k : Embeddings.kind) (vector : list json)
  : list (jsstring * Q) :=
  match k with
  | Embeddings.KPost => [(lit "p2", quarter); (lit "p1", half)]
  | Embeddings.KPage => []
  end.

Definition docsFix (k : Embeddings.kind) (ids : list jsstring) : list doc :=
  Queries.fetchByIds k (Embeddings.table k worldTwoPosts) ids.

(** The store holds one post, an unlisted one. *)
Definition worldDraft : World :=
  {| trace := []; posts := [postDraft]; pages := [] |}.

(** The gateway has the content and the provider answers with a vector. *)
Definition netEmbedOk : Net :=
  scripted [reply 200 (lit "OK") (lit "# Caching");
            replyJson (JArr [JNum half; JNum quarter])].

(** The provider answers with a vector; the gateway has the content, or
    refuses every request. *)
Definition netServing : Net :=
  fun _ req =>
    match req with
    | Post _ _ _ => replyJson (JArr [JNum half; JNum quarter])
    | Get _ => reply 200 (lit "OK") (lit "# Caching" ++ nl ++ lit "Keep it warm.")
    end.

Definition netNoGateway : Net :=
  fun _ req =>
    match req with
    | Post _ _ _ => replyJson (JArr [JNum half; JNum quarter])
    | Get _ => refused
    end.

End Fixtures2.

Import Observe2 Fixtures2.

(* ================================================================== *)
(** * Properties *)
(* ================================================================== *)

(** ** Strings *)

Lemma slice_length_le {A} (s : list A) (b e : Z) :
  (0 <= b)%Z -> (b <= e)%Z ->
  (Z.of_nat (length (slice s b e)) <= e - b)%Z.
Proof.
  intros Hb He. unfold slice, clampIndex.
  rewrite length_firstn.
  destruct (b <? 0)%Z eqn:Eb; [apply Z.ltb_lt in Eb; lia|].
  destruct (e <? 0)%Z eqn:Ee; [apply Z.ltb_lt in Ee; lia|].
  lia.
Qed.

Lemma slice_length_le_len {A} (s : list A) (b e : Z) :
  length (slice s b e) <= length s.
Proof.
  unfold slice. rewrite length_firstn, length_skipn. lia.
Qed.

(** ** Snippet length *)

(** C10: for [maxLength >= 0] the snippet of [createSnippet] is a window of
    at most [maxLength] code units of the stripped text with at most one
    ellipsis on each side, so it is at most [maxLength + 6] long; the
    two-argument [createSnippet] of semantic search has only the trailing
    ellipsis and stays within [maxLength + 3]. *)
Theorem createSnippet_length_bound
        (content searchTerm : jsstring) (maxLength : Z) :
  (0 <= maxLength)%Z ->
  (Z.of_nat (length (SearchSnippet.snippet
                       (SearchSnippet.createSnippet content searchTerm
                                                    maxLength)))
   <= maxLength + 6)%Z
  /\ (Z.of_nat (length (SemanticSnippet.createSnippet content maxLength))
      <= maxLength + 3)%Z.
Proof.
  intros Hmax. split.
  - unfold SearchSnippet.createSnippet.
    set (clean := cleanContent content).
    destruct (indexOf (toLowerCase clean) (toLowerCase searchTerm))
      as [index|]; cbn [SearchSnippet.snippet].
    + set (start := Z.max 0 (Z.of_nat index - maxLength / 3)).
      set (end_ := Z.min (Z.of_nat (length clean)) (start + maxLength)).
      assert (Hs : (0 <= start)%Z) by (unfold start; lia).
      assert (Hw : (Z.of_nat (length (slice clean start end_)) <= maxLength)%Z).
      { destruct (Z_le_gt_dec start end_) as [Hle|Hgt].
        - pose proof (slice_length_le clean Hs Hle). unfold end_ in *. lia.
        - unfold slice, clampIndex. rewrite length_firstn.
          destruct (start <? 0)%Z eqn:E1; [apply Z.ltb_lt in E1; lia|].
          destruct (end_ <? 0)%Z eqn:E2; lia. }
      destruct (start >? 0)%Z, (end_ <? Z.of_nat (length clean))%Z;
        repeat rewrite length_app; cbn [ellipsis lit length
                                         String.list_ascii_of_string]; lia.
    + rewrite length_app.
      pose proof (@slice_length_le _ clean 0 maxLength ltac:(lia) Hmax).
      destruct (Z.of_nat (length clean) >? maxLength)%Z;
        cbn [ellipsis lit length String.list_ascii_of_string]; lia.
  - unfold SemanticSnippet.createSnippet.
    set (clean := cleanContent content).
    destruct (Z.of_nat (length clean) <=? maxLength)%Z eqn:E.
    + apply Z.leb_le in E. lia.
    + rewrite length_app.
      pose proof (@slice_length_le _ clean 0 maxLength ltac:(lia) Hmax).
      cbn [ellipsis lit length String.list_ascii_of_string]. lia.
Qed.

Lemma createSnippet_length_bound_witness :
  (0 <= 5)%Z /\
  ((Z.of_nat (length (SearchSnippet.snippet
                        (SearchSnippet.createSnippet
                           (lit "# Notes on caching and replication")
                           (lit "caching") 5)))
    <= 5 + 6)%Z
   /\ (Z.of_nat (length (SemanticSnippet.createSnippet
                           (lit "# Notes on caching and replication") 5))
       <= 5 + 3)%Z).
Proof.
  split; [lia|].
  apply (@createSnippet_length_bound
           (lit "# Notes on caching and replication") (lit "caching") 5).
  lia.
Defined.

(** ** Semantic search without a provider credential *)

(** C6: when [HUGGINGFACE_API_KEY] is not set (or is the empty string),
    [semanticSearch] returns the empty list for every query, without throwing
    and without any request, and [isSemanticSearchAvailable] is [false]. *)
Theorem semanticSearch_without_credential
        (env : Env) (net : Net)
        (vectorSearch : Embeddings.kind -> list json -> list (jsstring * Q))
        (fetchByIds : Embeddings.kind -> list jsstring -> list doc)
        (query : jsstring) (w : World) :
  envTruthy (HUGGINGFACE_API_KEY env) = false ->
  (exists logs,
      Semantic.semanticSearch env net vectorSearch fetchByIds query w
      = (Returns [],
         {| trace := trace w ++ logs; posts := posts w; pages := pages w |})
      /\ noFetch logs)
  /\ Semantic.isSemanticSearchAvailable env = false.
Proof.
  intros Hkey. split; [|exact Hkey].
  unfold Semantic.semanticSearch.
  destruct (negb (truthy (trim query))).
  - exists []. split.
    + unfold ret. rewrite app_nil_r. destruct w; reflexivity.
    + intros req [].
  - destruct (HUGGINGFACE_API_KEY env) as [[|c key]|]; cbn in Hkey;
      try discriminate;
      (eexists; split; [reflexivity|]);
      intros req [H|[]]; discriminate H.
Qed.

Lemma semanticSearch_without_credential_witness :
  envTruthy (HUGGINGFACE_API_KEY envNoKey) = false /\
  Semantic.isSemanticSearchAvailable envNoKey = false.
Proof.
  split; [reflexivity|].
  apply (@semanticSearch_without_credential
           envNoKey (scripted []) (fun _ _ => []) (fun _ _ => [])
           (lit "caching") emptyWorld).
  reflexivity.
Defined.

(** ** Content gateway client *)

Lemma eqb_true_iff (a b : jsstring) : Js.eqb a b = true <-> a = b.
Proof.
  unfold Js.eqb. destruct (list_eq_dec ascii_dec a b); split;
    intros; congruence.
Qed.

Lemma eqb_false_iff (a b : jsstring) : Js.eqb a b = false <-> a <> b.
Proof.
  unfold Js.eqb. destruct (list_eq_dec ascii_dec a b); split;
    intros; congruence.
Qed.

Lemma eqb_refl (a : jsstring) : Js.eqb a a = true.
Proof. now apply eqb_true_iff. Qed.

Lemma filter_isFetch_repeat (req : request) (n : nat) :
  filter isFetch (repeat (Fetch req) n) = repeat (Fetch req) n.
Proof. induction n; cbn; congruence. Qed.

Lemma newEvents_app (w : World) (evs : list event) (p q : list doc) :
  newEvents w {| trace := trace w ++ evs; posts := p; pages := q |} = evs.
Proof.
  unfold newEvents; cbn.
  rewrite skipn_app, skipn_all, Nat.sub_diag. reflexivity.
Qed.

Lemma attempt_block (net : Net) (url : jsstring) (w : World) :
  (fallbackResponse <- fetch net (Get url) ;;
   if negb (ok fallbackResponse)
   then throw (Gateway.statusError fallbackResponse)
   else await (body_text fallbackResponse)) w
  = (attemptResult (net (trace w) (Get url)),
     {| trace := trace w ++ [Fetch (Get url)];
        posts := posts w; pages := pages w |}).
Proof.
  unfold bind, fetch, attemptResult.
  destruct (net (trace w) (Get url)) as [r|e]; [|reflexivity].
  destruct (ok r); reflexivity.
Qed.

Lemma truthy_nonempty (s : jsstring) : s <> [] -> truthy s = true.
Proof. destruct s; [congruence|reflexivity]. Qed.

Ltac leaf n :=
  exists n; cbn [fst snd app repeat];
  split; [reflexivity|first [now auto | intros; lia]].

Section GatewayFacts.

Variable env : Env.
Variable net : Net.
Variable cid : jsstring.
Variable w : World.

Lemma fetchContentFromIPFS_run :
  cid <> [] ->
  Gateway.fetchContentFromIPFS env net cid w
  = match tryBlock env net cid w with
    | (Returns body, evs) => (Returns body, grown w evs)
    | (Throws error, evs) =>
        (fst (catchClause env net cid w error evs),
         grown w (snd (catchClause env net cid w error evs)))
    end.
Proof.
  intros Hcid. unfold Gateway.fetchContentFromIPFS.
  rewrite (truthy_nonempty Hcid). cbn [negb].
  unfold try_catch at 1. unfold bind at 1. unfold fetch at 1.
  unfold tryBlock, catchClause.
  destruct (net (trace w) (Get (Gateway.gatewayUrl env cid))) as [r|e];
    [destruct (ok r); cbn [negb];
     [unfold await; destruct (body_text r)
     |destruct (Gateway.fallbackStatus r);
      [rewrite attempt_block; cbn [trace posts pages];
       rewrite <- ?app_assoc; cbn [app];
       destruct (attemptResult _)
      |unfold throw]]|];
    try (destruct (negb (Js.eqb _ Gateway.publicGatewayBase));
         [unfold try_catch; rewrite attempt_block; cbn [trace posts pages];
          rewrite <- ?app_assoc; cbn [app];
          destruct (attemptResult _)|]);
    unfold grown; cbn [fst snd]; rewrite <- ?app_assoc; reflexivity.
Qed.

(** C1 (amended): the first request of a call goes to the primary endpoint
    and every later one to the public endpoint.  After a successful primary
    attempt there is no fallback request.  After a primary failure other
    than a 401, 403 or 429 answer (another status, a fetch that threw, a
    body that could not be read) the fallback is tried exactly once when the
    primary endpoint differs from the public one, and not at all when they
    are the same, in which case that one failure is what the call throws.
    After a 401, 403 or 429 answer the fallback is tried when the endpoints
    differ. *)
Theorem fallback_policy :
  cid <> [] ->
  let o := primaryOutcome env net cid w in
  let run := Gateway.fetchContentFromIPFS env net cid w in
  exists n,
    snd run = grown w (Fetch (Get (Gateway.gatewayUrl env cid))
                       :: repeat (Fetch (Get (Gateway.publicGatewayUrl cid))) n)
    /\ fallbackAttempts env net cid w = n
    /\ match attemptError o with
       | None => n = 0 /\ fst run = attemptResult o
       | Some e =>
           if deniedStatus o
           then Gateway.getIPFSGatewayUrl env <> Gateway.publicGatewayBase ->
                1 <= n
           else if Js.eqb (Gateway.getIPFSGatewayUrl env)
                          Gateway.publicGatewayBase
                then n = 0 /\ fst run = Throws (Gateway.rethrow e)
                else n = 1
       end.
Proof.
  intros Hcid o run.
  assert (Hn : forall n,
             snd run = grown w (Fetch (Get (Gateway.gatewayUrl env cid))
                                :: repeat (Fetch (Get (Gateway.publicGatewayUrl cid))) n) ->
             fallbackAttempts env net cid w = n).
  { intros n Hrun. unfold fallbackAttempts. fold run. rewrite Hrun.
    unfold grown. rewrite newEvents_app. cbn [filter isFetch].
    rewrite filter_isFetch_repeat. cbn [length]. rewrite repeat_length. lia. }
  assert (Hgoal : exists n,
             snd run = grown w (Fetch (Get (Gateway.gatewayUrl env cid))
                                :: repeat (Fetch (Get (Gateway.publicGatewayUrl cid))) n)
             /\ match attemptError o with
                | None => n = 0 /\ fst run = attemptResult o
                | Some e =>
                    if deniedStatus o
                    then Gateway.getIPFSGatewayUrl env
                         <> Gateway.publicGatewayBase -> 1 <= n
                    else if Js.eqb (Gateway.getIPFSGatewayUrl env)
                                   Gateway.publicGatewayBase
                         then n = 0 /\ fst run = Throws (Gateway.rethrow e)
                         else n = 1
                end).
  { subst run o. rewrite (fetchContentFromIPFS_run Hcid).
    unfold tryBlock, catchClause, primaryOutcome.
    set (u1 := Gateway.gatewayUrl env cid).
    set (u2 := Gateway.publicGatewayUrl cid).
    destruct (net (trace w) (Get u1)) as [r|e];
      cbn [attemptError deniedStatus attemptResult].
    - destruct (ok r); cbn [negb andb].
      + destruct (body_text r) as [body|e].
        * leaf 0.
        * destruct (Js.eqb _ _); cbn [negb];
            [leaf 0|destruct (attemptResult _); leaf 1].
      + destruct (Gateway.fallbackStatus r).
        * destruct (attemptResult _); [leaf 1|].
          destruct (Js.eqb _ _); cbn [negb];
            [leaf 1|destruct (attemptResult _); leaf 2].
        * destruct (Js.eqb _ _); cbn [negb];
            [leaf 0|destruct (attemptResult _); leaf 1].
    - destruct (Js.eqb _ _); cbn [negb];
        [leaf 0|destruct (attemptResult _); leaf 1]. }
  destruct Hgoal as (n & Hrun & Hcase).
  exists n. split; [exact Hrun|]. split; [apply Hn, Hrun|exact Hcase].
Qed.

End GatewayFacts.

Lemma fallback_policy_witness :
  cid1 <> [] /\ fallbackAttempts envCustom netServerError cid1 emptyWorld = 1.
Proof.
  split; [discriminate|].
  destruct (@fallback_policy envCustom netServerError cid1 emptyWorld
                             ltac:(discriminate))
    as (n & _ & Hn & Hcase).
  vm_compute in Hcase. rewrite Hn. exact Hcase.
Defined.

(** C1 as stated fails in three ways: a primary answer of 500 is followed by
    a fallback request; a primary 403 followed by a failing fallback leads to
    a second fallback request; and with the public gateway as the only
    endpoint a 403 is followed by a second request to that same endpoint. *)
Lemma fallback_policy_as_stated_fails :
  ~ fallback_policy_as_stated envCustom netServerError cid1 emptyWorld
  /\ ~ fallback_policy_as_stated envCustom netForbiddenThenMissing cid1
                                 emptyWorld
  /\ ~ fallback_policy_as_stated envPublic netForbiddenThenOk cid1 emptyWorld.
Proof.
  unfold fallback_policy_as_stated. repeat split.
  - intros (_ & H & _).
    assert (E : fallbackAttempts envCustom netServerError cid1 emptyWorld = 1)
      by (vm_compute; reflexivity).
    rewrite E in H. destruct (H (le_n 1)) as [[Hd|Ht] _];
      [vm_compute in Hd|vm_compute in Ht]; discriminate.
  - intros (H & _).
    assert (E : fallbackAttempts envCustom netForbiddenThenMissing cid1
                                 emptyWorld = 2)
      by (vm_compute; reflexivity).
    rewrite E in H. lia.
  - intros (_ & _ & H).
    assert (E : fallbackAttempts envPublic netForbiddenThenOk cid1 emptyWorld
                = 1)
      by (vm_compute; reflexivity).
    rewrite E in H. specialize (H eq_refl). discriminate.
Qed.

(** Outside the 401/403/429 branch the comment of the source holds: when
    both endpoints fail, the error thrown is built from the primary one. *)
Lemma both_fail_keeps_primary_error
      (env : Env) (net : Net) (cid : jsstring) (w : World) (e : thrown) :
  cid <> [] ->
  attemptError (primaryOutcome env net cid w) = Some e ->
  deniedStatus (primaryOutcome env net cid w) = false ->
  Gateway.getIPFSGatewayUrl env <> Gateway.publicGatewayBase ->
  attemptError
    (net (trace w ++ [Fetch (Get (Gateway.gatewayUrl env cid))])
         (Get (Gateway.publicGatewayUrl cid))) <> None ->
  fst (Gateway.fetchContentFromIPFS env net cid w)
  = Throws (Gateway.rethrow e).
Proof.
  intros Hcid He Hd Hbase H2.
  rewrite (@fetchContentFromIPFS_run env net cid w Hcid).
  apply eqb_false_iff in Hbase.
  unfold tryBlock, catchClause, primaryOutcome in *. rewrite Hbase.
  cbn [negb].
  destruct (net (trace w) (Get (Gateway.gatewayUrl env cid))) as [r|e1];
    cbn [attemptError deniedStatus] in He, Hd.
  - destruct (ok r); cbn [negb andb] in *.
    + destruct (body_text r); [discriminate|]. injection He as <-.
      destruct (net _ _) as [r2|e2]; cbn [attemptResult attemptError] in *;
        [|reflexivity].
      destruct (ok r2); [|reflexivity].
      destruct (body_text r2); [congruence|reflexivity].
    + rewrite Hd. injection He as <-.
      destruct (net _ _) as [r2|e2]; cbn [attemptResult attemptError] in *;
        [|reflexivity].
      destruct (ok r2); [|reflexivity].
      destruct (body_text r2); [congruence|reflexivity].
  - injection He as <-.
    destruct (net _ _) as [r2|e2]; cbn [attemptResult attemptError] in *;
      [|reflexivity].
    destruct (ok r2); [|reflexivity].
    destruct (body_text r2); [congruence|reflexivity].
Qed.

(** C2, at the failing input: the dedicated gateway answers 403 Forbidden
    and the public gateway 404 Not Found.  The call throws an error built
    from the fallback's 404; the primary's [403 Forbidden] is nowhere in
    it. *)
Theorem both_fail_after_403_reports_fallback_error :
  attemptError (primaryOutcome envCustom netForbiddenThenMissing cid1
                               emptyWorld)
  = Some (ErrorObj (lit "Failed to fetch content from IPFS: 403 Forbidden"))
  /\ fst (Gateway.fetchContentFromIPFS envCustom netForbiddenThenMissing cid1
                                       emptyWorld)
     = Throws (ErrorObj (lit "Failed to fetch content from IPFS: Failed to fetch content from IPFS: 404 Not Found"))
  /\ includes (lit "Failed to fetch content from IPFS: Failed to fetch content from IPFS: 404 Not Found")
              (lit "403") = false.
Proof. repeat split; vm_compute; reflexivity. Qed.

(** ** Provider response validation *)

Lemma floats_spec (items : list json) (v : list Q) :
  Embeddings.floats items = Some v <-> items = map JNum v.
Proof.
  revert v. induction items as [|j items IH]; intros v; cbn.
  - split; [intros [= <-]; reflexivity|].
    destruct v; [reflexivity|discriminate].
  - destruct j; try (split; [discriminate|destruct v; discriminate]).
    destruct (Embeddings.floats items) as [v'|]; cbn.
    + split.
      * intros [= <-]. cbn. f_equal. now apply IH.
      * destruct v as [|q' v'']; [discriminate|]. cbn. intros [= -> H].
        f_equal. f_equal. apply IH in H. congruence.
    + split; [discriminate|].
      destruct v as [|q' v'']; [discriminate|]. cbn. intros [= -> H].
      apply IH in H. discriminate.
Qed.

Lemma generateEmbedding_store (env : Env) (net : Net) (text : jsstring)
      (w : World) :
  posts (snd (Embeddings.generateEmbedding env net text w)) = posts w
  /\ pages (snd (Embeddings.generateEmbedding env net text w)) = pages w.
Proof.
  unfold Embeddings.generateEmbedding.
  destruct (HUGGINGFACE_API_KEY env) as [[|c key]|]; try (split; reflexivity).
  unfold bind, fetch, await, throw, Embeddings.v_array_float64, ret.
  destruct (net _ _) as [r|e]; [|split; reflexivity].
  destruct (ok r); cbn [negb].
  - destruct (body_json r) as [[| | | |[|j items]|]|]; try (split; reflexivity).
    destruct (Embeddings.floats _); split; reflexivity.
  - destruct (body_text r); split; reflexivity.
Qed.

(** C7 (amended): [generateEmbedding] accepts a provider response exactly
    when the request is answered with a success status and the JSON body is
    a non-empty array all of whose entries are numbers; the length of the
    array is not compared with any dimensionality.  In every other case it
    throws; in every case it leaves the document store as it was.
    [semanticSearch], for its part, returns the empty list, not a failure,
    when its shape tests find no array in the body or find an empty one. *)
Theorem provider_response_validation
        (env : Env) (net : Net) (text : jsstring) (w : World)
        (vectorSearch : Embeddings.kind -> list json -> list (jsstring * Q))
        (fetchByIds : Embeddings.kind -> list jsstring -> list doc)
        (apiKey : jsstring) :
  HUGGINGFACE_API_KEY env = Some apiKey ->
  apiKey <> [] ->
  (forall v,
      fst (Embeddings.generateEmbedding env net text w) = Returns v
      <-> exists r,
          net (trace w) (embeddingRequest apiKey text) = Returns r
          /\ ok r = true
          /\ body_json r = Returns (JArr (map JNum v))
          /\ v <> [])
  /\ ((forall v, fst (Embeddings.generateEmbedding env net text w)
                 <> Returns v) ->
      exists e, fst (Embeddings.generateEmbedding env net text w) = Throws e)
  /\ posts (snd (Embeddings.generateEmbedding env net text w)) = posts w
  /\ pages (snd (Embeddings.generateEmbedding env net text w)) = pages w
  /\ (forall r data,
         truthy (trim text) = true ->
         net (trace w ++ [ConsoleLog (lit "Generating embedding for query");
                          ConsoleLog (lit "Using endpoint")])
             (Post Embeddings.HUGGINGFACE_API_URL (lit "Bearer " ++ apiKey)
                   text) = Returns r ->
         ok r = true ->
         body_json r = Returns data ->
         Semantic.extractEmbedding data = Returns None
         \/ Semantic.extractEmbedding data = Returns (Some []) ->
         fst (Semantic.semanticSearch env net vectorSearch fetchByIds text w)
         = Returns []).
Proof.
  intros Hkey Hne.
  assert (Hk : exists c key, apiKey = c :: key)
    by (destruct apiKey as [|c key]; [congruence|eauto]).
  destruct Hk as (c & key & ->).
  split; [|split; [|split; [|split]]];
    try apply generateEmbedding_store.
  - intros v. unfold Embeddings.generateEmbedding, embeddingRequest.
    rewrite Hkey. unfold bind, fetch, await, throw.
    destruct (net _ _) as [r|e]; cbn [fst].
    + destruct (ok r) eqn:Eok; cbn [negb].
      * destruct (body_json r) as [data|e] eqn:Ej.
        -- destruct data as [| | | |[|j items]|];
             try (split; [discriminate|intros (r' & [= <-] & _ & Hj & Hv);
                                       rewrite Ej in Hj;
                                       destruct v; [congruence|discriminate]]).
           unfold Embeddings.v_array_float64.
           destruct (Embeddings.floats (j :: items)) as [v'|] eqn:Ef.
           ++ cbn [ret fst]. split.
              ** intros [= <-]. apply floats_spec in Ef.
                 exists r. repeat split; try congruence.
                 intros ->. discriminate.
              ** intros (r' & [= <-] & _ & Hj & _). rewrite Ej in Hj.
                 assert (Hfl : Embeddings.floats (j :: items) = Some v)
                   by (apply floats_spec; congruence).
                 congruence.
           ++ cbn [throw fst]. split; [discriminate|].
              intros (r' & [= <-] & _ & Hj & _). rewrite Ej in Hj.
              assert (Hfl : Embeddings.floats (j :: items) = Some v)
                by (apply floats_spec; congruence).
              congruence.
        -- split; [discriminate|].
           intros (r' & [= <-] & _ & Hj & _). congruence.
      * destruct (body_text r); cbn [fst];
          (split; [discriminate|intros (r' & [= <-] & Hok & _); congruence]).
    + split; [discriminate|intros (r' & H & _); discriminate].
  - intros Hnone.
    destruct (fst (Embeddings.generateEmbedding env net text w)) as [v|e];
      [exfalso; now apply (Hnone v)|eauto].
  - intros r data Hq Hnet Hok Hj Hext.
    unfold Semantic.semanticSearch. rewrite Hq, Hkey. cbn [negb].
    unfold bind, emit, fetch, await, ret. cbn [trace posts pages].
    rewrite <- app_assoc. cbn [app]. rewrite Hnet, Hok, Hj. cbn [negb].
    destruct Hext as [-> | ->]; reflexivity.
Qed.

Lemma provider_response_validation_witness :
  HUGGINGFACE_API_KEY envCustom = Some (lit "hf_key")
  /\ lit "hf_key" <> []
  /\ posts (snd (Embeddings.generateEmbedding envCustom netShortVector
                                              (lit "Intro to Caching")
                                              emptyWorld)) = [].
Proof.
  split; [reflexivity|]. split; [discriminate|].
  apply (@provider_response_validation
           envCustom netShortVector (lit "Intro to Caching") emptyWorld
           (fun _ _ => []) (fun _ _ => []) (lit "hf_key") eq_refl
           ltac:(discriminate)).
Defined.

(** C7 as stated fails: a two-entry vector is accepted by
    [generateEmbedding] although the model named in the source,
    all-MiniLM-L6-v2, produces 384 entries; and [semanticSearch] answers a
    body of another shape with the empty list, not with a failure. *)
Lemma response_validation_as_stated_fails :
  ~ response_validation_as_stated 384 envCustom netShortVector
      (lit "Intro to Caching") emptyWorld
  /\ fst (Semantic.semanticSearch envCustom netErrorObject
            (fun _ _ => []) (fun _ _ => []) (lit "caching") emptyWorld)
     = Returns [].
Proof.
  split; [|vm_compute; reflexivity].
  intros H.
  destruct (H [half; quarter]) as [_ Hlen]; [vm_compute; reflexivity|].
  discriminate Hlen.
Qed.

(** ** Keyword search *)

Lemma slice_0 {A} (s : list A) (n : Z) :
  (0 <= n)%Z -> slice s 0 n = firstn (Z.to_nat n) s.
Proof.
  intros Hn. unfold slice, clampIndex.
  destruct (0 <? 0)%Z eqn:E0; [discriminate|].
  destruct (n <? 0)%Z eqn:En; [apply Z.ltb_lt in En; lia|].
  replace (Z.min 0 (Z.of_nat (length s))) with 0%Z by lia.
  cbn [Z.to_nat skipn]. rewrite Z.sub_0_r.
  destruct (Z_le_gt_dec n (Z.of_nat (length s))).
  - now rewrite Z.min_l by lia.
  - rewrite Z.min_r by lia. rewrite Nat2Z.id.
    rewrite !firstn_all2; [reflexivity|lia|lia].
Qed.

Lemma In_firstn {A} (n : nat) (l : list A) (x : A) :
  In x (firstn n l) -> In x l.
Proof.
  intros H. rewrite <- (firstn_skipn n l). apply in_or_app. now left.
Qed.

Section SortByTitle.

Variable q : jsstring.

Let inT := Search.inTitle q.

Lemma insert_in_title (x : Search.searchResult) (l : list Search.searchResult) :
  inT x = true -> Search.insert (Search.byTitle q) x l = x :: l.
Proof.
  intros Hx. destruct l as [|y l]; [reflexivity|].
  cbn [Search.insert]. unfold Search.byTitle. fold inT. rewrite Hx.
  destruct (inT y); reflexivity.
Qed.

Lemma insert_not_in_title (x : Search.searchResult)
      (ins outs : list Search.searchResult) :
  inT x = false ->
  Forall (fun y => inT y = true) ins ->
  Forall (fun y => inT y = false) outs ->
  Search.insert (Search.byTitle q) x (ins ++ outs) = ins ++ x :: outs.
Proof.
  intros Hx Hins Houts. induction Hins as [|y ins Hy _ IH]; cbn [app].
  - destruct outs as [|y outs]; [reflexivity|].
    cbn [Search.insert]. unfold Search.byTitle. fold inT.
    inversion Houts as [|? ? Hy _]; subst. rewrite Hx, Hy. reflexivity.
  - cbn [Search.insert]. unfold Search.byTitle at 1. fold inT.
    rewrite Hx, Hy. cbn. now rewrite IH.
Qed.

(** Sorting with the comparator of the source is the stable partition. *)
Lemma sort_byTitle (l : list Search.searchResult) :
  Search.sort (Search.byTitle q) l = titleFirst q l.
Proof.
  unfold Search.sort, titleFirst. fold inT.
  induction l as [|x l IH]; [reflexivity|].
  cbn [fold_right filter]. rewrite IH.
  destruct (inT x) eqn:Hx; cbn [negb].
  - now rewrite insert_in_title.
  - rewrite insert_not_in_title; auto.
    + apply Forall_forall. intros y Hy. now apply filter_In in Hy.
    + apply Forall_forall. intros y Hy. apply filter_In in Hy.
      now apply negb_true_iff.
Qed.



End SortByTitle.

Lemma fold_left_invariant {A S} (f : S -> A -> S) (P : S -> Prop)
      (l : list A) (s : S) :
  (forall s x, In x l -> P s -> P (f s x)) -> P s -> P (fold_left f l s).
Proof.
  revert s. induction l as [|x l IH]; intros s Hstep Hs; [exact Hs|].
  cbn [fold_left]. apply IH.
  - intros s' y Hy. apply Hstep. now right.
  - apply Hstep; [now left|exact Hs].
Qed.

(** A loop whose body always completes and keeps [P] completes and
    keeps [P]. *)
Lemma forEach_invariant {A S} (body : S -> A -> M S) (P : S -> Prop)
      (xs : list A) (acc : S) (w : World) :
  (forall acc x w, In x xs -> P acc ->
                   exists acc' w', body acc x w = (Returns acc', w') /\ P acc') ->
  P acc ->
  exists r w', forEach xs acc body w = (Returns r, w') /\ P r.
Proof.
  revert acc w. induction xs as [|x xs IH]; intros acc w Hbody Hacc.
  - exists acc, w. split; [reflexivity|exact Hacc].
  - cbn [forEach]. unfold bind.
    destruct (Hbody acc x w (or_introl eq_refl) Hacc) as (acc' & w' & -> & Hacc').
    apply IH; [|exact Hacc'].
    intros a y w0 Hy. apply Hbody. now right.
Qed.

Section KeywordSearch.

Variable env : Env.
Variable net : Net.
Variable searchIndex : Embeddings.kind -> jsstring -> list doc.
Variable getAll : Embeddings.kind -> list doc.
Variable getBySlug : Embeddings.kind -> jsstring -> option doc.
Variable query : jsstring.










End KeywordSearch.


(** ** Embedding backfill *)

Lemma fetchContentFromIPFS_world (env : Env) (net : Net) (cid : jsstring)
      (w : World) :
  exists evs, snd (Gateway.fetchContentFromIPFS env net cid w) = grown w evs.
Proof.
  destruct cid as [|c cid'].
  - exists []. unfold grown. rewrite app_nil_r. destruct w; reflexivity.
  - rewrite (@fetchContentFromIPFS_run env net (c :: cid') w)
      by discriminate.
    destruct (tryBlock env net (c :: cid') w) as [[body|error] evs];
      eexists; reflexivity.
Qed.

Lemma generateEmbedding_world (env : Env) (net : Net) (text : jsstring)
      (w : World) :
  exists evs, snd (Embeddings.generateEmbedding env net text w) = grown w evs.
Proof.
  assert (H0 : w = grown w [])
    by (unfold grown; rewrite app_nil_r; destruct w; reflexivity).
  unfold Embeddings.generateEmbedding.
  destruct (HUGGINGFACE_API_KEY env) as [[|c key]|];
    try (exists []; exact H0).
  unfold bind, fetch, await, throw, Embeddings.v_array_float64, ret.
  destruct (net _ _) as [r|e]; [|eexists; reflexivity].
  destruct (ok r); cbn [negb].
  - destruct (body_json r) as [[| | | |[|j items]|]|];
      try (eexists; reflexivity).
    destruct (Embeddings.floats _); eexists; reflexivity.
  - destruct (body_text r); eexists; reflexivity.
Qed.

Lemma table_grown (k : Embeddings.kind) (w : World) (evs : list event) :
  Embeddings.table k (grown w evs) = Embeddings.table k w.
Proof. destruct k; reflexivity. Qed.

Lemma table_set_table (k : Embeddings.kind) (t : list doc) (w : World) :
  Embeddings.table k (Embeddings.set_table k t w) = t.
Proof. destruct k; reflexivity. Qed.

Lemma trace_set_table (k : Embeddings.kind) (t : list doc) (w : World) :
  trace (Embeddings.set_table k t w) = trace w.
Proof. destruct k; reflexivity. Qed.

(** One pass of the backfill loop always completes.  Either the embedding
    was saved on the document, or nothing was saved and the failure is the
    last thing logged. *)
Lemma embedOne_cases (env : Env) (net : Net) (k : Embeddings.kind)
      (processed : nat) (post : Embeddings.pending) (w : World) :
  exists processed' w' evs,
    Embeddings.embedOne env net k processed post w = (Returns processed', w')
    /\ trace w' = trace w ++ evs
    /\ ((processed' = S processed
         /\ existsb (fun d => Js.eqb (_id d) (Embeddings.p_id post))
                    (Embeddings.table k w) = true
         /\ exists v, Embeddings.table k w'
                      = Embeddings.patch (Embeddings.p_id post) v
                                         (Embeddings.table k w))
        \/ (processed' = processed
            /\ Embeddings.table k w' = Embeddings.table k w
            /\ failureLogged k (Embeddings.p_id post) evs)).
Proof.
  unfold Embeddings.embedOne.
  set (handler :=
         fun error : thrown =>
           bind (emit (ConsoleError
                         (Embeddings.embedFailedMsg k (Embeddings.p_id post))
                         (Some error)))
                (fun _ => ret processed)).
  assert (Hfail : forall (error : thrown) (evs : list event),
             exists processed' w' evs',
               handler error (grown w evs) = (Returns processed', w')
               /\ trace w' = trace w ++ evs'
               /\ (processed' = processed
                   /\ Embeddings.table k w' = Embeddings.table k w
                   /\ failureLogged k (Embeddings.p_id post) evs')).
  { intros error evs. subst handler. unfold bind, emit, ret.
    eexists; eexists; eexists. split; [reflexivity|].
    cbn [trace grown]. rewrite <- app_assoc. split; [reflexivity|].
    split; [reflexivity|]. split; [destruct k; reflexivity|].
    exists error. apply in_or_app. right. now left. }
  unfold try_catch at 1. unfold bind at 1. unfold try_catch at 1.
  destruct (fetchContentFromIPFS_world env net (Embeddings.p_contentCid post) w)
    as (evs1 & Hw1).
  destruct (Gateway.fetchContentFromIPFS env net (Embeddings.p_contentCid post) w)
    as [[content|e1] w1]; cbn [snd] in Hw1; subst w1.
  - (* the content was fetched *)
    set (textToEmbed := if truthy content then _ else _).
    unfold bind at 1.
    destruct (generateEmbedding_world env net textToEmbed (grown w evs1))
      as (evs2 & Hw2).
    destruct (Embeddings.generateEmbedding env net textToEmbed (grown w evs1))
      as [[v|e2] w2]; cbn [snd] in Hw2; subst w2.
    + unfold bind at 1, Embeddings.saveEmbedding.
      rewrite !table_grown.
      destruct (existsb _ (Embeddings.table k w)) eqn:Hex.
      * cbn [ret]. eexists; eexists; eexists. split; [reflexivity|].
        rewrite trace_set_table. cbn [trace grown]. rewrite <- app_assoc.
        split; [reflexivity|]. left. split; [reflexivity|].
        split; [reflexivity|]. exists v. now rewrite table_set_table.
      * unfold grown at 1 2. cbn [trace posts pages].
        rewrite <- app_assoc.
        destruct (Hfail (ErrorObj (lit "Update on nonexistent document ID"))
                        (evs1 ++ evs2))
          as (p' & w' & evs' & H & Ht & Hc).
        exists p', w', evs'. split; [exact H|]. split; [exact Ht|now right].
    + unfold grown at 1 2. cbn [trace posts pages]. rewrite <- app_assoc.
      destruct (Hfail e2 (evs1 ++ evs2)) as (p' & w' & evs' & H & Ht & Hc).
      exists p', w', evs'. split; [exact H|]. split; [exact Ht|now right].
  - (* the fetch failed: title only *)
    unfold bind at 1. unfold emit at 1. unfold bind at 1. cbn [ret truthy].
    cbn [trace posts pages grown].
    set (w1 := {| trace := _; posts := _; pages := _ |}).
    assert (Hw1 : w1 = grown w (evs1 ++ [ConsoleError
                       (Embeddings.fetchFailedMsg k (Embeddings.p_id post))
                       (Some e1)]))
      by (unfold w1, grown; now rewrite app_assoc).
    rewrite Hw1. clear Hw1 w1.
    set (evs1' := evs1 ++ _).
    destruct (generateEmbedding_world env net (Embeddings.p_title post)
                                      (grown w evs1'))
      as (evs2 & Hw2).
    destruct (Embeddings.generateEmbedding env net (Embeddings.p_title post)
                                           (grown w evs1'))
      as [[v|e2] w2]; cbn [snd] in Hw2; subst w2.
    + unfold bind at 1, Embeddings.saveEmbedding.
      rewrite !table_grown.
      destruct (existsb _ (Embeddings.table k w)) eqn:Hex.
      * cbn [ret]. eexists; eexists; eexists. split; [reflexivity|].
        rewrite trace_set_table. cbn [trace grown]. rewrite <- app_assoc.
        split; [reflexivity|]. left. split; [reflexivity|].
        split; [reflexivity|]. exists v. now rewrite table_set_table.
      * unfold grown at 1 2. cbn [trace posts pages].
        rewrite <- app_assoc.
        destruct (Hfail (ErrorObj (lit "Update on nonexistent document ID"))
                        (evs1' ++ evs2))
          as (p' & w' & evs' & H & Ht & Hc).
        exists p', w', evs'. split; [exact H|]. split; [exact Ht|now right].
    + unfold grown at 1 2. cbn [trace posts pages]. rewrite <- app_assoc.
      destruct (Hfail e2 (evs1' ++ evs2)) as (p' & w' & evs' & H & Ht & Hc).
      exists p', w', evs'. split; [exact H|]. split; [exact Ht|now right].
Qed.

Lemma saved_patch (id : jsstring) (v : list Q) (t : list doc) :
  Forall2 saved t (Embeddings.patch id v t).
Proof.
  induction t as [|d t IH]; cbn; constructor; [|exact IH].
  destruct (Js.eqb (_id d) id); [right; now exists v|now left].
Qed.

Lemma saved_refl (t : list doc) : Forall2 saved t t.
Proof. induction t; constructor; [now left|assumption]. Qed.

Lemma saved_trans (t1 t2 t3 : list doc) :
  Forall2 saved t1 t2 -> Forall2 saved t2 t3 -> Forall2 saved t1 t3.
Proof.
  intros H12. revert t3. induction H12 as [|d1 d2 t1 t2 Hd _ IH]; intros t3 H23.
  - inversion H23. constructor.
  - inversion H23 as [|? d3 ? t3' Hd' H23']; subst. constructor; [|now apply IH].
    destruct Hd as [->|[v ->]]; [exact Hd'|].
    destruct Hd' as [->|[v' ->]]; right; [now exists v|now exists v'].
Qed.

Lemma saved_id (d d' : doc) : saved d d' -> _id d' = _id d.
Proof. intros [->|[v ->]]; reflexivity. Qed.

Lemma lacks_patch_other (id id' : jsstring) (v : list Q) (t : list doc) :
  id' <> id -> lacks t id' -> lacks (Embeddings.patch id v t) id'.
Proof.
  intros Hne Hl d' Hd' Hid. unfold Embeddings.patch in Hd'.
  apply in_map_iff in Hd'. destruct Hd' as (d & Hdd & Hd).
  destruct (Js.eqb (_id d) id) eqn:E.
  - apply eqb_true_iff in E. subst d'. cbn in Hid. congruence.
  - subst d'. now apply Hl.
Qed.

Lemma hasEmbedding_patch (id : jsstring) (v : list Q) (t : list doc) :
  existsb (fun d => Js.eqb (_id d) id) t = true ->
  hasEmbedding (Embeddings.patch id v t) id = true.
Proof.
  intros H. apply existsb_exists in H. destruct H as (d & Hd & Hid).
  unfold hasEmbedding. apply existsb_exists.
  exists (Embeddings.setEmbedding v d). split.
  - unfold Embeddings.patch. apply in_map_iff. exists d. now rewrite Hid.
  - cbn. now rewrite Hid.
Qed.

Lemma hasEmbedding_saved (t t' : list doc) (id : jsstring) :
  Forall2 saved t t' -> hasEmbedding t id = true -> hasEmbedding t' id = true.
Proof.
  intros H. induction H as [|d d' t t' Hd _ IH]; [trivial|].
  unfold hasEmbedding in *. cbn [existsb]. intros Hh.
  apply orb_true_iff in Hh. apply orb_true_iff. destruct Hh as [Hh|Hh].
  - left. destruct Hd as [->|[v ->]]; [exact Hh|].
    cbn. apply andb_true_iff in Hh. destruct Hh as [-> _]. reflexivity.
  - right. now apply IH.
Qed.

Lemma lacks_hasEmbedding (t : list doc) (id : jsstring) :
  lacks t id -> hasEmbedding t id = false.
Proof.
  intros Hl. unfold hasEmbedding.
  destruct (existsb _ t) eqn:E; [|reflexivity].
  apply existsb_exists in E. destruct E as (d & Hd & Hc).
  apply andb_true_iff in Hc. destruct Hc as [Hid Hs].
  apply eqb_true_iff in Hid. rewrite (Hl d Hd Hid) in Hs. discriminate.
Qed.

(** The backfill loop over the remaining batch members. *)
Lemma backfill_loop (env : Env) (net : Net) (k : Embeddings.kind)
      (rest : list Embeddings.pending) :
  forall (n : nat) (w1 : World),
    NoDup (map Embeddings.p_id rest) ->
    (forall p, In p rest -> lacks (Embeddings.table k w1) (Embeddings.p_id p)) ->
    exists n' w2 evs,
      forEach rest n (Embeddings.embedOne env net k) w1 = (Returns n', w2)
      /\ trace w2 = trace w1 ++ evs
      /\ Forall2 saved (Embeddings.table k w1) (Embeddings.table k w2)
      /\ (forall id, ~ In id (map Embeddings.p_id rest) ->
                     lacks (Embeddings.table k w1) id ->
                     lacks (Embeddings.table k w2) id)
      /\ n' = n + length (filter (fun p => hasEmbedding (Embeddings.table k w2)
                                                        (Embeddings.p_id p))
                                 rest)
      /\ (forall p, In p rest ->
                    hasEmbedding (Embeddings.table k w2) (Embeddings.p_id p)
                    = true
                    \/ (failureLogged k (Embeddings.p_id p) evs
                        /\ lacks (Embeddings.table k w2) (Embeddings.p_id p))).
Proof.
  induction rest as [|p rest IH]; intros n w1 Hnd Hlacks.
  - exists n, w1, []. cbn. rewrite app_nil_r.
    repeat split; auto using saved_refl; try (now intros p []).
  - cbn [map] in Hnd. inversion Hnd as [|? ? Hnotin Hnd']; subst.
    cbn [forEach]. unfold bind.
    destruct (embedOne_cases env net k n p w1)
      as (n1 & w1' & evs1 & -> & Ht1 & Hcase).
    assert (Hstep : Forall2 saved (Embeddings.table k w1)
                            (Embeddings.table k w1')
                    /\ forall id, id <> Embeddings.p_id p ->
                                  lacks (Embeddings.table k w1) id ->
                                  lacks (Embeddings.table k w1') id).
    { destruct Hcase as [(_ & _ & v & ->)|(_ & -> & _)].
      - split; [apply saved_patch|].
        intros id Hne. now apply lacks_patch_other.
      - split; [apply saved_refl|trivial]. }
    destruct Hstep as [Hsaved1 Hother1].
    destruct (IH n1 w1' Hnd') as (n' & w2 & evs2 & -> & Ht2 & Hs2 & Ho2 & Hn' & Hm2).
    { intros p' Hp'. apply Hother1; [|apply Hlacks; now right].
      intros Heq. apply Hnotin. rewrite <- Heq. now apply in_map. }
    exists n', w2, (evs1 ++ evs2).
    split; [reflexivity|].
    split; [now rewrite Ht2, Ht1, app_assoc|].
    split; [eapply saved_trans; eassumption|].
    split.
    { intros id Hid Hl. apply Ho2.
      - intros Hin. apply Hid. now right.
      - apply Hother1; [|exact Hl]. intros ->. apply Hid. now left. }
    assert (Hp : (n1 = S n
                  /\ hasEmbedding (Embeddings.table k w2) (Embeddings.p_id p)
                     = true)
                 \/ (n1 = n
                     /\ failureLogged k (Embeddings.p_id p) evs1
                     /\ lacks (Embeddings.table k w2) (Embeddings.p_id p))).
    { destruct Hcase as [(-> & Hex & v & Hv)|(-> & Htab & Hlog)].
      - left. split; [reflexivity|].
        apply (hasEmbedding_saved _ Hs2). rewrite Hv.
        now apply hasEmbedding_patch.
      - right. split; [reflexivity|]. split; [exact Hlog|].
        apply Ho2; [exact Hnotin|]. rewrite Htab. apply Hlacks. now left. }
    split.
    { cbn [filter].
      destruct Hp as [(-> & ->)|(-> & _ & Hl)].
      - cbn [length]. lia.
      - rewrite (lacks_hasEmbedding Hl). lia. }
    intros p' [<-|Hp'].
    + destruct Hp as [(_ & Hh)|(_ & (e & He) & Hl)]; [now left|right].
      split; [|exact Hl]. exists e. apply in_or_app. now left.
    + destruct (Hm2 p' Hp') as [Hh|[(e & He) Hl]]; [now left|right].
      split; [|exact Hl]. exists e. apply in_or_app. now right.
Qed.

Lemma filter_filter_and {A} (f g : A -> bool) (l : list A) :
  filter g (filter f l) = filter (fun x => f x && g x) l.
Proof.
  induction l as [|x l IH]; [reflexivity|]. cbn [filter].
  destruct (f x); cbn [filter andb]; [destruct (g x)|]; now rewrite IH.
Qed.

Lemma withoutEmbeddings_firstn (t : list doc) :
  Embeddings.withoutEmbeddings t 10
  = map Embeddings.project (firstn 10 (filter selectable t)).
Proof.
  unfold Embeddings.withoutEmbeddings.
  rewrite slice_0 by lia. now rewrite filter_filter_and.
Qed.

Lemma firstn_incl_S {A} (n : nat) (l : list A) (x : A) :
  In x (firstn n l) -> In x (firstn (S n) l).
Proof.
  revert l. induction n as [|n IH]; intros l H; [destruct H|].
  destruct l as [|y l]; [destruct H|].
  cbn [firstn] in *. destruct H as [H|H]; [now left|right; now apply IH].
Qed.

(** A selected document that still lacks its embedding after some
    embeddings were saved is selected again. *)
Lemma reselected (t t' : list doc) :
  Forall2 saved t t' ->
  forall (n : nat) (x : doc),
    In x (firstn n (filter selectable t)) ->
    lacks t' (_id x) ->
    In x (firstn n (filter selectable t')).
Proof.
  induction 1 as [|d d' t t' Hd _ IH]; intros n x Hx Hl; [exact Hx|].
  assert (Hl' : lacks t' (_id x))
    by (intros y Hy; apply Hl; now right).
  cbn [filter] in *.
  destruct (selectable d) eqn:Hsel.
  - destruct n as [|n]; [destruct Hx|]. cbn [firstn] in Hx.
    destruct Hx as [<-|Hx].
    + assert (Hdd : d' = d).
      { destruct Hd as [->|[v ->]]; [reflexivity|].
        specialize (Hl (Embeddings.setEmbedding v d) (or_introl eq_refl) eq_refl).
        discriminate Hl. }
      subst d'. rewrite Hsel. now left.
    + specialize (IH n x Hx Hl').
      destruct (selectable d'); [now right|now apply firstn_incl_S].
  - assert (Hsel' : selectable d' = false).
    { destruct Hd as [->|[v ->]]; [exact Hsel|].
      unfold selectable, Embeddings.lacksEmbedding. cbn.
      apply andb_false_r. }
    rewrite Hsel'. now apply IH.
Qed.

Lemma NoDup_map_filter {A B} (g : A -> B) (f : A -> bool) (l : list A) :
  NoDup (map g l) -> NoDup (map g (filter f l)).
Proof.
  induction l as [|x l IH]; cbn; intros H; [constructor|].
  inversion H as [|? ? Hx Hl]; subst.
  destruct (f x); cbn; [constructor|]; auto.
  intros Hin. apply Hx. apply in_map_iff in Hin.
  destruct Hin as (y & <- & Hy). apply in_map. now apply filter_In in Hy.
Qed.

Lemma NoDup_map_firstn {A B} (g : A -> B) (n : nat) (l : list A) :
  NoDup (map g l) -> NoDup (map g (firstn n l)).
Proof.
  revert l. induction n as [|n IH]; intros l H; [constructor|].
  destruct l as [|x l]; [constructor|]. cbn in *.
  inversion H as [|? ? Hx Hl]; subst. constructor; [|now apply IH].
  intros Hin. apply Hx. apply in_map_iff in Hin.
  destruct Hin as (y & <- & Hy). apply in_map. now apply In_firstn in Hy.
Qed.

Lemma NoDup_map_unique {A B} (g : A -> B) (l : list A) (x y : A) :
  NoDup (map g l) -> In x l -> In y l -> g x = g y -> x = y.
Proof.
  induction l as [|z l IH]; cbn; intros H Hx Hy Hg; [destruct Hx|].
  inversion H as [|? ? Hz Hl]; subst.
  destruct Hx as [->|Hx], Hy as [->|Hy]; auto.
  - exfalso. apply Hz. rewrite Hg. now apply in_map.
  - exfalso. apply Hz. rewrite <- Hg. now apply in_map.
Qed.

(** C8: a backfill run over a table takes at most 10 documents, all of
    them published, not unlisted and without an embedding; it always
    completes and treats every member of the batch: afterwards each one
    either has its embedding or has its failure logged, a failure of one
    member never keeping a later one from being treated; [processed] counts
    the members that got an embedding; and a member whose attempt failed
    still lacks an embedding and is in the batch of the next run.  The same
    holds for [generatePostEmbeddings] ([KPost]) and
    [generatePageEmbeddings] ([KPage]). *)
Theorem backfill_failure_isolation
        (env : Env) (net : Net) (k : Embeddings.kind) (w : World) :
  NoDup (map _id (Embeddings.table k w)) ->
  let batch := Embeddings.withoutEmbeddings (Embeddings.table k w) 10 in
  exists processed w',
    Embeddings.generateEmbeddings env net k w = (Returns processed, w')
    /\ length batch <= 10
    /\ (forall p, In p batch ->
                  exists d, In d (Embeddings.table k w)
                            /\ Embeddings.project d = p
                            /\ published d = true
                            /\ unlisted d = false
                            /\ embedding d = None)
    /\ processed
       = length (filter (fun p => hasEmbedding (Embeddings.table k w')
                                               (Embeddings.p_id p)) batch)
    /\ forall p,
        In p batch ->
        hasEmbedding (Embeddings.table k w') (Embeddings.p_id p) = true
        \/ (failureLogged k (Embeddings.p_id p) (newEvents w w')
            /\ lacks (Embeddings.table k w') (Embeddings.p_id p)
            /\ In p (Embeddings.withoutEmbeddings (Embeddings.table k w') 10)).
Proof.
  intros Hnd batch.
  set (t := Embeddings.table k w) in *.
  set (sel := firstn 10 (filter selectable t)).
  assert (Hbatch : batch = map Embeddings.project sel)
    by apply withoutEmbeddings_firstn.
  assert (Hids : map Embeddings.p_id batch = map _id sel)
    by (rewrite Hbatch, map_map; reflexivity).
  assert (Hsel_nd : NoDup (map _id sel))
    by now apply NoDup_map_firstn, NoDup_map_filter.
  assert (Hsel_in : forall x, In x sel -> In x t /\ selectable x = true)
    by (intros x Hx; apply In_firstn in Hx; now apply filter_In in Hx).
  destruct (@backfill_loop env net k batch 0 w) as
      (n' & w' & evs & Hrun & Htr & Hsaved & _ & Hn' & Hmem).
  { now rewrite Hids. }
  { intros p Hp d Hd Hid. rewrite Hbatch in Hp. apply in_map_iff in Hp.
    destruct Hp as (x & <- & Hx). destruct (Hsel_in x Hx) as [Hxt Hxs].
    cbn in Hid.
    assert (d = x) by exact (NoDup_map_unique _id t d x Hnd Hd Hxt Hid).
    subst d.
    unfold selectable, Embeddings.lacksEmbedding in Hxs.
    apply andb_true_iff in Hxs. destruct Hxs as [_ Hxs].
    destruct (embedding x); [discriminate|reflexivity]. }
  exists n', w'. split; [exact Hrun|].
  split; [rewrite Hbatch, length_map; apply firstn_le_length|].
  split.
  { intros p Hp. rewrite Hbatch in Hp. apply in_map_iff in Hp.
    destruct Hp as (x & <- & Hx). destruct (Hsel_in x Hx) as [Hxt Hxs].
    exists x. split; [exact Hxt|]. split; [reflexivity|].
    unfold selectable, Embeddings.lacksEmbedding in Hxs.
    apply andb_true_iff in Hxs. destruct Hxs as [Hpub Hxs].
    destruct (embedding x); [discriminate|].
    apply negb_true_iff in Hxs. auto. }
  split; [exact Hn'|].
  intros p Hp. destruct (Hmem p Hp) as [Hh|[Hlog Hl]]; [now left|right].
  assert (Hev : newEvents w w' = evs).
  { unfold newEvents. rewrite Htr, skipn_app, skipn_all, Nat.sub_diag.
    reflexivity. }
  rewrite Hev. split; [exact Hlog|]. split; [exact Hl|].
  rewrite withoutEmbeddings_firstn.
  rewrite Hbatch in Hp. apply in_map_iff in Hp.
  destruct Hp as (x & <- & Hx). apply in_map.
  now apply (reselected Hsaved).
Qed.

Lemma backfill_failure_isolation_witness :
  NoDup (map _id (Embeddings.table Embeddings.KPost worldTwoPosts))
  /\ exists processed w',
      Embeddings.generatePostEmbeddings envPublic netBackfill worldTwoPosts
      = (Returns processed, w')
      /\ processed = 1
      /\ In (Embeddings.project postCaching)
            (Embeddings.withoutEmbeddings (posts w') 10).
Proof.
  assert (Hnd : NoDup (map _id (Embeddings.table Embeddings.KPost
                                                 worldTwoPosts))).
  { cbn. repeat constructor; cbn; intuition discriminate. }
  split; [exact Hnd|].
  destruct (@backfill_failure_isolation envPublic netBackfill Embeddings.KPost
                                        worldTwoPosts Hnd)
    as (processed & w' & Hrun & _ & _ & Hcount & Hmem).
  exists processed, w'. split; [exact Hrun|].
  unfold Embeddings.generatePostEmbeddings in *.
  vm_compute in Hrun. injection Hrun as <- <-.
  split; [reflexivity|]. vm_compute. now left.
Defined.

(** ** The regular expression engine on the patterns of the source *)



Lemma rep_greedy_star (p : ascii -> bool) (caps : list jsstring)
      (pos0 : nat) (s : jsstring) :
  forall pos,
    rep_greedy p 0 None pos s (fun pos' _ => Some (caps, pos' - pos0))
    = Some (caps, pos + run p s - pos0).
Proof.
  induction s as [|c t IH]; intros pos; cbn.
  - now rewrite Nat.add_0_r.
  - destruct (p c); cbn.
    + rewrite IH. do 3 f_equal. lia.
    + now rewrite Nat.add_0_r.
Qed.

Lemma match_at_plus (p : ascii -> bool) (pos : nat) (s : jsstring) :
  match_at [Plus p] pos s
  = match s with
    | c :: t => if p c then Some ([], S (run p t)) else None
    | [] => None
    end.
Proof.
  unfold match_at, Plus. cbn [exec node_exec].
  destruct s as [|c t]; [reflexivity|]. cbn [rep_greedy].
  destruct (p c); cbn [andb can_more Nat.eqb pred dec option_map];
    [|reflexivity].
  rewrite (rep_greedy_star p [] pos t (S pos)). do 2 f_equal. lia.
Qed.

(** [s.replace(/p+/g, x)] replaces every maximal run of [p] by [x]. *)
Lemma replaceAll_plus (p : ascii -> bool) (x : jsstring) (s : jsstring) :
  replaceAll [Plus p] (Regex.const x) s = collapse p x false s.
Proof.
  unfold replaceAll.
  enough (H : forall pos,
             replace_go [Plus p] (Regex.const x) pos 0 s = collapse p x false s
             /\ replace_go [Plus p] (Regex.const x) pos (run p s) s
                = collapse p x true s)
    by apply H.
  induction s as [|c t IH]; intros pos.
  - cbn [replace_go run collapse]. rewrite match_at_plus. auto.
  - assert (H0 : replace_go [Plus p] (Regex.const x) pos 0 (c :: t)
                 = collapse p x false (c :: t)).
    { cbn [replace_go collapse]. rewrite match_at_plus.
      destruct (p c).
      - unfold Regex.const at 1. f_equal. apply IH.
      - f_equal. apply IH. }
    split; [exact H0|].
    cbn [run]. destruct (p c) eqn:Hc.
    + cbn [replace_go collapse]. rewrite Hc. apply IH.
    + rewrite H0. cbn [collapse]. now rewrite Hc.
Qed.

Lemma collapse_Forall (P : ascii -> Prop) (p : ascii -> bool)
      (x s : jsstring) (b : bool) :
  Forall P x -> Forall P s -> Forall P (collapse p x b s).
Proof.
  intros Hx Hs. revert b. induction Hs as [|c t Hc _ IH]; intros b; cbn.
  - constructor.
  - destruct (p c); [destruct b|]; auto.
    + apply Forall_app. auto.
Qed.

(** After the replacement nothing of the class is left, unless the
    replacement text has some. *)
Lemma collapse_clears (p : ascii -> bool) (x s : jsstring) (b : bool) :
  Forall (fun c => p c = false) x ->
  Forall (fun c => p c = false) (collapse p x b s).
Proof.
  intros Hx. revert b. induction s as [|c t IH]; intros b; cbn.
  - constructor.
  - destruct (p c) eqn:Hc; [destruct b|]; auto.
    + apply Forall_app. auto.
Qed.

Lemma collapse_none (p : ascii -> bool) (x s : jsstring) (b : bool) :
  Forall (fun c => p c = false) s -> collapse p x b s = s.
Proof.
  intros Hs. revert b. induction Hs as [|c t Hc _ IH]; intros b; cbn.
  - reflexivity.
  - rewrite Hc. f_equal. apply IH.
Qed.

(** ** [trim] *)




Lemma trimEnd_no_ws (s : jsstring) :
  Forall (fun c => isWs c = false) s -> trimEnd s = s.
Proof.
  induction 1 as [|c t Hc _ IH]; cbn; [reflexivity|].
  rewrite IH, Hc. now destruct t.
Qed.

Lemma trim_no_ws (s : jsstring) :
  Forall (fun c => isWs c = false) s -> trim s = s.
Proof.
  intros H. unfold trim.
  assert (Hs : trimStart s = s).
  { destruct H as [|c t Hc _]; cbn; [reflexivity|now rewrite Hc]. }
  rewrite Hs. now apply trimEnd_no_ws.
Qed.

Lemma trimEnd_idempotent (s : jsstring) : trimEnd (trimEnd s) = trimEnd s.
Proof.
  induction s as [|c t IH]; cbn; [reflexivity|].
  destruct (trimEnd t) as [|d t'] eqn:E.
  - destruct (isWs c) eqn:Hc; cbn; [reflexivity|now rewrite Hc].
  - cbn [trimEnd] in *. now rewrite IH.
Qed.

Lemma trimStart_clean (s : jsstring) :
  match trimStart s with c :: _ => isWs c = false | [] => True end.
Proof.
  induction s as [|c t IH]; cbn; [exact I|].
  destruct (isWs c) eqn:Hc; [exact IH|exact Hc].
Qed.

Lemma trimEnd_head (c : ascii) (t : jsstring) :
  isWs c = false -> exists t', trimEnd (c :: t) = c :: t'.
Proof.
  intros Hc. cbn. rewrite Hc. destruct (trimEnd t); eauto.
Qed.

Lemma trim_idempotent (s : jsstring) : trim (trim s) = trim s.
Proof.
  unfold trim.
  pose proof (trimStart_clean s) as Hh.
  destruct (trimStart s) as [|c t]; [reflexivity|].
  destruct (@trimEnd_head c t Hh) as (t' & E). rewrite E.
  cbn [trimStart]. rewrite Hh. rewrite <- E. apply trimEnd_idempotent.
Qed.

(** ** Anchors *)

Lemma match_at_chr (p : ascii -> bool) (pos : nat) (s : jsstring) :
  match_at [Chr p] pos s
  = match s with
    | c :: _ => if p c then Some ([], 1) else None
    | [] => None
    end.
Proof.
  unfold match_at. cbn [exec node_exec].
  destruct s as [|c t]; [reflexivity|].
  destruct (p c); [|reflexivity]. do 2 f_equal. lia.
Qed.

(** [s.replace(/[p]/g, "")] deletes the code units of the class. *)
Lemma replaceAll_delete (p : ascii -> bool) (s : jsstring) :
  replaceAll [Chr p] (Regex.const []) s = filter (fun c => negb (p c)) s.
Proof.
  unfold replaceAll.
  enough (H : forall pos, replace_go [Chr p] (Regex.const []) pos 0 s
                          = filter (fun c => negb (p c)) s) by apply H.
  induction s as [|c t IH]; intros pos; cbn [replace_go filter];
    rewrite match_at_chr; [reflexivity|].
  destruct (p c); cbn [negb Regex.const app]; now rewrite IH.
Qed.

Lemma dash_not_ws (c : ascii) : dash c = true -> isWs c = false.
Proof.
  unfold dash, isChar. intros H. apply Ascii.eqb_eq in H. now subst c.
Qed.

(** [generateSlug] is [slugOf]: its final [trim] has nothing to trim, since
    no white space is left after the second replacement. *)
Lemma generateSlug_slugOf (text : jsstring) :
  SearchSnippet.generateSlug text = slugOf text.
Proof.
  unfold SearchSnippet.generateSlug, slugOf, SearchSnippet.reNotSlug,
    SearchSnippet.reDashes, reSpaces.
  rewrite replaceAll_delete, !replaceAll_plus.
  rewrite (filter_ext (fun c => negb (negb (SearchSnippet.slugKeep c)))
                      SearchSnippet.slugKeep)
    by (intros c; apply negb_involutive).
  apply trim_no_ws.
  apply collapse_Forall.
  - repeat constructor.
  - apply collapse_clears. repeat constructor.
Qed.

Lemma collectHeadings_ids (lines : list jsstring) :
  forall pos,
    Forall (fun h => SearchSnippet.id h = slugOf (SearchSnippet.text h))
           (SearchSnippet.collectHeadings lines pos).
Proof.
  induction lines as [|line rest IH]; intros pos; cbn; [constructor|].
  destruct (matchFirst SearchSnippet.reHeading line); [|apply IH].
  constructor; [apply generateSlug_slugOf|apply IH].
Qed.





(** ** Heading lines *)

Lemma run_length (p : ascii -> bool) (s : jsstring) : run p s <= length s.
Proof.
  induction s as [|c t IH]; cbn; [lia|]. destruct (p c); lia.
Qed.

Lemma match_at_heading_later (pos : nat) (s : jsstring) :
  match_at SearchSnippet.reHeading (S pos) s = None.
Proof. reflexivity. Qed.

Lemma match_go_heading_later (s : jsstring) :
  forall pos, match_go SearchSnippet.reHeading (S pos) s = None.
Proof.
  induction s as [|c t IH]; intros pos; cbn [match_go];
    rewrite match_at_heading_later; [reflexivity|apply IH].
Qed.

Lemma trimStart_skipn (s : jsstring) :
  trimStart s = skipn (run isWs s) s.
Proof.
  induction s as [|c t IH]; cbn; [reflexivity|].
  destruct (isWs c); [exact IH|reflexivity].
Qed.













(** A line that ends in a carriage return is no heading line: the markdown
    ["# T\r\nfoo bar"] has no heading, and its anchor is null. *)
Example crlf_heading_not_collected :
  headings_as_stated (lit "# T" ++ [CR; LF] ++ lit "foo bar") = []
  /\ SearchSnippet.anchor
       (SearchSnippet.createSnippet (lit "# T" ++ [CR; LF] ++ lit "foo bar")
                                    (lit "foo") 150) = None.
Proof. split; vm_compute; reflexivity. Qed.



(** ** Stripping *)

(** C4, at the failing input: a fenced code block.  The inline-code pattern
    runs before the fenced-block pattern and takes the inner back-ticks of
    both fences, so the fenced-block pattern finds nothing and the content of
    the block is in the snippet; in the same way the link pattern runs before
    the image pattern and an image leaves [!] and its alt text behind. *)
Theorem fenced_block_survives :
  SearchSnippet.snippet (SearchSnippet.createSnippet mdFenced (lit "setup") 150)
  = lit "Setup `` secret ``"
  /\ includes (SemanticSnippet.createSnippet mdFenced 150) (lit "secret")
     = true
  /\ replaceAll reCodeBlocks (Regex.const []) mdFenced = lit "Setup" ++ [LF]
  /\ SemanticSnippet.createSnippet mdImage 150 = lit "See !diagram here".
Proof. repeat split; vm_compute; reflexivity. Qed.

(** ** Stripping plain text *)











Lemma collapse_tidy (s : jsstring) :
  forall b, tidy b (collapse isWs space b s).
Proof.
  induction s as [|c t IH]; intros b; cbn [collapse]; [exact I|].
  destruct (isWs c) eqn:Hc.
  - destruct b; [apply IH|]. cbn [space lit String.list_ascii_of_string app tidy].
    change (isWs " ") with true. cbv iota. auto.
  - cbn [tidy]. rewrite Hc. apply IH.
Qed.



Lemma tidy_trimStart (s : jsstring) :
  forall b, tidy b s -> tidy false (trimStart s).
Proof.
  induction s as [|c t IH]; intros b; cbn [tidy trimStart]; [trivial|].
  destruct (isWs c) eqn:Hc.
  - intros (_ & _ & Ht). now apply (IH true).
  - intros Ht. cbn [tidy]. now rewrite Hc.
Qed.

Lemma tidy_trimEnd (s : jsstring) :
  forall b, tidy b s -> tidy b (trimEnd s).
Proof.
  induction s as [|c t IH]; intros b; cbn [tidy trimEnd]; [trivial|].
  destruct (isWs c) eqn:Hc.
  - intros (-> & -> & Ht). specialize (IH true Ht).
    destruct (trimEnd t); [exact I|].
    cbn [tidy]. change (isWs " ") with true. cbv iota. auto.
  - intros Ht. specialize (IH false Ht).
    destruct (trimEnd t); cbn [tidy]; rewrite Hc; [exact I|exact IH].
Qed.





(* ================================================================== *)
(** * Further properties *)
(* ================================================================== *)

(** ** Feed escaping *)

Lemma match_at_chr_const (p : ascii -> bool) (x : jsstring)
      (s : jsstring) :
  replaceAll [Chr p] (Regex.const x) s
  = flat_map (fun c => if p c then x else [c]) s.
Proof.
  unfold replaceAll.
  enough (H : forall pos, replace_go [Chr p] (Regex.const x) pos 0 s
                          = flat_map (fun c => if p c then x else [c]) s)
    by apply H.
  induction s as [|c t IH]; intros pos; cbn [replace_go flat_map];
    rewrite match_at_chr; [reflexivity|].
  destruct (p c); cbn [Regex.const app]; now rewrite IH.
Qed.

Lemma escapeChar_chain (c : ascii) :
  flat_map (fun c => if isChar "'" c then lit "&apos;" else [c])
    (flat_map (fun c => if isChar Http.quote c then lit "&quot;" else [c])
       (flat_map (fun c => if isChar ">" c then lit "&gt;" else [c])
          (flat_map (fun c => if isChar "<" c then lit "&lt;" else [c])
             (if isChar "&" c then lit "&amp;" else [c]))))
  = escapeChar c.
Proof.
  unfold escapeChar.
  destruct (isChar "&" c) eqn:E1; [reflexivity|].
  cbn [flat_map app].
  destruct (isChar "<" c) eqn:E2; [reflexivity|].
  cbn [flat_map app].
  destruct (isChar ">" c) eqn:E3; [reflexivity|].
  cbn [flat_map app].
  destruct (isChar Http.quote c) eqn:E4; [reflexivity|].
  cbn [flat_map app].
  destruct (isChar "'" c) eqn:E5; reflexivity.
Qed.

(** X1: [escapeXml] replaces each of [&], [<], [>], the double quote and
    the apostrophe by its entity and copies every other code unit; the [&]
    of an entity it has written is not escaped again.  Hence it distributes
    over concatenation and its result holds no [<], [>], double quote or
    apostrophe. *)
Theorem escapeXml_per_character (text more : jsstring) :
  Http.escapeXml text = flat_map escapeChar text
  /\ Http.escapeXml (text ++ more)
     = Http.escapeXml text ++ Http.escapeXml more
  /\ Forall (fun c => isRawSpecial c = false) (Http.escapeXml text).
Proof.
  assert (H : forall s, Http.escapeXml s = flat_map escapeChar s).
  { intros s. unfold Http.escapeXml.
    rewrite !match_at_chr_const.
    induction s as [|c t IH]; [reflexivity|].
    cbn [flat_map]. rewrite !flat_map_app, IH. f_equal.
    apply escapeChar_chain. }
  split; [apply H|]. split.
  - rewrite !H. apply flat_map_app.
  - rewrite H. induction text as [|c t IH]; cbn [flat_map]; [constructor|].
    apply Forall_app. split; [|exact IH].
    unfold escapeChar, isRawSpecial.
    destruct (isChar "&" c) eqn:E1; [repeat constructor|].
    destruct (isChar "<" c) eqn:E2; [repeat constructor|].
    destruct (isChar ">" c) eqn:E3; [repeat constructor|].
    destruct (isChar Http.quote c) eqn:E4; [repeat constructor|].
    destruct (isChar "'" c) eqn:E5; [repeat constructor|].
    constructor; [|constructor]. now rewrite E2, E3, E4, E5.
Qed.

Lemma replace_go_skip (r : regex) (tpl : list jsstring -> jsstring)
      (n : nat) :
  forall (s : jsstring) (pos : nat),
    n <= length s ->
    replace_go r tpl pos n s = replace_go r tpl (pos + n) 0 (skipn n s).
Proof.
  induction n as [|n IH]; intros s pos Hn.
  - now rewrite Nat.add_0_r.
  - destruct s as [|c t]; [cbn in Hn; lia|].
    cbn [replace_go skipn]. rewrite IH by (cbn in Hn; lia).
    f_equal. lia.
Qed.

Lemma startsWith_length (p s : jsstring) :
  startsWith p s = true -> length p <= length s.
Proof.
  revert s. induction p as [|a p IH]; intros s H; cbn; [lia|].
  destruct s as [|b s]; [discriminate|]. cbn in H.
  apply andb_true_iff in H. destruct H as [_ H]. apply IH in H. cbn. lia.
Qed.

Lemma free_of_no_occurrence (needle s : jsstring) :
  free_of needle s -> ~ occurs needle s.
Proof.
  intros Hfree (pre & post & ->). revert Hfree.
  induction pre as [|c pre IH]; cbn [app].
  - intros H. assert (Hs : startsWith needle (needle ++ post) = true).
    { clear. induction needle as [|a n IH]; cbn; [reflexivity|].
      now rewrite Ascii.eqb_refl. }
    destruct (needle ++ post); cbn in H; destruct H as [H _]; congruence.
  - cbn [free_of]. intros [_ H]. now apply IH.
Qed.

Section CdataEnd.

Let tpl := Regex.const (lit "]]&gt;").
Let R (pos : nat) (s : jsstring) := replace_go Http.reCdataEnd tpl pos 0 s.

Lemma match_at_cdataEnd (pos : nat) (s : jsstring) :
  match_at Http.reCdataEnd pos s
  = if startsWith (lit "]]>") s then Some ([], 3) else None.
Proof.
  unfold match_at, Http.reCdataEnd, isChar. cbn [exec node_exec].
  cbn [lit String.list_ascii_of_string].
  destruct s as [|a s]; [reflexivity|]. cbn [startsWith].
  rewrite (Ascii.eqb_sym "]" a).
  destruct (Ascii.eqb a "]"); cbn [andb]; [|reflexivity].
  destruct s as [|b s]; [reflexivity|]. cbn [startsWith].
  rewrite (Ascii.eqb_sym "]" b).
  destruct (Ascii.eqb b "]"); cbn [andb]; [|reflexivity].
  destruct s as [|c s]; [reflexivity|]. cbn [startsWith].
  rewrite (Ascii.eqb_sym ">" c).
  destruct (Ascii.eqb c ">"); cbn [andb]; [|reflexivity].
  do 2 f_equal. lia.
Qed.

Lemma R_step (pos : nat) (s : jsstring) :
  R pos s
  = if startsWith (lit "]]>") s
    then lit "]]&gt;" ++ R (pos + 3) (skipn 3 s)
    else match s with
         | [] => []
         | c :: t => c :: R (S pos) t
         end.
Proof.
  unfold R. destruct s as [|c t].
  - cbn. reflexivity.
  - cbn [replace_go]. rewrite match_at_cdataEnd.
    destruct (startsWith (lit "]]>") (c :: t)) eqn:E; [|reflexivity].
    apply startsWith_length in E. cbn in E.
    unfold tpl at 1, Regex.const. f_equal.
    rewrite replace_go_skip by lia.
    f_equal. lia.
Qed.

Lemma R_head1 (pos : nat) (s : jsstring) :
  startsWith (lit ">") (R pos s) = true -> startsWith (lit ">") s = true.
Proof.
  rewrite R_step.
  destruct (startsWith (lit "]]>") s) eqn:E; [discriminate|].
  destruct s as [|c t]; [discriminate|]. cbn. trivial.
Qed.

Lemma R_head2 (pos : nat) (s : jsstring) :
  startsWith (lit "]>") (R pos s) = true -> startsWith (lit "]>") s = true.
Proof.
  rewrite R_step.
  destruct (startsWith (lit "]]>") s) eqn:E; [discriminate|].
  destruct s as [|c t]; [discriminate|].
  cbn [startsWith lit String.list_ascii_of_string].
  intros H. apply andb_true_iff in H. destruct H as [Hc Ht].
  rewrite Hc. apply (R_head1 (S pos)) in Ht. exact Ht.
Qed.

Lemma R_head3 (pos : nat) (s : jsstring) :
  startsWith (lit "]]>") (R pos s) = false.
Proof.
  rewrite R_step.
  destruct (startsWith (lit "]]>") s) eqn:E; [reflexivity|].
  destruct s as [|c t]; [reflexivity|].
  destruct (startsWith (lit "]]>") (c :: R (S pos) t)) eqn:E'; [|reflexivity].
  cbn [startsWith lit String.list_ascii_of_string] in E, E'.
  apply andb_true_iff in E'. destruct E' as [Hc Ht].
  apply (R_head2 (S pos)) in Ht.
  cbn [startsWith lit String.list_ascii_of_string] in Ht.
  rewrite Hc, Ht in E. discriminate.
Qed.

Lemma R_free (n : nat) :
  forall (s : jsstring) (pos : nat),
    length s <= n -> free_of (lit "]]>") (R pos s).
Proof.
  induction n as [|n IH]; intros s pos Hn.
  - destruct s; [|cbn in Hn; lia]. cbn. auto.
  - pose proof (R_head3 pos s) as Hhead. rewrite R_step in *.
    destruct (startsWith (lit "]]>") s) eqn:E.
    + assert (Hrest : free_of (lit "]]>") (R (pos + 3) (skipn 3 s))).
      { apply IH. rewrite length_skipn.
        apply startsWith_length in E. cbn in E. lia. }
      cbn. repeat split; exact Hrest.
    + destruct s as [|c t]; [cbn; auto|].
      cbn [free_of]. split; [exact Hhead|].
      apply IH. cbn in Hn. lia.
Qed.

(** X2: the content put into a CDATA section of the full feed never
    contains the three code units that end such a section, whatever the
    markdown holds. *)
Theorem escapedContent_keeps_cdata_closed (content : jsstring) :
  ~ occurs (lit "]]>") (Http.escapedContent content).
Proof.
  apply free_of_no_occurrence.
  unfold Http.escapedContent, replaceAll.
  exact (@R_free (length content) content 0 (le_n (length content))).
Qed.

End CdataEnd.

(** ** Content gateway client, further *)

Lemma startsWith_app (p s : jsstring) : startsWith p (p ++ s) = true.
Proof.
  induction p as [|a p IH]; cbn; [reflexivity|].
  now rewrite Ascii.eqb_refl.
Qed.

(** X3: when the primary attempt fails and either the primary endpoint is
    not the public one or the failure is a 401, 403 or 429 answer, and the
    public endpoint then serves the content, the call returns that content
    after exactly two requests. *)
Theorem fallback_rescues
        (env : Env) (net : Net) (cid : jsstring) (w : World)
        (e : thrown) (body : jsstring) :
  cid <> [] ->
  attemptError (primaryOutcome env net cid w) = Some e ->
  Gateway.getIPFSGatewayUrl env <> Gateway.publicGatewayBase
  \/ deniedStatus (primaryOutcome env net cid w) = true ->
  attemptResult
    (net (trace w ++ [Fetch (Get (Gateway.gatewayUrl env cid))])
         (Get (Gateway.publicGatewayUrl cid))) = Returns body ->
  Gateway.fetchContentFromIPFS env net cid w
  = (Returns body,
     grown w [Fetch (Get (Gateway.gatewayUrl env cid));
              Fetch (Get (Gateway.publicGatewayUrl cid))]).
Proof.
  intros Hcid He Hwhy Hpub.
  rewrite (@fetchContentFromIPFS_run env net cid w Hcid).
  unfold tryBlock, catchClause, primaryOutcome in *.
  destruct (net (trace w) (Get (Gateway.gatewayUrl env cid))) as [r|e1];
    cbn [attemptError deniedStatus] in He, Hwhy.
  - destruct (ok r); cbn [negb andb] in *.
    + destruct (body_text r); [discriminate|].
      destruct Hwhy as [Hbase|Hd]; [|discriminate].
      apply eqb_false_iff in Hbase. rewrite Hbase. cbn [negb fst snd].
      cbn [app]. now rewrite Hpub.
    + destruct (Gateway.fallbackStatus r).
      * now rewrite Hpub.
      * destruct Hwhy as [Hbase|Hd]; [|discriminate].
        apply eqb_false_iff in Hbase. rewrite Hbase. cbn [negb fst snd].
        cbn [app]. now rewrite Hpub.
  - destruct Hwhy as [Hbase|Hd]; [|discriminate].
    apply eqb_false_iff in Hbase. rewrite Hbase. cbn [negb fst snd].
    cbn [app]. now rewrite Hpub.
Qed.

Lemma fallback_rescues_witness :
  cid1 <> []
  /\ fst (Gateway.fetchContentFromIPFS envCustom netServerError cid1
                                       emptyWorld)
     = Returns (lit "# Intro").
Proof.
  split; [discriminate|].
  rewrite (@fallback_rescues envCustom netServerError cid1 emptyWorld
             (Gateway.statusError
                {| status := 500; statusText := lit "Internal Server Error";
                   body_text := Returns [];
                   body_json := Throws (ErrorObj (lit "Unexpected token")) |})
             (lit "# Intro")).
  - reflexivity.
  - discriminate.
  - reflexivity.
  - left. discriminate.
  - reflexivity.
Defined.

(** X4: a failure of [fetchContentFromIPFS] is always an [Error]: for an
    empty content address the one that says the address is required, thrown
    before any request, and otherwise one whose message starts with
    [Failed to fetch content from IPFS: ].  This holds with the fallback
    ([embeddings.ts], [semanticSearch.ts]) and without ([search.ts]). *)
Theorem fetch_failure_shape
        (env : Env) (net : Net) (cid : jsstring) (w : World) (err : thrown) :
  (fst (Gateway.fetchContentFromIPFS env net cid w) = Throws err ->
   (cid = []
    /\ err = ErrorObj (lit "CID is required to fetch content from IPFS")
    /\ snd (Gateway.fetchContentFromIPFS env net cid w) = w)
   \/ (cid <> [] /\ exists m, err = ErrorObj (Gateway.failPrefix ++ m)))
  /\ (fst (Search.fetchContentFromIPFS env net cid w) = Throws err ->
      (cid = []
       /\ err = ErrorObj (lit "CID is required to fetch content from IPFS")
       /\ snd (Search.fetchContentFromIPFS env net cid w) = w)
      \/ (cid <> [] /\ exists m, err = ErrorObj (Gateway.failPrefix ++ m))).
Proof.
  assert (Hre : forall e, exists m,
               Gateway.rethrow e = ErrorObj (Gateway.failPrefix ++ m))
    by (intros [m|m]; now exists m).
  split.
  - destruct cid as [|c cid'].
    + cbn. intros [= <-]. left. auto.
    + intros H. right. split; [discriminate|].
      rewrite (@fetchContentFromIPFS_run env net (c :: cid') w) in H
        by discriminate.
      destruct (tryBlock env net (c :: cid') w) as [[b|e0] evs];
        [discriminate|].
      cbn [fst] in H. unfold catchClause in H.
      destruct (negb _); [destruct (attemptResult _)|];
        cbn [fst] in H; try discriminate;
        injection H as <-; apply Hre.
  - destruct cid as [|c cid'].
    + cbn. intros [= <-]. left. auto.
    + intros H. right. split; [discriminate|].
      unfold Search.fetchContentFromIPFS in H. cbn [truthy negb] in H.
      unfold try_catch, bind, fetch, await, throw in H.
      destruct (net _ _) as [r|e0]; cbn [fst] in H.
      * destruct (ok r); cbn [negb] in H.
        -- destruct (body_text r); cbn [fst] in H; [discriminate|].
           injection H as <-. apply Hre.
        -- injection H as <-. eexists. reflexivity.
      * injection H as <-. apply Hre.
Qed.

Lemma fetch_failure_shape_witness :
  fst (Gateway.fetchContentFromIPFS envCustom netForbiddenThenMissing cid1
                                    emptyWorld)
  = Throws (ErrorObj (lit "Failed to fetch content from IPFS: Failed to fetch content from IPFS: 404 Not Found"))
  /\ exists m,
      ErrorObj (lit "Failed to fetch content from IPFS: Failed to fetch content from IPFS: 404 Not Found")
      = ErrorObj (Gateway.failPrefix ++ m).
Proof.
  assert (H : fst (Gateway.fetchContentFromIPFS
                     envCustom netForbiddenThenMissing cid1 emptyWorld)
              = Throws (ErrorObj (lit "Failed to fetch content from IPFS: Failed to fetch content from IPFS: 404 Not Found")))
    by (vm_compute; reflexivity).
  split; [exact H|].
  destruct (proj1 (@fetch_failure_shape envCustom netForbiddenThenMissing
                     cid1 emptyWorld _) H)
    as [(Hc & _)|(_ & Hm)]; [discriminate Hc|exact Hm].
Defined.

(** X5: the gateway base of [embeddings.ts] and [semanticSearch.ts] always
    carries a protocol: a configured value that starts with [http://] or
    [https://] is taken as it is, any other gets [https://] in front, and
    without a value the base is the public gateway.  [search.ts] puts
    [https://] in front of every configured value, so the two agree exactly
    when the value is missing, empty or without protocol. *)
Theorem gateway_base_protocol (env : Env) :
  (startsWith (lit "http://") (Gateway.getIPFSGatewayUrl env)
   || startsWith (lit "https://") (Gateway.getIPFSGatewayUrl env) = true)
  /\ (envTruthy (PINATA_GATEWAY_URL env) = false ->
      Gateway.getIPFSGatewayUrl env = Gateway.publicGatewayBase)
  /\ (Gateway.getIPFSGatewayUrl env
      = Search.getIPFSGatewayUrl env
      <-> match PINATA_GATEWAY_URL env with
          | Some custom =>
              startsWith (lit "http://") custom
              || startsWith (lit "https://") custom = false
          | None => True
          end).
Proof.
  unfold Gateway.getIPFSGatewayUrl, Search.getIPFSGatewayUrl, envTruthy.
  destruct (PINATA_GATEWAY_URL env) as [[|c custom]|]; cbn [truthy].
  - repeat split; auto.
  - destruct (startsWith (lit "http://") (c :: custom)
              || startsWith (lit "https://") (c :: custom)) eqn:E.
    + split; [exact E|]. split; [discriminate|].
      split; [|discriminate].
      intros H. apply (f_equal (@length ascii)) in H.
      rewrite length_app in H. cbn in H. lia.
    + split; [|split; [discriminate|split; reflexivity]].
      apply orb_true_iff. right. apply startsWith_app.
  - repeat split; auto.
Qed.

Lemma gateway_base_protocol_witness :
  Gateway.getIPFSGatewayUrl envPublic = Gateway.publicGatewayBase.
Proof.
  apply (proj1 (proj2 (gateway_base_protocol envPublic))). reflexivity.
Defined.

(** ** Keyword search, further *)

Lemma trimStart_blank (s : jsstring) : trimStart s = [] <-> blank s.
Proof.
  unfold blank. induction s as [|c t IH]; cbn.
  - split; [constructor|reflexivity].
  - destruct (isWs c) eqn:Hc.
    + rewrite IH. split; [now constructor|now inversion 1].
    + split; [discriminate|]. inversion 1. congruence.
Qed.

Lemma trim_blank (s : jsstring) : truthy (trim s) = false <-> blank s.
Proof.
  unfold trim. rewrite <- trimStart_blank.
  pose proof (trimStart_clean s) as Hh.
  destruct (trimStart s) as [|c t].
  - cbn. split; reflexivity.
  - destruct (@trimEnd_head c t Hh) as (t' & ->). cbn.
    split; discriminate.
Qed.

(** X6: a query that is empty or made of white space only gets the empty
    list from [searchTitleOnly], from [search] and from both revisions of
    [semanticSearch], with no request and no log entry; and these are the
    only queries the first line of each handler stops. *)
Theorem blank_query_returns_nothing
        (env : Env) (net : Net)
        (searchIndex : Embeddings.kind -> jsstring -> list doc)
        (getAll : Embeddings.kind -> list doc)
        (getBySlug : Embeddings.kind -> jsstring -> option doc)
        (vectorSearch : Embeddings.kind -> list json -> list (jsstring * Q))
        (fetchByIds : Embeddings.kind -> list jsstring -> list doc)
        (query : jsstring) (w : World) :
  (truthy (trim query) = false <-> blank query)
  /\ (blank query ->
      Search.searchTitleOnly searchIndex query = []
      /\ Search.search env net searchIndex getAll getBySlug query w
         = (Returns [], w)
      /\ Semantic.semanticSearch env net vectorSearch fetchByIds query w
         = (Returns [], w)
      /\ SemanticIpfs.semanticSearch env net vectorSearch fetchByIds query w
         = (Returns [], w)).
Proof.
  split; [apply trim_blank|].
  intros Hb. apply trim_blank in Hb.
  unfold Search.searchTitleOnly, Search.search, Semantic.semanticSearch,
    SemanticIpfs.semanticSearch.
  rewrite Hb. cbn [negb]. auto.
Qed.

Lemma blank_query_returns_nothing_witness :
  blank (lit "   ")
  /\ Search.searchTitleOnly indexFix (lit "   ") = [].
Proof.
  assert (H : blank (lit "   ")) by (repeat constructor).
  split; [exact H|].
  apply (proj2 (@blank_query_returns_nothing
                  envPublic netBodies indexFix getAllFix getBySlugFix
                  (fun _ _ => []) (fun _ _ => []) (lit "   ") emptyWorld) H).
Defined.

Lemma has_In (ids : list jsstring) (id : jsstring) :
  Search.has ids id = true <-> In id ids.
Proof.
  unfold Search.has. rewrite existsb_exists. split.
  - intros (x & Hx & E). apply eqb_true_iff in E. now subst.
  - intros H. exists id. split; [exact H|apply eqb_refl].
Qed.

Lemma has_not_In (ids : list jsstring) (id : jsstring) :
  Search.has ids id = false -> ~ In id ids.
Proof. intros H Hin. apply has_In in Hin. congruence. Qed.

Lemma titleFirst_permutation (q : jsstring) (l : list Search.searchResult) :
  Permutation l (titleFirst q l).
Proof.
  unfold titleFirst. induction l as [|x l IH]; cbn [filter app]; [constructor|].
  destruct (Search.inTitle q x); cbn [negb app].
  - now constructor.
  - now apply Permutation_cons_app.
Qed.

Lemma NoDup_keys_prefix_titleFirst (q : jsstring) (n : nat)
      (l : list Search.searchResult) :
  NoDup (map key l) -> NoDup (map key (firstn n (titleFirst q l))).
Proof.
  intros H. apply NoDup_map_firstn.
  eapply Permutation_NoDup; [|exact H].
  apply Permutation_map, titleFirst_permutation.
Qed.

Lemma NoDup_keys_snoc (rs : list Search.searchResult)
      (r : Search.searchResult) :
  NoDup (map key rs) -> ~ In (key r) (map key rs) ->
  NoDup (map key (rs ++ [r])).
Proof.
  intros Hnd Hnew. rewrite map_app. cbn [map].
  apply NoDup_rev in Hnd. rewrite <- (rev_involutive (map key rs ++ [key r])).
  apply NoDup_rev. rewrite rev_app_distr. cbn [rev app].
  constructor; [|exact Hnd]. now rewrite <- in_rev.
Qed.

Section Dedupe.

Variable env : Env.
Variable net : Net.
Variable searchIndex : Embeddings.kind -> jsstring -> list doc.
Variable getAll : Embeddings.kind -> list doc.
Variable getBySlug : Embeddings.kind -> jsstring -> option doc.
Variable query : jsstring.

(** What the two title loops keep: no two results for one document, and
    every result of the kind of the loop is in its set of seen ids. *)
Lemma titleMatches_keys :
  NoDup (map key (Search.titleMatches searchIndex query)).
Proof.
  unfold Search.titleMatches.
  set (I2 := fun st : list jsstring * list Search.searchResult =>
               NoDup (map key (snd st))
               /\ forall r, In r (snd st) -> Search.r_type r = Search.TPage ->
                            In (Search.r_id r) (fst st)).
  set (I1 := fun st : list jsstring * list Search.searchResult =>
               NoDup (map key (snd st))
               /\ Forall (fun r => Search.r_type r = Search.TPost) (snd st)
               /\ forall r, In r (snd st) -> In (Search.r_id r) (fst st)).
  enough (H2 : I2 (fold_left (Search.titleStep Embeddings.KPage)
                             (firstn 10 (searchIndex Embeddings.KPage query))
                             ([], snd (fold_left
                                         (Search.titleStep Embeddings.KPost)
                                         (firstn 10 (searchIndex
                                                       Embeddings.KPost query))
                                         ([], [])))))
    by apply H2.
  assert (H1 : I1 (fold_left (Search.titleStep Embeddings.KPost)
                             (firstn 10 (searchIndex Embeddings.KPost query))
                             ([], []))).
  { apply fold_left_invariant.
    - intros [seen rs] d _ (Hnd & Hall & Hseen). cbn [Search.titleStep].
      destruct (Search.has seen (_id d)) eqn:Hhas;
        [unfold I1; cbn [fst snd]; auto|].
      apply has_not_In in Hhas.
      destruct (unlisted d); unfold I1; cbn [fst snd].
      + split; [exact Hnd|]. split; [exact Hall|].
        intros r Hr. right. now apply Hseen.
      + split; [|split].
        * apply NoDup_keys_snoc; [exact Hnd|].
          intros Hin. apply in_map_iff in Hin.
          destruct Hin as (r & Hk & Hr). apply Hseen in Hr.
          unfold key in Hk. cbn in Hk. injection Hk as _ Hid.
          rewrite Hid in Hr. contradiction.
        * apply Forall_app. split; [exact Hall|]. now constructor.
        * intros r Hr. apply in_app_or in Hr. destruct Hr as [Hr|[<-|[]]].
          -- right. now apply Hseen.
          -- now left.
    - unfold I1. cbn. repeat split; [constructor|constructor|intros r []]. }
  destruct H1 as (Hnd1 & Hall1 & _).
  apply fold_left_invariant.
  - intros [seen rs] d _ (Hnd & Hseen). cbn [Search.titleStep].
    destruct (Search.has seen (_id d)) eqn:Hhas;
      [unfold I2; cbn [fst snd]; auto|].
    apply has_not_In in Hhas. unfold I2. cbn [fst snd] in *. split.
    + apply NoDup_keys_snoc; [exact Hnd|].
      intros Hin. apply in_map_iff in Hin.
      destruct Hin as (r & Hk & Hr). unfold key in Hk. cbn in Hk.
      injection Hk as Ht Hid.
      apply Hseen in Hr; [|exact Ht]. rewrite Hid in Hr. contradiction.
    + intros r Hr Ht. apply in_app_or in Hr. destruct Hr as [Hr|[<-|[]]].
      * right. now apply Hseen.
      * now left.
  - unfold I2. cbn [fst snd]. split; [exact Hnd1|].
    intros r Hr Ht. rewrite Forall_forall in Hall1.
    rewrite (Hall1 r Hr) in Ht. discriminate.
Qed.

Lemma searchTitleOnly_keys :
  NoDup (map key (Search.searchTitleOnly searchIndex query)).
Proof.
  unfold Search.searchTitleOnly.
  destruct (negb (truthy (trim query))); [constructor|].
  rewrite sort_byTitle, slice_0 by lia.
  apply NoDup_keys_prefix_titleFirst, titleMatches_keys.
Qed.

(** One pass of a content loop: the state stays as it was, or one result is
    pushed for a document whose id was not among the added ids and whose
    content was fetched. *)
Lemma contentStep_cases (k : Embeddings.kind)
      (ids : list jsstring) (rs : list Search.searchResult)
      (d : doc) (w : World) :
  exists st' w',
    Search.contentStep env net getBySlug k query (ids, rs) d w
    = (Returns st', w')
    /\ (st' = (ids, rs)
        \/ exists r full content w1,
            st' = (_id d :: ids, rs ++ [r])
            /\ Search.r_id r = _id d
            /\ Search.r_type r = Search.rtypeOf k
            /\ Search.has ids (_id d) = false
            /\ Search.fetchContentFromIPFS env net (contentCid full) w
               = (Returns content, w1)).
Proof.
  unfold Search.contentStep.
  destruct (Search.has ids (_id d)) eqn:Hhas; cbn [orb];
    [exists (ids, rs), w; auto|].
  set (skip := match k with
               | Embeddings.KPost => unlisted d
               | Embeddings.KPage => false
               end).
  destruct skip; [exists (ids, rs), w; auto|].
  unfold try_catch.
  destruct (getBySlug k (slug d)) as [full|]; [|exists (ids, rs), w; auto].
  destruct (negb (truthy (contentCid full))); [exists (ids, rs), w; auto|].
  unfold bind at 1.
  destruct (Search.fetchContentFromIPFS env net (contentCid full) w)
    as [[content|e] w1] eqn:Hf.
  - set (matchesInContent :=
           includes (toLowerCase content) (toLowerCase query) || _).
    destruct matchesInContent; cbn [ret]; [|exists (ids, rs), w1; auto].
    eexists; exists w1. split; [reflexivity|]. right.
    eexists; exists full, content, w1.
    split; [reflexivity|]. cbn. repeat split; auto.
  - unfold bind, emit, ret. eexists; eexists. split; [reflexivity|]. now left.
Qed.

Lemma contentStep_keys (k : Embeddings.kind)
      (st : list jsstring * list Search.searchResult) (d : doc) (w : World) :
  NoDup (map key (snd st))
  /\ (forall r, In r (snd st) -> In (Search.r_id r) (fst st)) ->
  exists st' w',
    Search.contentStep env net getBySlug k query st d w = (Returns st', w')
    /\ NoDup (map key (snd st'))
    /\ (forall r, In r (snd st') -> In (Search.r_id r) (fst st')).
Proof.
  destruct st as [ids rs]. cbn [fst snd]. intros [Hnd Hids].
  destruct (contentStep_cases k ids rs d w)
    as (st' & w' & H & [->|(r & full & content & w1 & -> & Hid & _ & Hhas & _)]).
  - exists (ids, rs), w'. auto.
  - exists (_id d :: ids, rs ++ [r]), w'. split; [exact H|].
    cbn [fst snd]. apply has_not_In in Hhas. split.
    + apply NoDup_keys_snoc; [exact Hnd|].
      intros Hin. apply in_map_iff in Hin.
      destruct Hin as (r' & Hk & Hr'). apply Hids in Hr'.
      unfold key in Hk. injection Hk as _ Hk.
      rewrite Hk, Hid in Hr'. contradiction.
    + intros r' Hr'. apply in_app_or in Hr'.
      destruct Hr' as [Hr'|[<-|[]]]; [right; auto|left; auto].
Qed.

(** X7: a document contributes at most one result: neither
    [searchTitleOnly] nor [search] returns two results of the same kind
    with the same document id. *)
Theorem search_results_distinct (w : World) :
  NoDup (map key (Search.searchTitleOnly searchIndex query))
  /\ exists results w',
      Search.search env net searchIndex getAll getBySlug query w
      = (Returns results, w')
      /\ NoDup (map key results).
Proof.
  split; [apply searchTitleOnly_keys|].
  unfold Search.search.
  destruct (negb (truthy (trim query)));
    [exists [], w; split; [reflexivity|constructor]|].
  unfold Search.collect, bind at 1. unfold bind at 1.
  set (J := fun st : list jsstring * list Search.searchResult =>
              NoDup (map key (snd st))
              /\ forall r, In r (snd st) -> In (Search.r_id r) (fst st)).
  destruct (forEach_invariant
              (Search.contentStep env net getBySlug Embeddings.KPost query)
              J (getAll Embeddings.KPost)
              (map Search.r_id (Search.searchTitleOnly searchIndex query),
               Search.searchTitleOnly searchIndex query) w)
    as (st1 & w1 & -> & H1).
  { intros acc d w0 _ Hacc. now apply contentStep_keys. }
  { split; [apply searchTitleOnly_keys|].
    intros r Hr. now apply in_map. }
  unfold bind at 1.
  destruct (forEach_invariant
              (Search.contentStep env net getBySlug Embeddings.KPage query)
              J (getAll Embeddings.KPage) st1 w1)
    as (st2 & w2 & -> & H2).
  { intros acc d w0 _ Hacc. now apply contentStep_keys. }
  { exact H1. }
  cbn [ret]. eexists; eexists; split; [reflexivity|].
  rewrite sort_byTitle, slice_0 by lia.
  apply NoDup_keys_prefix_titleFirst, H2.
Qed.

End Dedupe.

Lemma titleFirst_fixed (q : jsstring) (a b : list Search.searchResult) :
  Forall (fun r => Search.inTitle q r = true) a ->
  Forall (fun r => Search.inTitle q r = false) b ->
  titleFirst q (a ++ b) = a ++ b.
Proof.
  intros Ha Hb. unfold titleFirst. rewrite !filter_app.
  assert (E1 : filter (Search.inTitle q) a = a).
  { clear Hb. induction Ha as [|x a Hx _ IH]; cbn; [reflexivity|].
    now rewrite Hx, IH. }
  assert (E2 : filter (Search.inTitle q) b = []).
  { clear Ha E1. induction Hb as [|x b Hx _ IH]; cbn; [reflexivity|].
    now rewrite Hx. }
  assert (E3 : filter (fun r => negb (Search.inTitle q r)) a = []).
  { clear Hb E1 E2. induction Ha as [|x a Hx _ IH]; cbn; [reflexivity|].
    now rewrite Hx. }
  assert (E4 : filter (fun r => negb (Search.inTitle q r)) b = b).
  { clear Ha E1 E2 E3. induction Hb as [|x b Hx _ IH]; cbn; [reflexivity|].
    now rewrite Hx, IH. }
  rewrite E1, E2, E3, E4. now rewrite app_nil_r.
Qed.

Lemma Forall_firstn {A} (P : A -> Prop) (n : nat) (l : list A) :
  Forall P l -> Forall P (firstn n l).
Proof.
  intros H. apply Forall_forall. intros x Hx.
  rewrite Forall_forall in H. apply H. eapply In_firstn, Hx.
Qed.

(** Sorting a prefix of a sorted list again changes nothing. *)
Lemma titleFirst_prefix_fixed (q : jsstring) (n : nat)
      (l : list Search.searchResult) :
  titleFirst q (firstn n (titleFirst q l)) = firstn n (titleFirst q l).
Proof.
  unfold titleFirst at 2 3. rewrite firstn_app.
  apply titleFirst_fixed; apply Forall_firstn, Forall_forall;
    intros x Hx; apply filter_In in Hx; [tauto|].
  now apply negb_true_iff.
Qed.

Section GatewayDown.

Variable env : Env.
Variable net : Net.
Variable searchIndex : Embeddings.kind -> jsstring -> list doc.
Variable getAll : Embeddings.kind -> list doc.
Variable getBySlug : Embeddings.kind -> jsstring -> option doc.
Variable query : jsstring.

Hypothesis down : gatewayDown net.

Lemma search_fetch_down (cid : jsstring) (w : World) :
  exists e w', Search.fetchContentFromIPFS env net cid w = (Throws e, w').
Proof.
  unfold Search.fetchContentFromIPFS.
  destruct (negb (truthy cid)); [eexists; eexists; reflexivity|].
  unfold try_catch, bind, fetch, await, throw.
  set (u := Search.getIPFSGatewayUrl env ++ lit "/ipfs/" ++ cid).
  destruct (down (trace w) u) as (e & He).
  destruct (net (trace w) (Get u)) as [r|e0]; cbn [attemptResult] in He.
  - destruct (ok r); cbn [negb].
    + rewrite He. eexists; eexists; reflexivity.
    + eexists; eexists; reflexivity.
  - eexists; eexists; reflexivity.
Qed.

Lemma contentStep_down (k : Embeddings.kind)
      (st : list jsstring * list Search.searchResult) (d : doc) (w : World) :
  exists w', Search.contentStep env net getBySlug k query st d w
             = (Returns st, w').
Proof.
  destruct st as [ids rs].
  destruct (@contentStep_cases env net getBySlug query k ids rs d w)
    as (st' & w' & H & [->|(r & full & content & w1 & _ & _ & _ & _ & Hf)]).
  - now exists w'.
  - destruct (search_fetch_down (contentCid full) w) as (e & w2 & He).
    congruence.
Qed.

Lemma forEach_down (k : Embeddings.kind) (ds : list doc)
      (st : list jsstring * list Search.searchResult) (w : World) :
  exists w', forEach ds st (Search.contentStep env net getBySlug k query) w
             = (Returns st, w').
Proof.
  destruct (forEach_invariant
              (Search.contentStep env net getBySlug k query)
              (fun st' => st' = st) ds st w) as (r & w' & H & ->).
  - intros acc d w0 _ ->. destruct (contentStep_down k st d w0) as (w' & H).
    now exists st, w'.
  - reflexivity.
  - now exists w'.
Qed.

(** X8: when no content can be fetched, [search] does not fail: it returns
    exactly the title matches, the list [searchTitleOnly] returns. *)
Theorem search_without_gateway (w : World) :
  fst (Search.search env net searchIndex getAll getBySlug query w)
  = Returns (Search.searchTitleOnly searchIndex query).
Proof.
  unfold Search.search.
  destruct (negb (truthy (trim query))) eqn:Hq.
  - unfold Search.searchTitleOnly. now rewrite Hq.
  - unfold Search.collect, bind at 1. unfold bind at 1.
    destruct (forEach_down Embeddings.KPost (getAll Embeddings.KPost)
                (map Search.r_id (Search.searchTitleOnly searchIndex query),
                 Search.searchTitleOnly searchIndex query) w)
      as (w1 & ->).
    unfold bind at 1.
    destruct (forEach_down Embeddings.KPage (getAll Embeddings.KPage)
                (map Search.r_id (Search.searchTitleOnly searchIndex query),
                 Search.searchTitleOnly searchIndex query) w1)
      as (w2 & ->).
    cbn [ret fst snd].
    unfold Search.searchTitleOnly. rewrite Hq.
    rewrite !sort_byTitle, !slice_0 by lia.
    now rewrite titleFirst_prefix_fixed, firstn_firstn, Nat.min_id.
Qed.

End GatewayDown.

Lemma search_without_gateway_witness :
  gatewayDown netDown
  /\ fst (Search.search envCustom netDown indexFix getAllFix getBySlugFix
                        (lit "caching") emptyWorld)
     = Returns (Search.searchTitleOnly indexFix (lit "caching")).
Proof.
  assert (H : gatewayDown netDown).
  { intros history url. exists (ErrorObj (lit "fetch failed")).
    unfold netDown, scripted. now destruct (length _). }
  split; [exact H|].
  exact (@search_without_gateway envCustom netDown indexFix getAllFix
           getBySlugFix (lit "caching") H emptyWorld).
Defined.

(** ** Snippets, further *)

Lemma startsWith_prefix (p s : jsstring) :
  startsWith p s = true <-> exists rest, s = p ++ rest.
Proof.
  revert s. induction p as [|a p IH]; intros s; cbn.
  - split; [eauto|reflexivity].
  - destruct s as [|b s].
    + split; [discriminate|intros (rest & H); discriminate].
    + rewrite andb_true_iff, IH. split.
      * intros (E & rest & ->). apply Ascii.eqb_eq in E. subst. eauto.
      * intros (rest & H). injection H as <- ->.
        split; [apply Ascii.eqb_refl|eauto].
Qed.

Lemma indexOf_from_found (needle s : jsstring) :
  forall pos i,
    indexOf_from needle s pos = Some i ->
    exists pre post,
      s = pre ++ needle ++ post /\ i = pos + length pre.
Proof.
  induction s as [|c t IH]; intros pos i; cbn [indexOf_from].
  - destruct (startsWith needle []) eqn:E; [|discriminate].
    intros [= <-]. apply startsWith_prefix in E. destruct E as (rest & E).
    exists [], rest. split; [exact E|cbn; lia].
  - destruct (startsWith needle (c :: t)) eqn:E.
    + intros [= <-]. apply startsWith_prefix in E. destruct E as (rest & E).
      exists [], rest. split; [exact E|cbn; lia].
    + intros H. apply IH in H. destruct H as (pre & post & -> & ->).
      exists (c :: pre), post. split; [reflexivity|cbn; lia].
Qed.

Lemma includes_occurs (s needle : jsstring) :
  includes s needle = true <-> occurs needle s.
Proof.
  unfold includes, indexOf, occurs. split.
  - destruct (indexOf_from needle s 0) as [i|] eqn:E; [|discriminate].
    intros _. apply indexOf_from_found in E.
    destruct E as (pre & post & -> & _). eauto.
  - intros (pre & post & ->).
    enough (H : forall pos, exists i,
                 indexOf_from needle (pre ++ needle ++ post) pos = Some i)
      by (destruct (H 0) as (i & ->); reflexivity).
    induction pre as [|c pre IH]; intros pos.
    + cbn [app].
      assert (E : startsWith needle (needle ++ post) = true)
        by (apply startsWith_prefix; eauto).
      destruct (needle ++ post); cbn [indexOf_from]; rewrite E; eauto.
    + cbn [app indexOf_from].
      destruct (startsWith needle (c :: pre ++ needle ++ post)); eauto.
Qed.

Lemma slice_window {A} (pre mid post : list A) (b e : Z) :
  (0 <= b <= Z.of_nat (length pre))%Z ->
  (Z.of_nat (length pre + length mid) <= e)%Z ->
  exists pre' post', slice (pre ++ mid ++ post) b e = pre' ++ mid ++ post'.
Proof.
  intros Hb He. unfold slice, clampIndex.
  rewrite !length_app.
  destruct (b <? 0)%Z eqn:Eb; [apply Z.ltb_lt in Eb; lia|].
  destruct (e <? 0)%Z eqn:Ee; [apply Z.ltb_lt in Ee; lia|].
  set (len := Z.of_nat (length pre + (length mid + length post))).
  rewrite (Z.min_l b len) by lia.
  rewrite skipn_app.
  replace (Z.to_nat b - length pre) with 0 by lia. cbn [skipn].
  set (p2 := skipn (Z.to_nat b) pre).
  assert (Hp2 : length p2 = length pre - Z.to_nat b)
    by (unfold p2; apply length_skipn).
  set (n := Z.to_nat (Z.min e len - b)).
  assert (Hn : length p2 + length mid <= n) by lia.
  exists p2, (firstn (n - length p2 - length mid) post).
  rewrite firstn_app, (firstn_all2 (n := n) p2) by lia.
  f_equal. rewrite firstn_app, (firstn_all2 (n := n - length p2) mid) by lia.
  reflexivity.
Qed.

Lemma occurs_nil (s : jsstring) : occurs [] s.
Proof. now exists [], s. Qed.

Lemma occurs_app_l (needle s pre : jsstring) :
  occurs needle s -> occurs needle (pre ++ s).
Proof.
  intros (a & b & ->). exists (pre ++ a), b. now rewrite <- app_assoc.
Qed.

Lemma occurs_app_r (needle s post : jsstring) :
  occurs needle s -> occurs needle (s ++ post).
Proof.
  intros (a & b & ->). exists a, (b ++ post). now rewrite <- !app_assoc.
Qed.

(** A slice lies within every slice that starts no later and ends no
    earlier. *)
Lemma slice_infix (s : jsstring) (a b c d : Z) :
  (0 <= a <= c)%Z -> (c <= d)%Z ->
  (Z.min d (Z.of_nat (length s)) <= b)%Z ->
  occurs (slice s c d) (slice s a b).
Proof.
  intros Ha Hcd Hb.
  set (len := Z.of_nat (length s)) in *.
  assert (Hmid : slice s c d
                 = firstn (Z.to_nat (Z.min d len) - Z.to_nat (Z.min c len))
                          (skipn (Z.to_nat (Z.min c len)) s)).
  { unfold slice, clampIndex. fold len.
    destruct (c <? 0)%Z eqn:Ec; [apply Z.ltb_lt in Ec; lia|].
    destruct (d <? 0)%Z eqn:Ed; [apply Z.ltb_lt in Ed; lia|].
    f_equal. lia. }
  destruct (Z_lt_ge_dec c len) as [Hc|Hc].
  - set (C := Z.to_nat (Z.min c len)) in *.
    set (D := Z.to_nat (Z.min d len)) in *.
    assert (HC : C <= length s) by (unfold C, len in *; lia).
    assert (HD : C <= D <= length s) by (unfold C, D, len in *; lia).
    set (mid := firstn (D - C) (skipn C s)) in *.
    assert (Hs : s = firstn C s ++ mid ++ skipn (D - C) (skipn C s)).
    { unfold mid. now rewrite !firstn_skipn. }
    assert (Hlp : length (firstn C s) = C) by (rewrite length_firstn; lia).
    assert (Hlm : length mid = D - C).
    { unfold mid. rewrite length_firstn, length_skipn. lia. }
    destruct (@slice_window ascii (firstn C s) mid
                (skipn (D - C) (skipn C s)) a b) as (pre' & post' & E).
    + rewrite Hlp. unfold C. lia.
    + rewrite Hlp, Hlm. unfold C, D in *. lia.
    + rewrite <- Hs in E. rewrite Hmid. fold mid. now exists pre', post'.
  - rewrite Hmid. rewrite skipn_all2 by (unfold len in *; lia).
    rewrite firstn_nil. apply occurs_nil.
Qed.

(** X9: when the lower-cased term is found at offset [i] of the lower-cased
    stripped text and the term fits the window behind the third of
    [maxLength] that is left of [i], the snippet holds the code units of the
    stripped text at [i], as many as the term has.  On the strings of this
    development (code units below U+0100, which lower-casing maps one by
    one) these are the term, case ignored: the lower-cased snippet holds the
    lower-cased term. *)
Theorem createSnippet_shows_term
        (content searchTerm : jsstring) (maxLength : Z) (i : nat) :
  (0 <= maxLength)%Z ->
  (Z.of_nat (length searchTerm) <= maxLength - maxLength / 3)%Z ->
  indexOf (toLowerCase (cleanContent content)) (toLowerCase searchTerm)
  = Some i ->
  occurs (slice (cleanContent content) (Z.of_nat i)
                (Z.of_nat i + Z.of_nat (length searchTerm)))
         (SearchSnippet.snippet
            (SearchSnippet.createSnippet content searchTerm maxLength))
  /\ includes (toLowerCase
                 (SearchSnippet.snippet
                    (SearchSnippet.createSnippet content searchTerm
                                                 maxLength)))
              (toLowerCase searchTerm) = true.
Proof.
  intros Hm Hfit E. unfold SearchSnippet.createSnippet.
  rewrite E. cbn [SearchSnippet.snippet].
  set (clean := cleanContent content) in *.
  set (start := Z.max 0 (Z.of_nat i - maxLength / 3)).
  set (end_ := Z.min (Z.of_nat (length clean)) (start + maxLength)).
  assert (Hthird : (0 <= maxLength / 3)%Z) by (apply Z.div_pos; lia).
  split.
  - assert (Hw : occurs (slice clean (Z.of_nat i)
                               (Z.of_nat i + Z.of_nat (length searchTerm)))
                        (slice clean start end_)).
    { apply slice_infix; unfold end_, start; lia. }
    destruct (start >? 0)%Z, (end_ <? Z.of_nat (length clean))%Z;
      auto using occurs_app_l, occurs_app_r.
  - apply indexOf_from_found in E. destruct E as (pre & post & E & Hi).
    cbn [Nat.add] in Hi.
    assert (Hlen : length clean
                   = length pre + (length searchTerm + length post)).
    { apply (f_equal (@length ascii)) in E.
      unfold toLowerCase in E. rewrite !length_app, !length_map in E.
      exact E. }
    assert (Hw : exists pre' post',
               toLowerCase (slice clean start end_)
               = pre' ++ toLowerCase searchTerm ++ post').
    { assert (Hs : toLowerCase (slice clean start end_)
                   = slice (toLowerCase clean) start end_).
      { unfold slice, toLowerCase.
        now rewrite length_map, skipn_map, firstn_map. }
      rewrite Hs, E. apply slice_window.
      - unfold start. lia.
      - unfold end_, start. unfold toLowerCase. rewrite length_map. lia. }
    destruct Hw as (pre' & post' & Hw).
    apply includes_occurs.
    destruct (start >? 0)%Z, (end_ <? Z.of_nat (length clean))%Z;
      unfold toLowerCase in *; rewrite ?map_app, Hw.
    + exists (map lower ellipsis ++ pre'), (post' ++ map lower ellipsis).
      now rewrite <- !app_assoc.
    + exists (map lower ellipsis ++ pre'), post'. now rewrite <- !app_assoc.
    + exists pre', (post' ++ map lower ellipsis). now rewrite <- !app_assoc.
    + exists pre', post'. reflexivity.
Qed.

Lemma createSnippet_shows_term_witness :
  occurs (lit "like")
         (SearchSnippet.snippet
            (SearchSnippet.createSnippet mdCSharp (lit "LIKE") 150))
  /\ includes (toLowerCase
                 (SearchSnippet.snippet
                    (SearchSnippet.createSnippet mdCSharp (lit "LIKE") 150)))
              (toLowerCase (lit "LIKE")) = true.
Proof.
  apply (@createSnippet_shows_term mdCSharp (lit "LIKE") 150 8);
    [lia|vm_compute; discriminate|vm_compute; reflexivity].
Defined.

Lemma tidy_oneLine (s : jsstring) : forall b, tidy b s -> oneLine s.
Proof.
  unfold oneLine.
  induction s as [|c t IH]; intros b; cbn [tidy]; [constructor|].
  destruct (isWs c) eqn:Hc.
  - intros (-> & _ & Ht). constructor; [reflexivity|now apply (IH true)].
  - intros Ht. constructor; [congruence|now apply (IH false)].
Qed.

Lemma cleanContent_tidy (content : jsstring) :
  tidy false (cleanContent content).
Proof.
  unfold cleanContent, reSpaces. rewrite replaceAll_plus.
  unfold trim. apply tidy_trimEnd. eapply tidy_trimStart, collapse_tidy.
Qed.

Lemma slice_Forall {A} (P : A -> Prop) (s : list A) (b e : Z) :
  Forall P s -> Forall P (slice s b e).
Proof.
  intros H. unfold slice. apply Forall_firstn.
  rewrite Forall_forall in *. intros x Hx. apply H.
  rewrite <- (firstn_skipn (Z.to_nat (clampIndex (Z.of_nat (length s)) b)) s).
  apply in_or_app. now right.
Qed.

Lemma ellipsis_oneLine : oneLine ellipsis.
Proof. repeat constructor; discriminate. Qed.

(** X10: the text the snippets are cut from is normalised, whatever the
    markdown: its only white space is the single space, never two in a
    row and none at either end; so no snippet of [search.ts] or
    [semanticSearch.ts] holds a line break or a tab. *)
Theorem snippets_are_one_line
        (content searchTerm : jsstring) (maxLength : Z) :
  tidy false (cleanContent content)
  /\ trim (cleanContent content) = cleanContent content
  /\ oneLine (SearchSnippet.snippet
                (SearchSnippet.createSnippet content searchTerm maxLength))
  /\ oneLine (SemanticSnippet.createSnippet content maxLength).
Proof.
  pose proof (cleanContent_tidy content) as Ht.
  pose proof (tidy_oneLine _ _ Ht) as H1.
  split; [exact Ht|]. split.
  - unfold cleanContent. apply trim_idempotent.
  - split.
    + unfold SearchSnippet.createSnippet.
      destruct (indexOf _ _); cbn [SearchSnippet.snippet].
      * repeat match goal with
               | |- context [if ?b then _ else _] => destruct b
               end;
          unfold oneLine in *;
          repeat (apply Forall_app; split);
          try apply ellipsis_oneLine; now apply slice_Forall.
      * unfold oneLine in *. apply Forall_app. split;
          [now apply slice_Forall|].
        destruct (_ >? _)%Z; [apply ellipsis_oneLine|constructor].
    + unfold SemanticSnippet.createSnippet.
      destruct (_ <=? _)%Z; [exact H1|].
      unfold oneLine in *. apply Forall_app. split;
        [now apply slice_Forall|apply ellipsis_oneLine].
Qed.

(** ** Heading ids, further *)

Lemma collapse_single (p : ascii -> bool) (d : ascii) (s : jsstring) :
  p d = true -> forall b, single p b (collapse p [d] b s).
Proof.
  intros Hd. induction s as [|c t IH]; intros b; cbn [collapse];
    [exact I|].
  destruct (p c) eqn:Hc.
  - destruct b; [apply IH|]. cbn [app single]. rewrite Hd. auto.
  - cbn [single]. rewrite Hc. apply IH.
Qed.

Lemma single_fixed (p : ascii -> bool) (d : ascii) (s : jsstring) :
  (forall c, p c = true -> c = d) ->
  forall b, single p b s -> collapse p [d] b s = s.
Proof.
  intros Hp. induction s as [|c t IH]; intros b; cbn [collapse single];
    [reflexivity|].
  destruct (p c) eqn:Hc.
  - intros (-> & Ht). rewrite (Hp c Hc). cbn. f_equal. now apply IH.
  - intros Ht. f_equal. now apply IH.
Qed.

Lemma single_no_pair (p : ascii -> bool) (d : ascii) (s : jsstring) :
  p d = true -> forall b, single p b s -> ~ occurs [d; d] s.
Proof.
  intros Hd b Hs (pre & post & ->). revert b Hs.
  induction pre as [|c pre IH]; intros b; cbn [app single].
  - rewrite Hd. intros (_ & [H _]). discriminate.
  - destruct (p c); [intros (_ & H)|intros H]; eapply IH, H.
Qed.

Lemma isSlugChar_lower (c : ascii) : isSlugChar c = true -> lower c = c.
Proof.
  unfold isSlugChar, lower, in_range, isChar.
  destruct (Ascii.eqb c "-") eqn:E.
  - apply Ascii.eqb_eq in E. now subst c.
  - rewrite orb_false_r. intros H.
    destruct (65 <=? code c) eqn:E1, (code c <=? 90) eqn:E2,
      (192 <=? code c) eqn:E3, (code c <=? 222) eqn:E4;
      cbn [andb]; try reflexivity;
      apply orb_true_iff in H; rewrite !andb_true_iff, !Nat.leb_le in H;
      rewrite ?Nat.leb_le, ?Nat.leb_gt in *; lia.
Qed.

Lemma isSlugChar_keep (c : ascii) :
  isSlugChar c = true -> SearchSnippet.slugKeep c = true /\ isWs c = false.
Proof.
  unfold isSlugChar, SearchSnippet.slugKeep, isWs, in_range, isChar.
  destruct (Ascii.eqb c "-") eqn:E.
  - apply Ascii.eqb_eq in E. subst c. intros _. split; reflexivity.
  - rewrite !orb_false_r. intros H. rewrite H. split; [reflexivity|].
    apply orb_true_iff in H. rewrite !andb_true_iff, !Nat.leb_le in H.
    rewrite !orb_false_iff, !andb_false_iff, !Nat.leb_gt, !Nat.eqb_neq.
    lia.
Qed.

Lemma slugOf_chars (text : jsstring) :
  Forall (fun c => isSlugChar c = true) (slugOf text).
Proof.
  unfold slugOf.
  assert (Hd : isSlugChar "-" = true) by reflexivity.
  set (kept := filter SearchSnippet.slugKeep (toLowerCase text)).
  assert (Hk : Forall (fun c => SearchSnippet.slugKeep c = true) kept)
    by (apply Forall_forall; intros c Hc; now apply filter_In in Hc).
  assert (H1 : Forall (fun c => isWs c = false /\ SearchSnippet.slugKeep c = true)
                      (collapse isWs (lit "-") false kept)).
  { enough (H : forall b,
               Forall (fun c => isWs c = false
                                /\ SearchSnippet.slugKeep c = true)
                      (collapse isWs (lit "-") b kept)) by apply H.
    induction Hk as [|c t Hc _ IH]; intros b; cbn; [constructor|].
    destruct (isWs c) eqn:Hw; [destruct b|].
    - apply IH.
    - constructor; [split; reflexivity|apply IH].
    - constructor; [split; assumption|apply IH]. }
  apply collapse_Forall; [repeat constructor|].
  eapply Forall_impl; [|exact H1]. cbn. intros c [Hw Hc].
  unfold SearchSnippet.slugKeep in Hc. unfold isSlugChar.
  rewrite Hw, orb_false_r in Hc. exact Hc.
Qed.

(** X11: a heading id is made of [a-z], [0-9] and [-] only, holds no two
    [-] in a row, and is its own id: [generateSlug] is idempotent. *)
Theorem generateSlug_normal_form (text : jsstring) :
  Forall (fun c => isSlugChar c = true) (SearchSnippet.generateSlug text)
  /\ ~ occurs (lit "--") (SearchSnippet.generateSlug text)
  /\ SearchSnippet.generateSlug (SearchSnippet.generateSlug text)
     = SearchSnippet.generateSlug text.
Proof.
  rewrite !generateSlug_slugOf.
  pose proof (slugOf_chars text) as Hc.
  assert (Hs : single dash false (slugOf text))
    by (unfold slugOf; now apply collapse_single).
  split; [exact Hc|]. split.
  - now apply (@single_no_pair dash "-" (slugOf text) eq_refl false).
  - set (s := slugOf text) in *. unfold slugOf.
    assert (E1 : toLowerCase s = s).
    { unfold toLowerCase. clear Hs.
      induction Hc as [|c t Hc _ IH]; cbn; [reflexivity|].
      now rewrite IH, isSlugChar_lower. }
    assert (E2 : filter SearchSnippet.slugKeep s = s).
    { clear Hs E1. induction Hc as [|c t Hc _ IH]; cbn; [reflexivity|].
      now rewrite (proj1 (isSlugChar_keep c Hc)), IH. }
    assert (E3 : collapse isWs (lit "-") false s = s).
    { apply collapse_none. eapply Forall_impl; [|exact Hc].
      intros c H. now apply isSlugChar_keep. }
    rewrite E1, E2, E3.
    apply single_fixed; [|exact Hs].
    intros c H. unfold dash, isChar in H. now apply Ascii.eqb_eq in H.
Qed.

(** ** Queries by id *)

Lemma get_some (t : list doc) (id : jsstring) (d : doc) :
  Queries.get t id = Some d -> In d t /\ _id d = id.
Proof.
  unfold Queries.get. intros H. apply find_some in H.
  destruct H as [Hin E]. now apply eqb_true_iff in E.
Qed.

Lemma fetchByIds_flat_map (k : Embeddings.kind) (t : list doc)
      (ids : list jsstring) :
  Queries.fetchByIds k t ids
  = flat_map (fun id => match Queries.get t id with
                        | Some d => if visible k d then [d] else []
                        | None => []
                        end) ids.
Proof.
  unfold Queries.fetchByIds.
  enough (H : forall acc,
             fold_left (Queries.fetchStep k t) ids acc
             = acc ++ flat_map (fun id => match Queries.get t id with
                                          | Some d =>
                                              if visible k d then [d] else []
                                          | None => []
                                          end) ids)
    by apply H.
  induction ids as [|id ids IH]; intros acc; cbn [fold_left flat_map].
  - now rewrite app_nil_r.
  - rewrite IH. unfold Queries.fetchStep, visible.
    destruct (Queries.get t id) as [d|]; [|reflexivity].
    destruct (published d && _); [|reflexivity].
    now rewrite <- app_assoc.
Qed.

Lemma fetchByIds_In (k : Embeddings.kind) (t : list doc)
      (ids : list jsstring) (d : doc) :
  In d (Queries.fetchByIds k t ids) ->
  In d t /\ In (_id d) ids /\ visible k d = true.
Proof.
  rewrite fetchByIds_flat_map, in_flat_map. intros (id & Hid & Hd).
  destruct (Queries.get t id) as [d'|] eqn:E; [|destruct Hd].
  destruct (visible k d') eqn:Hv; [|destruct Hd].
  destruct Hd as [<-|[]]. apply get_some in E. destruct E as [Hin <-].
  auto.
Qed.

(** X12: [fetchPostsByIds] and [fetchPagesByIds] return documents of the
    table that are published and, for posts, not unlisted; their ids are
    the given ids that denote such a document, in the given order, an id
    given twice being answered twice. *)
Theorem fetchByIds_visible_in_order
        (k : Embeddings.kind) (t : list doc) (ids : list jsstring) :
  Forall (fun d => In d t /\ visible k d = true) (Queries.fetchByIds k t ids)
  /\ map _id (Queries.fetchByIds k t ids)
     = filter (fun id => match Queries.get t id with
                         | Some d => visible k d
                         | None => false
                         end) ids.
Proof.
  split.
  - apply Forall_forall. intros d Hd. apply fetchByIds_In in Hd. tauto.
  - rewrite fetchByIds_flat_map.
    induction ids as [|id ids IH]; cbn [flat_map filter]; [reflexivity|].
    rewrite map_app, IH.
    destruct (Queries.get t id) as [d|] eqn:E; [|reflexivity].
    apply get_some in E. destruct E as [_ <-].
    destruct (visible k d); reflexivity.
Qed.

(** ** Semantic search, the ranking *)

Lemma forEach_returns {A S} (body : S -> A -> M S) (P : S -> Prop)
      (xs : list A) :
  (forall acc x w acc' w',
      In x xs -> P acc -> body acc x w = (Returns acc', w') -> P acc') ->
  forall acc w r w',
    P acc -> forEach xs acc body w = (Returns r, w') -> P r.
Proof.
  induction xs as [|x xs IH]; intros Hbody acc w r w' Hacc; cbn [forEach].
  - unfold ret. intros [= <- _]. exact Hacc.
  - unfold bind. destruct (body acc x w) as [[acc1|e] w1] eqn:E;
      [|discriminate].
    apply IH.
    + intros a y w0 a' w0' Hy. apply Hbody. now right.
    + eapply Hbody; [now left|exact Hacc|exact E].
Qed.

Lemma In_insert {A} (cmp : A -> A -> Z) (x y : A) (l : list A) :
  In y (Search.insert cmp x l) <-> y = x \/ In y l.
Proof.
  induction l as [|z l IH]; cbn.
  - intuition.
  - destruct (cmp x z <=? 0)%Z; cbn; rewrite ?IH; intuition.
Qed.

Lemma In_sort {A} (cmp : A -> A -> Z) (y : A) (l : list A) :
  In y (Search.sort cmp l) <-> In y l.
Proof.
  unfold Search.sort. induction l as [|x l IH]; cbn; [tauto|].
  rewrite In_insert, IH. intuition.
Qed.

Lemma insert_descending (x : Semantic.scoredResult)
      (l : list Semantic.scoredResult) :
  descending l -> descending (Search.insert Semantic.byScore x l).
Proof.
  unfold descending.
  induction 1 as [|y l Hl IH Hy]; cbn; [repeat constructor|].
  unfold Semantic.byScore at 1.
  destruct (QArith_base.Qcompare (Semantic.s_score y) (Semantic.s_score x))
    eqn:E; cbn.
  - apply QArith_base.Qeq_alt in E.
    constructor; [now constructor|]. constructor.
    + rewrite E. apply QArith_base.Qle_refl.
    + eapply Forall_impl; [|exact Hy]. cbn. intros z Hz.
      rewrite <- E. exact Hz.
  - apply QArith_base.Qlt_alt in E.
    constructor; [now constructor|]. constructor.
    + now apply QArith_base.Qlt_le_weak.
    + eapply Forall_impl; [|exact Hy]. cbn. intros z Hz.
      eapply QArith_base.Qle_trans; [exact Hz|].
      now apply QArith_base.Qlt_le_weak.
  - apply QArith_base.Qgt_alt in E.
    constructor; [exact IH|]. apply Forall_forall. intros z Hz.
    apply In_insert in Hz. destruct Hz as [->|Hz].
    + now apply QArith_base.Qlt_le_weak.
    + rewrite Forall_forall in Hy. now apply Hy.
Qed.

Lemma sort_descending (l : list Semantic.scoredResult) :
  descending (Search.sort Semantic.byScore l).
Proof.
  unfold Search.sort. induction l as [|x l IH]; cbn.
  - constructor.
  - now apply insert_descending.
Qed.

Lemma firstn_descending (n : nat) (l : list Semantic.scoredResult) :
  descending l -> descending (firstn n l).
Proof.
  unfold descending. intros H. revert n.
  induction H as [|x l Hl IH Hx]; intros [|n]; cbn; try constructor.
  - apply IH.
  - now apply Forall_firstn.
Qed.

(** What the last two lines of either handler make of [results]. *)
Lemma top15 (P : Semantic.scoredResult -> Prop)
      (results : list Semantic.scoredResult) :
  Forall P results ->
  length (slice (Search.sort Semantic.byScore results) 0 15) <= 15
  /\ descending (slice (Search.sort Semantic.byScore results) 0 15)
  /\ Forall P (slice (Search.sort Semantic.byScore results) 0 15).
Proof.
  intros H. rewrite slice_0 by lia. split; [|split].
  - rewrite length_firstn. change (Z.to_nat 15) with 15. lia.
  - apply firstn_descending, sort_descending.
  - apply Forall_firstn, Forall_forall. intros r Hr.
    apply In_sort in Hr. rewrite Forall_forall in H. now apply H.
Qed.

Lemma find_some_id (docs : list doc) (id : jsstring) (d : doc) :
  Semantic.find docs id = Some d -> In d docs /\ _id d = id.
Proof.
  unfold Semantic.find. intros H. apply find_some in H.
  destruct H as [Hin E]. now apply eqb_true_iff in E.
Qed.

Section Ranking.

Variable env : Env.
Variable net : Net.
Variable vectorSearch : Embeddings.kind -> list json -> list (jsstring * Q).
Variable fetchByIds : Embeddings.kind -> list jsstring -> list doc.
Variable queryEmbedding : list json.

Let hits (k : Embeddings.kind) := vectorSearch k queryEmbedding.
Let docs (k : Embeddings.kind) := fetchByIds k (map fst (hits k)).
Let good := Forall (fromIndex hits docs).

Lemma good_snoc (rs : list Semantic.scoredResult)
      (r : Semantic.scoredResult) :
  good rs -> fromIndex hits docs r -> good (rs ++ [r]).
Proof.
  intros H Hr. apply Forall_app. split; [exact H|]. now constructor.
Qed.

Lemma postStep_good (rs rs' : list Semantic.scoredResult)
      (hit : jsstring * Q) (w w' : World) :
  In hit (hits Embeddings.KPost) -> good rs ->
  Semantic.postStep (docs Embeddings.KPost) rs hit w = (Returns rs', w') ->
  good rs'.
Proof.
  intros Hhit Hrs. unfold Semantic.postStep.
  destruct (Semantic.find _ _) as [post|] eqn:E;
    [|unfold ret; intros [= <- _]; exact Hrs].
  apply find_some_id in E. destruct E as [Hin Hid].
  destruct (unlisted post) eqn:Hu; [unfold ret; intros [= <- _]; exact Hrs|].
  destruct (description post); [|discriminate].
  unfold ret. intros [= <- _]. apply good_snoc; [exact Hrs|].
  unfold fromIndex. cbn. split.
  - rewrite Hid. now destruct hit.
  - exists post. auto.
Qed.

Lemma pageStep_good (rs rs' : list Semantic.scoredResult)
      (hit : jsstring * Q) (w w' : World) :
  In hit (hits Embeddings.KPage) -> good rs ->
  Semantic.pageStep (docs Embeddings.KPage) rs hit w = (Returns rs', w') ->
  good rs'.
Proof.
  intros Hhit Hrs. unfold Semantic.pageStep.
  destruct (Semantic.find _ _) as [page|] eqn:E;
    [|unfold ret; intros [= <- _]; exact Hrs].
  apply find_some_id in E. destruct E as [Hin Hid].
  unfold ret. intros [= <- _]. apply good_snoc; [exact Hrs|].
  unfold fromIndex. cbn. split.
  - rewrite Hid. now destruct hit.
  - exists page. repeat split; auto. discriminate.
Qed.

Lemma snippetOf_returns (k : Embeddings.kind) (d : doc) (initial : jsstring)
      (w : World) :
  exists snippet w',
    SemanticIpfs.snippetOf env net k d initial w = (Returns snippet, w').
Proof.
  unfold SemanticIpfs.snippetOf, try_catch, bind.
  destruct (Gateway.fetchContentFromIPFS env net (contentCid d) w)
    as [[content|e] w1]; [eexists; eexists; reflexivity|].
  unfold SemanticIpfs.onSnippetError.
  destruct (negb _); eexists; eexists; reflexivity.
Qed.

Lemma postStep_ipfs_good (rs rs' : list Semantic.scoredResult)
      (hit : jsstring * Q) (w w' : World) :
  In hit (hits Embeddings.KPost) -> good rs ->
  SemanticIpfs.postStep env net (docs Embeddings.KPost) rs hit w
  = (Returns rs', w') ->
  good rs'.
Proof.
  intros Hhit Hrs. unfold SemanticIpfs.postStep.
  destruct (Semantic.find _ _) as [post|] eqn:E;
    [|unfold ret; intros [= <- _]; exact Hrs].
  apply find_some_id in E. destruct E as [Hin Hid].
  destruct (unlisted post) eqn:Hu; [unfold ret; intros [= <- _]; exact Hrs|].
  unfold bind.
  destruct (snippetOf_returns Embeddings.KPost post
              (Search.lead (description post) []) w) as (sn & w1 & ->).
  unfold ret. intros [= <- _]. apply good_snoc; [exact Hrs|].
  unfold fromIndex. cbn. split.
  - rewrite Hid. now destruct hit.
  - exists post. auto.
Qed.

Lemma pageStep_ipfs_good (rs rs' : list Semantic.scoredResult)
      (hit : jsstring * Q) (w w' : World) :
  In hit (hits Embeddings.KPage) -> good rs ->
  SemanticIpfs.pageStep env net (docs Embeddings.KPage) rs hit w
  = (Returns rs', w') ->
  good rs'.
Proof.
  intros Hhit Hrs. unfold SemanticIpfs.pageStep.
  destruct (Semantic.find _ _) as [page|] eqn:E;
    [|unfold ret; intros [= <- _]; exact Hrs].
  apply find_some_id in E. destruct E as [Hin Hid].
  unfold bind.
  destruct (snippetOf_returns Embeddings.KPage page (title page) w)
    as (sn & w1 & ->).
  unfold ret. intros [= <- _]. apply good_snoc; [exact Hrs|].
  unfold fromIndex. cbn. split.
  - rewrite Hid. now destruct hit.
  - exists page. repeat split; auto. discriminate.
Qed.

Lemma tail_ranked (w : World) (results : list Semantic.scoredResult) :
  fst ((results <- forEach (hits Embeddings.KPost) []
                     (Semantic.postStep (docs Embeddings.KPost)) ;;
        results <- forEach (hits Embeddings.KPage) results
                     (Semantic.pageStep (docs Embeddings.KPage)) ;;
        ret (slice (Search.sort Semantic.byScore results) 0 15))%js w)
  = Returns results ->
  ranked hits docs results.
Proof.
  unfold bind at 1.
  destruct (forEach (hits Embeddings.KPost) [] _ w) as [[rs1|e] w1] eqn:E1;
    [|discriminate].
  unfold bind at 1.
  destruct (forEach (hits Embeddings.KPage) rs1 _ w1) as [[rs2|e] w2] eqn:E2;
    [|discriminate].
  cbn [ret fst]. intros [= <-]. apply top15.
  eapply (forEach_returns _ good); [| |exact E2].
  - intros acc x w0 acc' w0' Hx Hacc. now apply pageStep_good.
  - eapply (forEach_returns _ good); [| |exact E1].
    + intros acc x w0 acc' w0' Hx Hacc. now apply postStep_good.
    + constructor.
Qed.

Lemma rank_ranked (w : World) (results : list Semantic.scoredResult) :
  fst (SemanticIpfs.rank env net vectorSearch fetchByIds queryEmbedding w)
  = Returns results ->
  ranked hits docs results.
Proof.
  unfold SemanticIpfs.rank. fold (hits Embeddings.KPost).
  fold (hits Embeddings.KPage). fold (docs Embeddings.KPost).
  fold (docs Embeddings.KPage).
  unfold bind at 1.
  destruct (forEach (hits Embeddings.KPost) [] _ w) as [[rs1|e] w1] eqn:E1;
    [|discriminate].
  unfold bind at 1.
  destruct (forEach (hits Embeddings.KPage) rs1 _ w1) as [[rs2|e] w2] eqn:E2;
    [|discriminate].
  cbn [ret fst]. intros [= <-]. apply top15.
  eapply (forEach_returns _ good); [| |exact E2].
  - intros acc x w0 acc' w0' Hx Hacc. now apply pageStep_ipfs_good.
  - eapply (forEach_returns _ good); [| |exact E1].
    + intros acc x w0 acc' w0' Hx Hacc. now apply postStep_ipfs_good.
    + constructor.
Qed.

End Ranking.

Lemma bind_returns {A B} (m : M A) (k : A -> M B) (w : World) (b : B) :
  fst (bind m k w) = Returns b ->
  exists a w1, m w = (Returns a, w1) /\ fst (k a w1) = Returns b.
Proof.
  unfold bind. destruct (m w) as [[a|e] w1]; [eauto|discriminate].
Qed.

Lemma nil_ranked (hits : Embeddings.kind -> list (jsstring * Q))
      (docs : Embeddings.kind -> list doc) :
  ranked hits docs [].
Proof.
  unfold ranked, descending. cbn. repeat split; try constructor. lia.
Qed.

Ltac step H := apply bind_returns in H; destruct H as (? & ? & _ & H).
Ltac none H :=
  cbn [ret fst] in H; injection H as <-; exists []; apply nil_ranked.

Lemma semantic_ranked_either
        (env : Env) (net : Net)
        (vectorSearch : Embeddings.kind -> list json -> list (jsstring * Q))
        (fetchByIds : Embeddings.kind -> list jsstring -> list doc)
        (query : jsstring) (w : World)
        (results : list Semantic.scoredResult) :
  fst (Semantic.semanticSearch env net vectorSearch fetchByIds query w)
  = Returns results
  \/ fst (SemanticIpfs.semanticSearch env net vectorSearch fetchByIds query w)
     = Returns results ->
  exists queryEmbedding,
    ranked (fun k => vectorSearch k queryEmbedding)
           (fun k => fetchByIds k (map fst (vectorSearch k queryEmbedding)))
           results.
Proof.
  intros [H|H].
  - unfold Semantic.semanticSearch in H.
    destruct (negb (truthy (trim query))); [none H|].
    destruct (HUGGINGFACE_API_KEY env) as [[|c key]|];
      [step H; none H| |step H; none H].
    do 2 step H. apply bind_returns in H.
    destruct H as (response & w1 & _ & H).
    destruct (negb (ok response)); [do 5 step H; none H|].
    step H. apply bind_returns in H.
    destruct H as ([[|j items]|] & w2 & _ & H);
      [do 2 step H; none H| |do 2 step H; none H].
    exists (j :: items). now apply tail_ranked in H.
  - unfold SemanticIpfs.semanticSearch in H.
    destruct (negb (truthy (trim query))); [none H|].
    destruct (HUGGINGFACE_API_KEY env) as [[|c key]|];
      [step H; none H| |step H; none H].
    do 2 step H. apply bind_returns in H.
    destruct H as (response & w1 & _ & H).
    destruct (negb (ok response)); [do 5 step H; none H|].
    step H. apply bind_returns in H.
    destruct H as ([[|j items]|] & w2 & _ & H);
      [do 2 step H; none H| |do 2 step H; none H].
    exists (j :: items). now apply rank_ranked in H.
Qed.

(** X13: whatever the provider, the vector index and the gateway answer,
    a list that [semanticSearch] returns (in either revision) has at most
    fifteen results, is ordered by score, best first, and every result has
    the id and the score of a hit of the vector index of its kind and the
    slug and title of a fetched document with that id, which for a post is
    not unlisted. *)
Theorem semantic_results_ranked
        (env : Env) (net : Net)
        (vectorSearch : Embeddings.kind -> list json -> list (jsstring * Q))
        (fetchByIds : Embeddings.kind -> list jsstring -> list doc)
        (query : jsstring) (w : World)
        (results : list Semantic.scoredResult) :
  fst (Semantic.semanticSearch env net vectorSearch fetchByIds query w)
  = Returns results
  \/ fst (SemanticIpfs.semanticSearch env net vectorSearch fetchByIds query w)
     = Returns results ->
  exists queryEmbedding,
    ranked (fun k => vectorSearch k queryEmbedding)
           (fun k => fetchByIds k (map fst (vectorSearch k queryEmbedding)))
           results.
Proof. apply semantic_ranked_either. Qed.

Lemma semantic_results_ranked_witness :
  exists results queryEmbedding,
    fst (Semantic.semanticSearch envPublic netShortVector hitsFix docsFix
                                 (lit "caching") worldTwoPosts)
    = Returns results
    /\ ranked (fun k => hitsFix k queryEmbedding)
              (fun k => docsFix k (map fst (hitsFix k queryEmbedding)))
              results.
Proof.
  assert (H : exists results,
             fst (Semantic.semanticSearch envPublic netShortVector hitsFix
                    docsFix (lit "caching") worldTwoPosts)
             = Returns results)
    by (vm_compute; eexists; reflexivity).
  destruct H as (results & H). exists results.
  destruct (@semantic_results_ranked envPublic netShortVector hitsFix docsFix
              (lit "caching") worldTwoPosts results (or_introl H))
    as (queryEmbedding & Hr).
  exists queryEmbedding. split; assumption.
Defined.

(** X14: with [fetchPostsByIds] and [fetchPagesByIds] as the queries that
    fetch the hits, every result of [semanticSearch] (in either revision)
    is a document of the store that is published and, for a post, not
    unlisted, whatever the vector index returns. *)
Theorem semantic_results_visible
        (env : Env) (net : Net)
        (vectorSearch : Embeddings.kind -> list json -> list (jsstring * Q))
        (query : jsstring) (w : World)
        (results : list Semantic.scoredResult) :
  let fetchByIds :=
    fun k => Queries.fetchByIds k (Embeddings.table k w) in
  fst (Semantic.semanticSearch env net vectorSearch fetchByIds query w)
  = Returns results
  \/ fst (SemanticIpfs.semanticSearch env net vectorSearch fetchByIds query w)
     = Returns results ->
  Forall (fun r =>
            exists d,
              In d (Embeddings.table (kindOf (Semantic.s_type r)) w)
              /\ _id d = Semantic.s_id r
              /\ slug d = Semantic.s_slug r
              /\ title d = Semantic.s_title r
              /\ visible (kindOf (Semantic.s_type r)) d = true)
         results.
Proof.
  intros fetchByIds H.
  apply semantic_ranked_either in H. destruct H as (qe & _ & _ & H).
  eapply Forall_impl; [|exact H]. cbn beta.
  intros r (_ & d & Hd & Hid & Hslug & Htitle & _).
  apply fetchByIds_In in Hd. exists d. tauto.
Qed.

Lemma semantic_results_visible_witness :
  exists results,
    fst (Semantic.semanticSearch envPublic netShortVector hitsFix
           (fun k => Queries.fetchByIds k (Embeddings.table k worldTwoPosts))
           (lit "caching") worldTwoPosts)
    = Returns results
    /\ Forall (fun r =>
                 exists d,
                   In d (Embeddings.table (kindOf (Semantic.s_type r))
                                          worldTwoPosts)
                   /\ _id d = Semantic.s_id r
                   /\ slug d = Semantic.s_slug r
                   /\ title d = Semantic.s_title r
                   /\ visible (kindOf (Semantic.s_type r)) d = true)
              results.
Proof.
  assert (H : exists results,
             fst (Semantic.semanticSearch envPublic netShortVector hitsFix
                    (fun k => Queries.fetchByIds
                                k (Embeddings.table k worldTwoPosts))
                    (lit "caching") worldTwoPosts)
             = Returns results)
    by (vm_compute; eexists; reflexivity).
  destruct H as (results & H). exists results. split; [exact H|].
  exact (@semantic_results_visible envPublic netShortVector hitsFix
           (lit "caching") worldTwoPosts results (or_introl H)).
Defined.

(** ** Embedding maintenance *)

Lemma grown_grown (w : World) (evs1 evs2 : list event) :
  grown (grown w evs1) evs2 = grown w (evs1 ++ evs2).
Proof. unfold grown. cbn. now rewrite app_assoc. Qed.

Lemma grown_emit (w : World) (evs : list event) (ev : event) :
  {| trace := trace (grown w evs) ++ [ev];
     posts := posts (grown w evs); pages := pages (grown w evs) |}
  = grown w (evs ++ [ev]).
Proof. unfold grown. cbn. now rewrite app_assoc. Qed.

(** The shared block either saves an embedding on the document, or throws
    and leaves the store as it was. *)
Lemma attemptBlock_cases {A} (env : Env) (net : Net) (k : Embeddings.kind)
      (post : Embeddings.pending) (done : A) (w : World) :
  exists evs out,
    attemptBlock env net k post done w = out
    /\ ((exists v,
            existsb (fun d => Js.eqb (_id d) (Embeddings.p_id post))
                    (Embeddings.table k w) = true
            /\ out = (Returns done,
                      Embeddings.set_table
                        k (Embeddings.patch (Embeddings.p_id post) v
                                            (Embeddings.table k w))
                        (grown w evs)))
        \/ (exists e, out = (Throws e, grown w evs))).
Proof.
  unfold attemptBlock.
  assert (Hsave : forall text evs1,
             exists evs out,
               (embedding <- Embeddings.generateEmbedding env net text ;;
                Embeddings.saveEmbedding k (Embeddings.p_id post) embedding ;;
                ret done)%js (grown w evs1) = out
               /\ ((exists v,
                       existsb (fun d => Js.eqb (_id d) (Embeddings.p_id post))
                               (Embeddings.table k w) = true
                       /\ out = (Returns done,
                                 Embeddings.set_table
                                   k (Embeddings.patch (Embeddings.p_id post) v
                                                       (Embeddings.table k w))
                                   (grown w evs)))
                   \/ (exists e, out = (Throws e, grown w evs)))).
  { intros text evs1. unfold bind at 1.
    destruct (generateEmbedding_world env net text (grown w evs1))
      as (evs2 & Hw2).
    destruct (Embeddings.generateEmbedding env net text (grown w evs1))
      as [[v|e2] w2]; cbn [snd] in Hw2; subst w2; rewrite grown_grown.
    - unfold bind at 1, Embeddings.saveEmbedding. rewrite table_grown.
      destruct (existsb _ (Embeddings.table k w)) eqn:Hex.
      + cbn [ret]. exists (evs1 ++ evs2). eexists. split; [reflexivity|].
        left. exists v. auto.
      + exists (evs1 ++ evs2). eexists. split; [reflexivity|].
        right. eexists. reflexivity.
    - exists (evs1 ++ evs2). eexists. split; [reflexivity|].
      right. eexists. reflexivity. }
  unfold bind at 1. unfold try_catch at 1.
  destruct (fetchContentFromIPFS_world env net (Embeddings.p_contentCid post) w)
    as (evs1 & Hw1).
  destruct (Gateway.fetchContentFromIPFS env net (Embeddings.p_contentCid post) w)
    as [[content|e1] w1]; cbn [snd] in Hw1; subst w1.
  - cbv zeta. apply Hsave.
  - unfold bind at 1. unfold emit at 1. unfold ret at 1.
    rewrite grown_emit. cbn [truthy]. cbv zeta. apply Hsave.
Qed.

Lemma table_other_set_table (k : Embeddings.kind) (t : list doc) (w : World) :
  Embeddings.table (other k) (Embeddings.set_table k t w)
  = Embeddings.table (other k) w.
Proof. destruct k; reflexivity. Qed.

Lemma trace_grown (w : World) (evs : list event) :
  trace (grown w evs) = trace w ++ evs.
Proof. reflexivity. Qed.

Lemma embedOne_block (env : Env) (net : Net) (k : Embeddings.kind)
      (processed : nat) (post : Embeddings.pending) :
  Embeddings.embedOne env net k processed post
  = try_catch
      (attemptBlock env net k post (S processed))
      (fun error =>
         bind (emit (ConsoleError
                       (Embeddings.embedFailedMsg k (Embeddings.p_id post))
                       (Some error)))
              (fun _ => ret processed)).
Proof. reflexivity. Qed.

(** One pass of the backfill loop: what it may change. *)
Lemma embedOne_frame (env : Env) (net : Net) (k : Embeddings.kind)
      (processed : nat) (post : Embeddings.pending) (w : World) :
  exists processed' w' evs,
    Embeddings.embedOne env net k processed post w = (Returns processed', w')
    /\ processed <= processed' <= S processed
    /\ trace w' = trace w ++ evs
    /\ Forall2 saved (Embeddings.table k w) (Embeddings.table k w')
    /\ Embeddings.table (other k) w' = Embeddings.table (other k) w.
Proof.
  rewrite embedOne_block. unfold try_catch.
  destruct (attemptBlock_cases env net k post (S processed) w)
    as (evs & out & -> & [(v & _ & ->)|(e & ->)]).
  - eexists; eexists; exists evs. split; [reflexivity|].
    split; [lia|]. split; [now rewrite trace_set_table|].
    rewrite table_set_table, table_other_set_table, table_grown.
    split; [apply saved_patch|reflexivity].
  - unfold bind, emit, ret. rewrite grown_emit.
    eexists; eexists; eexists. split; [reflexivity|].
    split; [lia|]. split; [reflexivity|].
    rewrite !table_grown. split; [apply saved_refl|reflexivity].
Qed.

Lemma generateEmbeddings_frame (env : Env) (net : Net) (k : Embeddings.kind)
      (w : World) :
  exists processed w' evs,
    Embeddings.generateEmbeddings env net k w = (Returns processed, w')
    /\ processed <= 10
    /\ trace w' = trace w ++ evs
    /\ Forall2 saved (Embeddings.table k w) (Embeddings.table k w')
    /\ Embeddings.table (other k) w' = Embeddings.table (other k) w.
Proof.
  unfold Embeddings.generateEmbeddings, bind, Embeddings.getWithoutEmbeddings.
  assert (Hlen : length (Embeddings.withoutEmbeddings (Embeddings.table k w) 10)
                 <= 10).
  { rewrite withoutEmbeddings_firstn, length_map, length_firstn. lia. }
  revert Hlen. generalize (Embeddings.withoutEmbeddings (Embeddings.table k w) 10).
  intros batch.
  enough (H : forall n w1,
             exists n' w2 evs,
               forEach batch n (Embeddings.embedOne env net k) w1
               = (Returns n', w2)
               /\ n' <= n + length batch
               /\ trace w2 = trace w1 ++ evs
               /\ Forall2 saved (Embeddings.table k w1) (Embeddings.table k w2)
               /\ Embeddings.table (other k) w2
                  = Embeddings.table (other k) w1).
  { intros Hlen. destruct (H 0 w) as (n' & w2 & evs & Hrun & Hn & Hrest).
    exists n', w2, evs. split; [exact Hrun|]. split; [lia|exact Hrest]. }
  induction batch as [|p rest IH]; intros n w1; cbn [forEach].
  - exists n, w1, []. rewrite app_nil_r. cbn.
    repeat split; auto using saved_refl. lia.
  - unfold bind.
    destruct (embedOne_frame env net k n p w1)
      as (n1 & w1' & evs1 & -> & Hn1 & Ht1 & Hs1 & Ho1).
    destruct (IH n1 w1') as (n' & w2 & evs2 & -> & Hn' & Ht2 & Hs2 & Ho2).
    exists n', w2, (evs1 ++ evs2). split; [reflexivity|].
    split; [cbn [length]; lia|].
    split; [now rewrite Ht2, Ht1, app_assoc|].
    split; [eapply saved_trans; eassumption|congruence].
Qed.

(** X15: [generateMissingEmbeddings] never fails.  Without the credential
    it reports [skipped] with both counts zero, makes no request and leaves
    the store as it is; with it, it reports [skipped: false] and counts of
    at most ten each; in every case the documents of the store are the
    same as before, in the same order, but for the embeddings saved. *)
Theorem generateMissingEmbeddings_completes
        (env : Env) (net : Net) (w : World) :
  exists r w',
    Maintenance.generateMissingEmbeddings env net w = (Returns r, w')
    /\ Maintenance.skipped r = negb (envTruthy (HUGGINGFACE_API_KEY env))
    /\ Maintenance.postsProcessed r <= 10
    /\ Maintenance.pagesProcessed r <= 10
    /\ Forall2 saved (posts w) (posts w')
    /\ Forall2 saved (pages w) (pages w')
    /\ (Maintenance.skipped r = true ->
        Maintenance.postsProcessed r = 0
        /\ Maintenance.pagesProcessed r = 0
        /\ posts w' = posts w /\ pages w' = pages w
        /\ noFetch (newEvents w w')).
Proof.
  unfold Maintenance.generateMissingEmbeddings.
  destruct (envTruthy (HUGGINGFACE_API_KEY env)); cbn [negb].
  - unfold bind at 1. unfold Embeddings.generatePostEmbeddings.
    destruct (generateEmbeddings_frame env net Embeddings.KPost w)
      as (p & w1 & evs1 & -> & Hp & _ & Hs1 & Ho1).
    unfold bind at 1. unfold Embeddings.generatePageEmbeddings.
    destruct (generateEmbeddings_frame env net Embeddings.KPage w1)
      as (q & w2 & evs2 & -> & Hq & _ & Hs2 & Ho2).
    cbn [Embeddings.table other] in *.
    eexists; eexists. split; [reflexivity|]. cbn.
    split; [reflexivity|]. split; [exact Hp|]. split; [exact Hq|].
    split; [now rewrite Ho2|]. split; [now rewrite <- Ho1|discriminate].
  - unfold bind, emit, ret. eexists; eexists. split; [reflexivity|].
    cbn [Maintenance.skipped Maintenance.postsProcessed
         Maintenance.pagesProcessed posts pages].
    split; [reflexivity|]. split; [lia|]. split; [lia|].
    split; [apply saved_refl|]. split; [apply saved_refl|].
    intros _. repeat split.
    rewrite newEvents_app. intros req [H|[]]. discriminate.
Qed.

Lemma generateMissingEmbeddings_completes_witness :
  exists r w',
    Maintenance.generateMissingEmbeddings envNoKey netDown worldTwoPosts
    = (Returns r, w')
    /\ posts w' = posts worldTwoPosts.
Proof.
  destruct (generateMissingEmbeddings_completes envNoKey netDown worldTwoPosts)
    as (r & w' & Hrun & Hsk & _ & _ & _ & _ & Hskip).
  exists r, w'. split; [exact Hrun|]. now apply Hskip.
Defined.

Lemma regenerateEmbedding_block (env : Env) (net : Net) (k : Embeddings.kind)
      (post : Embeddings.pending) :
  try_catch
    (attemptBlock env net k post
       {| Maintenance.success := true; Maintenance.error := None |})
    (fun error =>
       ret {| Maintenance.success := false;
              Maintenance.error := Some (Maintenance.stringOf error) |})
  = try_catch
      (content <-
         try_catch
           (Gateway.fetchContentFromIPFS env net (Embeddings.p_contentCid post))
           (fun error =>
              emit (ConsoleError
                      (Embeddings.fetchFailedMsg k (Embeddings.p_id post))
                      (Some error)) ;;
              ret []) ;;
       let textToEmbed :=
         if truthy content
         then Embeddings.prepareTextForEmbedding
                (Embeddings.p_title post) content
         else Embeddings.p_title post in
       embedding <- Embeddings.generateEmbedding env net textToEmbed ;;
       Embeddings.saveEmbedding k (Embeddings.p_id post) embedding ;;
       ret {| Maintenance.success := true; Maintenance.error := None |})%js
      (fun error =>
         ret {| Maintenance.success := false;
                Maintenance.error := Some (Maintenance.stringOf error) |}).
Proof. reflexivity. Qed.

(** X16: [regeneratePostEmbedding] and [regeneratePageEmbedding] never
    fail and never touch the other table.  On success the first document
    with the slug, published or not, listed or not, has got an embedding
    and nothing else changed; on failure the store is as it was and an
    error text is returned; without the credential, or without a document
    of that slug, nothing at all is done. *)
Theorem regenerateEmbedding_outcomes
        (env : Env) (net : Net) (k : Embeddings.kind) (s : jsstring)
        (w : World) :
  exists r w',
    Maintenance.regenerateEmbedding env net k s w = (Returns r, w')
    /\ Embeddings.table (other k) w' = Embeddings.table (other k) w
    /\ (Maintenance.success r = true ->
        Maintenance.error r = None
        /\ exists d v,
            bySlug (Embeddings.table k w) s = Some d
            /\ Embeddings.table k w'
               = Embeddings.patch (_id d) v (Embeddings.table k w)
            /\ hasEmbedding (Embeddings.table k w') (_id d) = true)
    /\ (Maintenance.success r = false ->
        Embeddings.table k w' = Embeddings.table k w
        /\ Maintenance.error r <> None)
    /\ (envTruthy (HUGGINGFACE_API_KEY env) = false ->
        r = {| Maintenance.success := false;
               Maintenance.error :=
                 Some (lit "HUGGINGFACE_API_KEY not configured") |}
        /\ w' = w)
    /\ (envTruthy (HUGGINGFACE_API_KEY env) = true ->
        bySlug (Embeddings.table k w) s = None ->
        r = {| Maintenance.success := false;
               Maintenance.error := Some (Maintenance.notFound k) |}
        /\ w' = w).
Proof.
  unfold Maintenance.regenerateEmbedding.
  destruct (envTruthy (HUGGINGFACE_API_KEY env)); cbn [negb].
  - unfold bind at 1, Queries.getBySlug. fold (bySlug (Embeddings.table k w) s).
    destruct (bySlug (Embeddings.table k w) s) as [d|]; cbn [option_map].
    + rewrite <- regenerateEmbedding_block. unfold try_catch.
      destruct (attemptBlock_cases env net k (Embeddings.project d)
                  {| Maintenance.success := true; Maintenance.error := None |}
                  w)
        as (evs & out & -> & [(v & Hex & ->)|(e & ->)]).
      * eexists; eexists. split; [reflexivity|].
        rewrite table_set_table, table_other_set_table, table_grown.
        cbn [Maintenance.success Maintenance.error Embeddings.project
             Embeddings.p_id] in *.
        split; [reflexivity|]. split; [|split; [discriminate|]].
        -- intros _. split; [reflexivity|]. exists d, v.
           split; [reflexivity|]. split; [reflexivity|].
           now apply hasEmbedding_patch.
        -- split; [discriminate|]. intros _. discriminate.
      * unfold ret. eexists; eexists. split; [reflexivity|].
        rewrite !table_grown.
        cbn [Maintenance.success Maintenance.error].
        split; [reflexivity|]. split; [discriminate|].
        split; [intros _; split; [reflexivity|discriminate]|].
        split; [discriminate|]. intros _. discriminate.
    + unfold ret. eexists; eexists. split; [reflexivity|].
      cbn [Maintenance.success Maintenance.error].
      split; [reflexivity|]. split; [discriminate|].
      split; [intros _; split; [reflexivity|discriminate]|].
      split; [discriminate|]. auto.
  - unfold ret. eexists; eexists. split; [reflexivity|].
    cbn [Maintenance.success Maintenance.error].
    split; [reflexivity|]. split; [discriminate|].
    split; [intros _; split; [reflexivity|discriminate]|].
    split; [auto|discriminate].
Qed.

Lemma regenerateEmbedding_outcomes_witness :
  exists r w',
    Maintenance.regeneratePostEmbedding envPublic netEmbedOk
      (lit "caching-internals") worldDraft = (Returns r, w')
    /\ Maintenance.success r = true
    /\ hasEmbedding (posts w') (lit "p3") = true.
Proof.
  destruct (regenerateEmbedding_outcomes envPublic netEmbedOk Embeddings.KPost
              (lit "caching-internals") worldDraft)
    as (r & w' & Hrun & _ & Hok & _).
  exists r, w'. split; [exact Hrun|].
  assert (Hs : Maintenance.success r = true).
  { unfold Maintenance.regeneratePostEmbedding in *.
    assert (E : fst (Maintenance.regenerateEmbedding
                       envPublic netEmbedOk Embeddings.KPost
                       (lit "caching-internals") worldDraft)
                = Returns {| Maintenance.success := true;
                             Maintenance.error := None |})
      by (vm_compute; reflexivity).
    rewrite Hrun in E. cbn [fst] in E. injection E as ->. reflexivity. }
  split; [exact Hs|].
  destruct (Hok Hs) as (_ & d & v & Hd & _ & Hh).
  vm_compute in Hd. injection Hd as <-. exact Hh.
Defined.

(** ** Saving an embedding *)

Lemma patch_In (id : jsstring) (v : list Q) (t : list doc) (d' : doc) :
  In d' (Embeddings.patch id v t) ->
  exists d, In d t
            /\ ((_id d = id /\ d' = Embeddings.setEmbedding v d)
                \/ (_id d <> id /\ d' = d)).
Proof.
  unfold Embeddings.patch. intros H. apply in_map_iff in H.
  destruct H as (d & <- & Hd). exists d. split; [exact Hd|].
  destruct (Js.eqb (_id d) id) eqn:E.
  - left. split; [now apply eqb_true_iff|reflexivity].
  - right. split; [now apply eqb_false_iff|reflexivity].
Qed.

Lemma withoutEmbeddings_In (t : list doc) (limit : Z) (id : jsstring) :
  In id (map Embeddings.p_id (Embeddings.withoutEmbeddings t limit)) ->
  exists d, In d t /\ _id d = id /\ embedding d = None
            /\ published d = true /\ unlisted d = false.
Proof.
  unfold Embeddings.withoutEmbeddings. rewrite map_map. cbn.
  intros H. apply in_map_iff in H. destruct H as (d & <- & Hd).
  assert (Hin : In d (filter Embeddings.lacksEmbedding (filter published t))).
  { unfold slice in Hd. apply In_firstn in Hd.
    rewrite <- (firstn_skipn
                  (Z.to_nat (clampIndex (Z.of_nat (length (filter Embeddings.lacksEmbedding (filter published t)))) 0))
                  (filter _ _)).
    apply in_or_app. now right. }
  apply filter_In in Hin. destruct Hin as [Hin Hl].
  apply filter_In in Hin. destruct Hin as [Hin Hp].
  exists d. unfold Embeddings.lacksEmbedding in Hl.
  destruct (embedding d); [discriminate|].
  apply negb_true_iff in Hl. auto.
Qed.

(** X17: saving an embedding and selecting the documents without one fit
    together.  [savePostEmbedding] / [savePageEmbedding] on the id of a
    document of the table puts the vector on every document with that id
    and changes nothing else: the other documents, the other table and the
    log stay as they were, and no selection of any size returns that id
    again.  On an id that denotes no document the call fails and changes
    nothing. *)
Theorem saveEmbedding_then_not_selected
        (k : Embeddings.kind) (id : jsstring) (v : list Q) (w : World)
        (limit : Z) :
  (existsb (fun d => Js.eqb (_id d) id) (Embeddings.table k w) = true ->
   exists w',
     Embeddings.saveEmbedding k id v w = (Returns tt, w')
     /\ trace w' = trace w
     /\ Embeddings.table (other k) w' = Embeddings.table (other k) w
     /\ Forall2 saved (Embeddings.table k w) (Embeddings.table k w')
     /\ (forall d, In d (Embeddings.table k w') -> _id d = id ->
                   embedding d = Some v)
     /\ (forall d, _id d <> id ->
                   (In d (Embeddings.table k w')
                    <-> In d (Embeddings.table k w)))
     /\ ~ In id (map Embeddings.p_id
                     (Embeddings.withoutEmbeddings (Embeddings.table k w')
                                                   limit)))
  /\ (existsb (fun d => Js.eqb (_id d) id) (Embeddings.table k w) = false ->
      exists e, Embeddings.saveEmbedding k id v w = (Throws e, w)).
Proof.
  unfold Embeddings.saveEmbedding. split; intros Hex; rewrite Hex;
    [|eexists; reflexivity].
  eexists. split; [reflexivity|].
  rewrite trace_set_table, table_set_table, table_other_set_table.
  split; [reflexivity|]. split; [reflexivity|].
  split; [apply saved_patch|].
  assert (Hv : forall d, In d (Embeddings.patch id v (Embeddings.table k w)) ->
                         _id d = id -> embedding d = Some v).
  { intros d' Hd' Hid. apply patch_In in Hd'.
    destruct Hd' as (d & _ & [(_ & ->)|(Hne & ->)]);
      [reflexivity|contradiction]. }
  split; [exact Hv|]. split.
  - intros d Hne. split.
    + intros Hd. apply patch_In in Hd.
      destruct Hd as (d0 & Hd0 & [(Hid & ->)|(_ & ->)]);
        [cbn in Hne; contradiction|exact Hd0].
    + intros Hd. unfold Embeddings.patch. apply in_map_iff. exists d.
      apply eqb_false_iff in Hne. now rewrite Hne.
  - intros Hin. apply withoutEmbeddings_In in Hin.
    destruct Hin as (d & Hd & Hid & Hnone & _).
    rewrite (Hv d Hd Hid) in Hnone. discriminate.
Qed.

Lemma saveEmbedding_then_not_selected_witness :
  exists w',
    Embeddings.savePostEmbedding (lit "p1") [half] worldTwoPosts
    = (Returns tt, w')
    /\ map Embeddings.p_id (Embeddings.withoutEmbeddings (posts w') 10)
       = [lit "p2"].
Proof.
  destruct (proj1 (saveEmbedding_then_not_selected
                     Embeddings.KPost (lit "p1") [half] worldTwoPosts 10)
                  eq_refl)
    as (w' & Hrun & _).
  exists w'. split; [exact Hrun|].
  vm_compute in Hrun. injection Hrun as <-. reflexivity.
Defined.

(** ** Progress of the backfill *)

Lemma NoDup_app_disjoint {A} (l1 l2 : list A) (a : A) :
  NoDup (l1 ++ l2) -> In a l1 -> ~ In a l2.
Proof.
  induction l1 as [|x l1 IH]; cbn; intros H Ha; [destruct Ha|].
  inversion H as [|? ? Hx Hl]; subst. destruct Ha as [->|Ha].
  - intros Hin. apply Hx, in_or_app. now right.
  - now apply IH.
Qed.

Lemma saved_ids (t t' : list doc) :
  Forall2 saved t t' -> map _id t' = map _id t.
Proof.
  induction 1 as [|d d' t t' Hd _ IH]; cbn; [reflexivity|].
  now rewrite IH, (saved_id Hd).
Qed.

Lemma hasEmbedding_unique (t : list doc) (d : doc) :
  NoDup (map _id t) -> In d t ->
  hasEmbedding t (_id d)
  = match embedding d with Some _ => true | None => false end.
Proof.
  intros Hnd Hd. unfold hasEmbedding.
  destruct (existsb _ t) eqn:E.
  - apply existsb_exists in E. destruct E as (d' & Hd' & Hc).
    apply andb_true_iff in Hc. destruct Hc as [Hid Hs].
    apply eqb_true_iff in Hid.
    assert (d' = d) by exact (NoDup_map_unique _id t d' d Hnd Hd' Hd Hid).
    subst d'. now destruct (embedding d).
  - destruct (embedding d) eqn:Hs; [|reflexivity].
    assert (Hx : existsb (fun d0 => Js.eqb (_id d0) (_id d)
                                    && match embedding d0 with
                                       | Some _ => true
                                       | None => false
                                       end) t = true).
    { apply existsb_exists. exists d. split; [exact Hd|].
      now rewrite eqb_refl, Hs. }
    congruence.
Qed.

Lemma filter_none {A} (f : A -> bool) (l : list A) :
  (forall x, In x l -> f x = false) -> filter f l = [].
Proof.
  induction l as [|x l IH]; cbn; intros H; [reflexivity|].
  rewrite (H x (or_introl eq_refl)). apply IH. intros y Hy. apply H. now right.
Qed.

Lemma filter_map_length {A B} (f : B -> bool) (g : A -> B) (l : list A) :
  length (filter f (map g l)) = length (filter (fun x => f (g x)) l).
Proof.
  induction l as [|x l IH]; cbn; [reflexivity|].
  destruct (f (g x)); cbn; now rewrite IH.
Qed.

(** The documents still selectable after some embeddings were saved are
    those that were selectable and got none. *)
Lemma pending_after (h : jsstring -> bool) (t t' : list doc) :
  Forall2 saved t t' ->
  (forall d, In d t -> embedding d <> None -> h (_id d) = true) ->
  (forall d', In d' t' ->
              h (_id d')
              = match embedding d' with Some _ => true | None => false end) ->
  length (filter selectable t')
  = length (filter (fun d => negb (h (_id d))) (filter selectable t)).
Proof.
  induction 1 as [|d d' t t' Hd _ IH]; intros Hold Hnew; [reflexivity|].
  assert (IH' : length (filter selectable t')
                = length (filter (fun d => negb (h (_id d)))
                                 (filter selectable t))).
  { apply IH.
    - intros x Hx. apply Hold. now right.
    - intros x Hx. apply Hnew. now right. }
  specialize (Hold d (or_introl eq_refl)).
  specialize (Hnew d' (or_introl eq_refl)).
  cbn [filter]. rewrite (saved_id Hd) in Hnew.
  destruct Hd as [->|[v ->]].
  - destruct (selectable d) eqn:Hs; [|exact IH'].
    assert (He : embedding d = None).
    { unfold selectable, Embeddings.lacksEmbedding in Hs.
      apply andb_true_iff in Hs. destruct Hs as [_ Hs].
      now destruct (embedding d). }
    cbn [filter]. rewrite Hnew, He. cbn [negb length]. now rewrite IH'.
  - assert (Hs' : selectable (Embeddings.setEmbedding v d) = false)
      by (unfold selectable, Embeddings.lacksEmbedding; cbn;
          apply andb_false_r).
    rewrite Hs'. cbn [embedding Embeddings.setEmbedding] in Hnew.
    destruct (selectable d); [|exact IH'].
    cbn [filter]. rewrite Hnew. cbn [negb]. exact IH'.
Qed.

(** X18: for a table with unique document ids, one run of the backfill
    lowers the number of documents that wait for an embedding by exactly
    the count it reports; a run that finds none waiting does nothing. *)
Theorem backfill_progress
        (env : Env) (net : Net) (k : Embeddings.kind) (w : World) :
  NoDup (map _id (Embeddings.table k w)) ->
  exists processed w',
    Embeddings.generateEmbeddings env net k w = (Returns processed, w')
    /\ pendingCount (Embeddings.table k w') + processed
       = pendingCount (Embeddings.table k w)
    /\ (pendingCount (Embeddings.table k w) = 0 ->
        processed = 0 /\ w' = w).
Proof.
  intros Hnd.
  set (t := Embeddings.table k w) in *.
  set (all := filter selectable t).
  set (sel := firstn 10 all).
  set (batch := Embeddings.withoutEmbeddings t 10).
  assert (Hbatch : batch = map Embeddings.project sel)
    by apply withoutEmbeddings_firstn.
  assert (Hids : map Embeddings.p_id batch = map _id sel)
    by (rewrite Hbatch, map_map; reflexivity).
  assert (Hall_nd : NoDup (map _id all)) by now apply NoDup_map_filter.
  assert (Hsel_nd : NoDup (map _id sel)) by now apply NoDup_map_firstn.
  assert (Hall_in : forall x, In x all -> In x t /\ embedding x = None).
  { intros x Hx. apply filter_In in Hx. destruct Hx as [Hx Hs].
    split; [exact Hx|].
    unfold selectable, Embeddings.lacksEmbedding in Hs.
    apply andb_true_iff in Hs. destruct Hs as [_ Hs].
    now destruct (embedding x). }
  assert (Hlacks : forall x, In x all -> lacks t (_id x)).
  { intros x Hx d Hd Hid. destruct (Hall_in x Hx) as [Hxt Hxe].
    assert (d = x) by exact (NoDup_map_unique _id t d x Hnd Hd Hxt Hid).
    now subst d. }
  destruct (@backfill_loop env net k batch 0 w) as
      (n' & w' & evs & Hrun & Htr & Hsaved & Hkeep & Hn' & _).
  { now rewrite Hids. }
  { intros p Hp. rewrite Hbatch in Hp. apply in_map_iff in Hp.
    destruct Hp as (x & <- & Hx). apply Hlacks. eapply In_firstn, Hx. }
  fold t in Hsaved, Hkeep.
  set (t' := Embeddings.table k w') in *.
  exists n', w'. split; [exact Hrun|]. fold t'. split.
  - unfold pendingCount. fold all.
    set (h := fun id => hasEmbedding t' id).
    assert (Hnd' : NoDup (map _id t')) by now rewrite (saved_ids Hsaved).
    rewrite (@pending_after h t t' Hsaved).
    + fold all.
      rewrite <- (filter_length (fun d => h (_id d)) all).
      assert (Hcount : length (filter (fun d => h (_id d)) all) = n').
      { rewrite Hn', Hbatch. cbn [Nat.add].
        rewrite <- (firstn_skipn 10 all) at 1. fold sel.
        rewrite filter_app, length_app, filter_map_length.
        rewrite (@filter_none _ (fun d => h (_id d)) (skipn 10 all));
          [cbn [length]; unfold h; cbn; lia|].
        intros x Hx. unfold h. apply lacks_hasEmbedding, Hkeep.
        - rewrite Hids. apply in_map with (f := _id) in Hx.
          intros Hin. revert Hx.
          apply (@NoDup_app_disjoint _ (map _id sel) (map _id (skipn 10 all))
                   (_id x)); [|exact Hin].
          unfold sel. now rewrite <- map_app, firstn_skipn.
        - apply Hlacks. rewrite <- (firstn_skipn 10 all).
          apply in_or_app. now right. }
      lia.
    + intros d Hd Hs. unfold h. apply (hasEmbedding_saved _ Hsaved).
      rewrite (@hasEmbedding_unique t d Hnd Hd).
      now destruct (embedding d).
    + intros d' Hd'. unfold h. now apply hasEmbedding_unique.
  - intros H0. unfold pendingCount in H0. fold all in H0.
    apply length_zero_iff_nil in H0.
    assert (Hb : batch = []) by (rewrite Hbatch; unfold sel; now rewrite H0).
    unfold Embeddings.generateEmbeddings, bind,
      Embeddings.getWithoutEmbeddings in Hrun.
    fold t in Hrun. fold batch in Hrun. rewrite Hb in Hrun.
    cbn in Hrun. injection Hrun as <- <-. auto.
Qed.

Lemma backfill_progress_witness :
  NoDup (map _id (Embeddings.table Embeddings.KPost worldTwoPosts))
  /\ exists processed w',
      Embeddings.generateEmbeddings envPublic netBackfill Embeddings.KPost
                                    worldTwoPosts
      = (Returns processed, w')
      /\ processed = 1
      /\ pendingCount (posts w') = 1.
Proof.
  assert (Hnd : NoDup (map _id (Embeddings.table Embeddings.KPost
                                                 worldTwoPosts))).
  { cbn. repeat constructor; cbn; intuition discriminate. }
  split; [exact Hnd|].
  destruct (@backfill_progress envPublic netBackfill Embeddings.KPost
                               worldTwoPosts Hnd)
    as (processed & w' & Hrun & Hcount & _).
  exists processed, w'. split; [exact Hrun|].
  vm_compute in Hrun. injection Hrun as <- <-.
  split; reflexivity.
Defined.

(** ** Semantic search with snippets from the content *)

Lemma forEach_rel {A S} (R : S -> S -> Prop) (body body' : S -> A -> M S)
      (xs : list A) :
  (forall acc acc' x w w',
      R acc acc' ->
      exists r r' w1 w1',
        body acc x w = (Returns r, w1)
        /\ body' acc' x w' = (Returns r', w1')
        /\ R r r') ->
  forall acc acc' w w',
    R acc acc' ->
    exists r r' w1 w1',
      forEach xs acc body w = (Returns r, w1)
      /\ forEach xs acc' body' w' = (Returns r', w1')
      /\ R r r'.
Proof.
  intros Hbody. induction xs as [|x xs IH]; intros acc acc' w w' Hacc.
  - exists acc, acc', w, w'. auto.
  - cbn [forEach]. unfold bind.
    destruct (Hbody acc acc' x w w' Hacc)
      as (r & r' & w1 & w1' & -> & -> & Hr).
    now apply IH.
Qed.

Lemma map_bare_insert (x : Semantic.scoredResult)
      (l : list Semantic.scoredResult) :
  map bare (Search.insert Semantic.byScore x l)
  = Search.insert Semantic.byScore (bare x) (map bare l).
Proof.
  induction l as [|y l IH]; cbn [Search.insert map]; [reflexivity|].
  change (Semantic.byScore (bare x) (bare y)) with (Semantic.byScore x y).
  destruct (Semantic.byScore x y <=? 0)%Z; cbn [map]; [reflexivity|].
  now rewrite IH.
Qed.

Lemma map_bare_sort (l : list Semantic.scoredResult) :
  map bare (Search.sort Semantic.byScore l)
  = Search.sort Semantic.byScore (map bare l).
Proof.
  unfold Search.sort. induction l as [|x l IH]; cbn; [reflexivity|].
  now rewrite map_bare_insert, IH.
Qed.

Lemma slice_map {A B} (f : A -> B) (l : list A) (b e : Z) :
  slice (map f l) b e = map f (slice l b e).
Proof. unfold slice. now rewrite length_map, skipn_map, firstn_map. Qed.

Section SnippetsOnly.

Variable env : Env.
Variable net net' : Net.
Variable vectorSearch : Embeddings.kind -> list json -> list (jsstring * Q).
Variable fetchByIds : Embeddings.kind -> list jsstring -> list doc.

Let alike (rs rs' : list Semantic.scoredResult) : Prop :=
  map bare rs = map bare rs'.

Lemma postStep_alike (posts : list doc) (rs rs' : list Semantic.scoredResult)
      (hit : jsstring * Q) (w w' : World) :
  alike rs rs' ->
  exists r r' w1 w1',
    SemanticIpfs.postStep env net posts rs hit w = (Returns r, w1)
    /\ SemanticIpfs.postStep env net' posts rs' hit w' = (Returns r', w1')
    /\ alike r r'.
Proof.
  intros H. unfold SemanticIpfs.postStep.
  destruct (Semantic.find posts (fst hit)) as [post|];
    [|exists rs, rs', w, w'; auto].
  destruct (unlisted post); [exists rs, rs', w, w'; auto|].
  unfold bind.
  destruct (snippetOf_returns env net Embeddings.KPost post
              (Search.lead (description post) []) w) as (sn & w1 & ->).
  destruct (snippetOf_returns env net' Embeddings.KPost post
              (Search.lead (description post) []) w') as (sn' & w1' & ->).
  unfold ret. eexists; eexists; eexists; eexists.
  split; [reflexivity|]. split; [reflexivity|].
  unfold alike in *. rewrite !map_app, H. reflexivity.
Qed.

Lemma pageStep_alike (pages : list doc) (rs rs' : list Semantic.scoredResult)
      (hit : jsstring * Q) (w w' : World) :
  alike rs rs' ->
  exists r r' w1 w1',
    SemanticIpfs.pageStep env net pages rs hit w = (Returns r, w1)
    /\ SemanticIpfs.pageStep env net' pages rs' hit w' = (Returns r', w1')
    /\ alike r r'.
Proof.
  intros H. unfold SemanticIpfs.pageStep.
  destruct (Semantic.find pages (fst hit)) as [page|];
    [|exists rs, rs', w, w'; auto].
  unfold bind.
  destruct (snippetOf_returns env net Embeddings.KPage page (title page) w)
    as (sn & w1 & ->).
  destruct (snippetOf_returns env net' Embeddings.KPage page (title page) w')
    as (sn' & w1' & ->).
  unfold ret. eexists; eexists; eexists; eexists.
  split; [reflexivity|]. split; [reflexivity|].
  unfold alike in *. rewrite !map_app, H. reflexivity.
Qed.

(** Once the vector is there, the ranking completes whatever the gateway
    does, and the gateway decides on the snippets only. *)
Lemma rank_alike (queryEmbedding : list json) (w w' : World) :
  exists rs rs' w1 w1',
    SemanticIpfs.rank env net vectorSearch fetchByIds queryEmbedding w
    = (Returns rs, w1)
    /\ SemanticIpfs.rank env net' vectorSearch fetchByIds queryEmbedding w'
       = (Returns rs', w1')
    /\ alike rs rs'.
Proof.
  unfold SemanticIpfs.rank. cbv zeta.
  set (posts := fetchByIds Embeddings.KPost _).
  set (pages := fetchByIds Embeddings.KPage _).
  unfold bind at 1 3.
  destruct (@forEach_rel _ _ alike
              (SemanticIpfs.postStep env net posts)
              (SemanticIpfs.postStep env net' posts)
              (vectorSearch Embeddings.KPost queryEmbedding)
              (fun acc acc' x w0 w0' => @postStep_alike posts acc acc' x w0 w0')
              [] [] w w' eq_refl)
    as (r1 & r1' & w1 & w1' & -> & -> & H1).
  unfold bind.
  destruct (@forEach_rel _ _ alike
              (SemanticIpfs.pageStep env net pages)
              (SemanticIpfs.pageStep env net' pages)
              (vectorSearch Embeddings.KPage queryEmbedding)
              (fun acc acc' x w0 w0' => @pageStep_alike pages acc acc' x w0 w0')
              r1 r1' w1 w1' H1)
    as (r2 & r2' & w2 & w2' & -> & -> & H2).
  unfold ret. eexists; eexists; eexists; eexists.
  split; [reflexivity|]. split; [reflexivity|].
  unfold alike in *. now rewrite <- !slice_map, !map_bare_sort, H2.
Qed.

End SnippetsOnly.

(** X19: in the revision of [semanticSearch] that cuts its snippets from
    the content, the gateway decides on the snippets and on nothing else:
    two runs that get the same answers from the provider end with the
    same error or return the same documents with the same scores in the
    same order, whatever the gateway serves or refuses in either. *)
Theorem semantic_gateway_decides_snippets_only
        (env : Env) (net net' : Net)
        (vectorSearch : Embeddings.kind -> list json -> list (jsstring * Q))
        (fetchByIds : Embeddings.kind -> list jsstring -> list doc)
        (query : jsstring) (w : World) :
  sameProvider net net' ->
  sameButSnippets
    (fst (SemanticIpfs.semanticSearch env net vectorSearch fetchByIds query w))
    (fst (SemanticIpfs.semanticSearch env net' vectorSearch fetchByIds query w)).
Proof.
  intros Hsame. unfold SemanticIpfs.semanticSearch.
  destruct (negb (truthy (trim query))); [reflexivity|].
  destruct (HUGGINGFACE_API_KEY env) as [[|c key]|]; try reflexivity.
  unfold bind, emit, fetch, await, ret. cbn [trace posts pages].
  rewrite <- (Hsame _ Embeddings.HUGGINGFACE_API_URL
                    (lit "Bearer " ++ c :: key) query).
  destruct (net _ _) as [response|e]; [|reflexivity].
  destruct (negb (ok response)).
  - destruct (body_text response); reflexivity.
  - destruct (body_json response) as [responseData|e]; [|reflexivity].
    destruct (Semantic.extractEmbedding responseData)
      as [[[|j items]|]|e]; try reflexivity.
    match goal with
    | |- sameButSnippets (fst (SemanticIpfs.rank _ _ _ _ _ ?w1))
                         (fst (SemanticIpfs.rank _ _ _ _ _ ?w2)) =>
        destruct (@rank_alike env net net' vectorSearch fetchByIds
                    (j :: items) w1 w2)
          as (rs & rs' & w3 & w3' & -> & -> & H)
    end.
    exact H.
Qed.

Lemma semantic_gateway_decides_snippets_only_witness :
  sameProvider netServing netNoGateway
  /\ exists rs rs',
      fst (SemanticIpfs.semanticSearch envPublic netServing hitsFix docsFix
                                       (lit "caching") worldTwoPosts)
      = Returns rs
      /\ fst (SemanticIpfs.semanticSearch envPublic netNoGateway hitsFix
                                          docsFix (lit "caching")
                                          worldTwoPosts)
         = Returns rs'
      /\ map Semantic.s_snippet rs <> map Semantic.s_snippet rs'
      /\ map bare rs = map bare rs'.
Proof.
  assert (Hsame : sameProvider netServing netNoGateway)
    by (intros history url authorization inputs; reflexivity).
  split; [exact Hsame|].
  pose proof (@semantic_gateway_decides_snippets_only
                envPublic netServing netNoGateway hitsFix docsFix
                (lit "caching") worldTwoPosts Hsame) as H.
  destruct (fst (SemanticIpfs.semanticSearch envPublic netServing hitsFix
                   docsFix (lit "caching") worldTwoPosts))
    as [rs|e] eqn:E1; [|vm_compute in E1; discriminate E1].
  destruct (fst (SemanticIpfs.semanticSearch envPublic netNoGateway hitsFix
                   docsFix (lit "caching") worldTwoPosts))
    as [rs'|e] eqn:E2; [|vm_compute in E2; discriminate E2].
  exists rs, rs'. split; [reflexivity|]. split; [reflexivity|].
  split; [|exact H].
  vm_compute in E1. injection E1 as <-.
  vm_compute in E2. injection E2 as <-.
  vm_compute. discriminate.
Defined.

(** ** The text that is embedded *)

Lemma rep_greedy_from (p : ascii -> bool) (caps : list jsstring)
      (pos0 : nat) (s : jsstring) :
  forall lo pos,
    rep_greedy p lo None pos s (fun pos' _ => Some (caps, pos' - pos0))
    = if lo <=? run p s then Some (caps, pos + run p s - pos0) else None.
Proof.
  induction s as [|c t IH]; intros lo pos; cbn [rep_greedy run].
  - destruct lo; cbn; [now rewrite Nat.add_0_r|reflexivity].
  - destruct (p c); cbn [andb can_more dec option_map].
    + rewrite IH. destruct lo as [|lo]; cbn [pred Nat.leb Nat.eqb].
      * do 3 f_equal. lia.
      * destruct (lo <=? run p t); [|reflexivity]. do 3 f_equal. lia.
    + destruct lo; cbn; [now rewrite Nat.add_0_r|reflexivity].
Qed.

Lemma match_at_blankLines (pos : nat) (s : jsstring) :
  match_at Embeddings.reBlankLines pos s
  = if 3 <=? run (isChar LF) s
    then Some ([], run (isChar LF) s) else None.
Proof.
  unfold match_at, Embeddings.reBlankLines. cbn [exec node_exec].
  rewrite (rep_greedy_from (isChar LF) [] pos s 3 pos).
  destruct (3 <=? run (isChar LF) s); [|reflexivity]. do 2 f_equal. lia.
Qed.

Lemma run_skipn (p : ascii -> bool) (s : jsstring) :
  run p (skipn (run p s) s) = 0.
Proof.
  induction s as [|c t IH]; cbn [run]; [reflexivity|].
  destruct (p c) eqn:Hc; cbn [skipn run]; [exact IH|now rewrite Hc].
Qed.

(** What the third replacement of [prepareTextForEmbedding] returns has no
    run of line feeds longer than two, and starts with as many line feeds
    as its input, two at most. *)
Lemma blankLines_short (n : nat) :
  forall (s : jsstring) (pos : nat),
    length s <= n ->
    let out := replace_go Embeddings.reBlankLines (Regex.const [LF; LF])
                          pos 0 s in
    short (isChar LF) out
    /\ run (isChar LF) out = Nat.min (run (isChar LF) s) 2.
Proof.
  induction n as [|n IH]; intros s pos Hn; cbv zeta.
  - destruct s; [|cbn in Hn; lia]. cbn [replace_go].
    rewrite match_at_blankLines. cbn. repeat split; lia.
  - destruct s as [|c t].
    + cbn [replace_go]. rewrite match_at_blankLines. cbn. repeat split; lia.
    + cbn [replace_go]. rewrite match_at_blankLines.
      cbn [length] in Hn.
      destruct (Nat.leb_spec 3 (run (isChar LF) (c :: t))) as [H3|H3].
      * cbn [run] in *. destruct (isChar LF c) eqn:Hc; [|lia].
        change (Regex.const [LF; LF] []) with [LF; LF].
        rewrite replace_go_skip by apply run_length.
        destruct (IH (skipn (run (isChar LF) t) t)
                     (S pos + run (isChar LF) t)) as [Hs Hr].
        { rewrite length_skipn. lia. }
        rewrite run_skipn in Hr. cbn [Nat.min] in Hr.
        cbn [app short run]. change (isChar LF LF) with true. cbv iota.
        rewrite Hr. repeat split; try lia; exact Hs.
      * destruct (IH t (S pos)) as [Hs Hr]; [lia|].
        cbn [short run] in *. destruct (isChar LF c) eqn:Hc.
        -- rewrite Hr. repeat split; try lia; exact Hs.
        -- repeat split; try lia; exact Hs.
Qed.

Lemma short_no_triple (s : jsstring) :
  short (isChar LF) s -> ~ occurs [LF; LF; LF] s.
Proof.
  intros Hs (pre & post & ->). revert Hs.
  induction pre as [|c pre IH]; cbn [app short].
  - cbn. intros [H _]. lia.
  - intros [_ H]. now apply IH.
Qed.

Lemma trim_infix (s : jsstring) : exists pre post, s = pre ++ trim s ++ post.
Proof.
  assert (H1 : forall x, exists pre, x = pre ++ trimStart x).
  { induction x as [|c t [pre IH]]; cbn; [now exists []|].
    destruct (isWs c); [exists (c :: pre); cbn; congruence|now exists []]. }
  assert (H2 : forall x, exists post, x = trimEnd x ++ post).
  { induction x as [|c t [post IH]]; cbn; [now exists []|].
    destruct (trimEnd t) as [|d t'] eqn:E.
    - destruct (isWs c); [exists (c :: t); reflexivity|].
      exists post. cbn in *. congruence.
    - exists post. cbn in *. congruence. }
  unfold trim. destruct (H1 s) as (pre & Hpre).
  destruct (H2 (trimStart s)) as (post & Hpost).
  exists pre, post. now rewrite <- Hpost.
Qed.

Lemma occurs_infix (needle s pre post : jsstring) :
  occurs needle s -> occurs needle (pre ++ s ++ post).
Proof.
  intros (a & b & ->). exists (pre ++ a), (b ++ post).
  now rewrite <- !app_assoc.
Qed.

(** X20: the text that is embedded for a document whose content could be
    fetched is its title, an empty line, and a body that neither starts
    nor ends with white space and holds no three line feeds in a row. *)
Theorem prepareTextForEmbedding_shape (title content : jsstring) :
  exists body,
    Embeddings.prepareTextForEmbedding title content
    = title ++ [LF; LF] ++ body
    /\ trim body = body
    /\ ~ occurs [LF; LF; LF] body.
Proof.
  unfold Embeddings.prepareTextForEmbedding.
  eexists. split; [reflexivity|]. split; [apply trim_idempotent|].
  intros Hocc.
  set (s := replaceAll reImages _ _) in *.
  destruct (trim_infix (replaceAll Embeddings.reBlankLines
                                   (Regex.const [LF; LF]) s))
    as (pre & post & E).
  apply (occurs_infix pre post) in Hocc. rewrite <- E in Hocc.
  revert Hocc. apply short_no_triple.
  apply (@blankLines_short (length s) s 0 (le_n _)).
Qed.

(** ** Request budgets *)

Lemma gets_app (a b : list event) : gets (a ++ b) = gets a + gets b.
Proof. unfold gets. now rewrite filter_app, length_app. Qed.

Lemma provider_app (a b : list event) :
  provider (a ++ b) = provider a + provider b.
Proof. unfold provider. now rewrite filter_app, length_app. Qed.

Lemma fetchContentFromIPFS_requests (env : Env) (net : Net) (cid : jsstring)
      (w : World) :
  exists evs,
    snd (Gateway.fetchContentFromIPFS env net cid w) = grown w evs
    /\ gets evs <= 3 /\ provider evs = 0.
Proof.
  destruct cid as [|c cid'].
  - exists []. unfold grown. rewrite app_nil_r.
    split; [destruct w; reflexivity|]. cbn. lia.
  - rewrite (@fetchContentFromIPFS_run env net (c :: cid') w)
      by discriminate.
    unfold tryBlock, catchClause.
    destruct (net (trace w) _) as [r|e].
    + destruct (ok r).
      * destruct (body_text r); cbn [snd fst].
        -- eexists. split; [reflexivity|]. cbn. lia.
        -- destruct (negb _); [destruct (attemptResult _)|]; cbn [snd];
             eexists; (split; [reflexivity|]); cbn; lia.
      * destruct (Gateway.fallbackStatus r).
        -- destruct (attemptResult _); cbn [snd fst].
           ++ eexists. split; [reflexivity|]. cbn. lia.
           ++ destruct (negb _); [destruct (attemptResult _)|]; cbn [snd];
                eexists; (split; [reflexivity|]); cbn; lia.
        -- cbn [snd fst].
           destruct (negb _); [destruct (attemptResult _)|]; cbn [snd];
             eexists; (split; [reflexivity|]); cbn; lia.
    + cbn [snd fst].
      destruct (negb _); [destruct (attemptResult _)|]; cbn [snd];
        eexists; (split; [reflexivity|]); cbn; lia.
Qed.

Lemma generateEmbedding_requests (env : Env) (net : Net) (text : jsstring)
      (w : World) :
  exists evs,
    snd (Embeddings.generateEmbedding env net text w) = grown w evs
    /\ gets evs = 0 /\ provider evs <= 1.
Proof.
  assert (H0 : w = grown w [])
    by (unfold grown; rewrite app_nil_r; destruct w; reflexivity).
  unfold Embeddings.generateEmbedding.
  destruct (HUGGINGFACE_API_KEY env) as [[|c key]|];
    try (exists []; split; [exact H0|cbn; lia]).
  unfold bind, fetch, await, throw, Embeddings.v_array_float64, ret.
  destruct (net _ _) as [r|e];
    [|eexists; split; [reflexivity|cbn; lia]].
  destruct (ok r); cbn [negb].
  - destruct (body_json r) as [[| | | |[|j items]|]|];
      try (eexists; split; [reflexivity|cbn; lia]).
    destruct (Embeddings.floats _); eexists; (split; [reflexivity|cbn; lia]).
  - destruct (body_text r); eexists; (split; [reflexivity|cbn; lia]).
Qed.

Lemma attemptBlock_requests {A} (env : Env) (net : Net) (k : Embeddings.kind)
      (post : Embeddings.pending) (done : A) (w : World) :
  exists evs,
    trace (snd (attemptBlock env net k post done w)) = trace w ++ evs
    /\ gets evs <= 3 /\ provider evs <= 1.
Proof.
  unfold attemptBlock.
  assert (Hsave : forall text evs1,
             gets evs1 <= 3 -> provider evs1 = 0 ->
             exists evs,
               trace (snd ((embedding <-
                              Embeddings.generateEmbedding env net text ;;
                            Embeddings.saveEmbedding
                              k (Embeddings.p_id post) embedding ;;
                            ret done)%js (grown w evs1)))
               = trace w ++ evs
               /\ gets evs <= 3 /\ provider evs <= 1).
  { intros text evs1 Hg Hp. unfold bind at 1.
    destruct (generateEmbedding_requests env net text (grown w evs1))
      as (evs2 & Hw2 & Hg2 & Hp2).
    destruct (Embeddings.generateEmbedding env net text (grown w evs1))
      as [[v|e2] w2]; cbn [snd] in Hw2; subst w2; rewrite grown_grown.
    - unfold bind at 1, Embeddings.saveEmbedding. rewrite table_grown.
      exists (evs1 ++ evs2). rewrite gets_app, provider_app.
      split; [|lia].
      destruct (existsb _ (Embeddings.table k w)); cbn [ret snd];
        [now rewrite trace_set_table|reflexivity].
    - exists (evs1 ++ evs2). rewrite gets_app, provider_app.
      split; [reflexivity|lia]. }
  unfold bind at 1. unfold try_catch at 1.
  destruct (fetchContentFromIPFS_requests env net
              (Embeddings.p_contentCid post) w) as (evs1 & Hw1 & Hg1 & Hp1).
  destruct (Gateway.fetchContentFromIPFS env net (Embeddings.p_contentCid post) w)
    as [[content|e1] w1]; cbn [snd] in Hw1; subst w1.
  - cbv zeta. now apply Hsave.
  - unfold bind at 1. unfold emit at 1. unfold ret at 1.
    rewrite grown_emit. cbn [truthy]. cbv zeta. apply Hsave.
    + rewrite gets_app. cbn. lia.
    + rewrite provider_app. cbn. lia.
Qed.

Lemma embedOne_requests (env : Env) (net : Net) (k : Embeddings.kind)
      (processed : nat) (post : Embeddings.pending) (w : World) :
  exists evs,
    trace (snd (Embeddings.embedOne env net k processed post w))
    = trace w ++ evs
    /\ gets evs <= 3 /\ provider evs <= 1.
Proof.
  rewrite embedOne_block. unfold try_catch.
  destruct (attemptBlock_requests env net k post (S processed) w)
    as (evs & Ht & Hg & Hp).
  destruct (attemptBlock env net k post (S processed) w) as [[n|e] w1];
    cbn [snd] in *.
  - now exists evs.
  - unfold bind, emit, ret. cbn [snd trace]. rewrite Ht.
    exists (evs ++ [ConsoleError
                      (Embeddings.embedFailedMsg k (Embeddings.p_id post))
                      (Some e)]).
    rewrite <- app_assoc, gets_app, provider_app. cbn.
    split; [reflexivity|lia].
Qed.

Lemma backfill_requests (env : Env) (net : Net) (k : Embeddings.kind)
      (batch : list Embeddings.pending) :
  forall n w,
    exists evs,
      trace (snd (forEach batch n (Embeddings.embedOne env net k) w))
      = trace w ++ evs
      /\ gets evs <= 3 * length batch
      /\ provider evs <= length batch.
Proof.
  induction batch as [|p rest IH]; intros n w; cbn [forEach].
  - exists []. rewrite app_nil_r. cbn. auto.
  - unfold bind.
    destruct (embedOne_requests env net k n p w) as (evs1 & Ht1 & Hg1 & Hp1).
    destruct (embedOne_frame env net k n p w)
      as (n1 & w1 & _ & E & _).
    rewrite E in *. cbn [snd] in Ht1.
    destruct (IH n1 w1) as (evs2 & Ht2 & Hg2 & Hp2).
    exists (evs1 ++ evs2). rewrite gets_app, provider_app.
    rewrite Ht2, Ht1, app_assoc. cbn [length]. split; [reflexivity|lia].
Qed.

(** X21: the request budget of the backfill.  One run of
    [generatePostEmbeddings] or of [generatePageEmbeddings] sends at most
    thirty requests to the gateways and at most ten to the provider,
    whatever they answer. *)
Theorem backfill_request_budget
        (env : Env) (net : Net) (k : Embeddings.kind) (w : World) :
  let evs := newEvents w (snd (Embeddings.generateEmbeddings env net k w)) in
  gets evs <= 30 /\ provider evs <= 10.
Proof.
  cbv zeta.
  unfold Embeddings.generateEmbeddings, bind, Embeddings.getWithoutEmbeddings.
  destruct (backfill_requests env net k
              (Embeddings.withoutEmbeddings (Embeddings.table k w) 10) 0 w)
    as (evs & Ht & Hg & Hp).
  assert (Hlen : length (Embeddings.withoutEmbeddings (Embeddings.table k w) 10)
                 <= 10).
  { rewrite withoutEmbeddings_firstn, length_map, length_firstn. lia. }
  unfold newEvents. rewrite Ht, skipn_app, skipn_all, Nat.sub_diag.
  cbn [skipn app]. lia.
Qed.

Lemma grown_nil (w : World) : grown w [] = w.
Proof. unfold grown. rewrite app_nil_r. now destruct w. Qed.

Section SearchBudget.

Variable env : Env.
Variable net : Net.
Variable searchIndex : Embeddings.kind -> jsstring -> list doc.
Variable getAll : Embeddings.kind -> list doc.
Variable getBySlug : Embeddings.kind -> jsstring -> option doc.
Variable query : jsstring.

Lemma search_fetch_requests (cid : jsstring) (w : World) :
  exists evs,
    snd (Search.fetchContentFromIPFS env net cid w) = grown w evs
    /\ gets evs <= 1 /\ provider evs = 0.
Proof.
  unfold Search.fetchContentFromIPFS.
  destruct (negb (truthy cid)).
  - exists []. rewrite grown_nil. cbn. auto.
  - unfold try_catch, bind, fetch, await, throw.
    destruct (net _ _) as [r|e].
    + destruct (negb (ok r)); [|destruct (body_text r)];
        eexists; (split; [reflexivity|cbn; lia]).
    + eexists. split; [reflexivity|cbn; lia].
Qed.

Lemma contentStep_requests (k : Embeddings.kind)
      (st : list jsstring * list Search.searchResult) (d : doc) (w : World) :
  exists st' evs,
    Search.contentStep env net getBySlug k query st d w
    = (Returns st', grown w evs)
    /\ gets evs <= 1 /\ provider evs = 0.
Proof.
  destruct st as [ids rs]. unfold Search.contentStep.
  assert (H0 : exists st' evs,
             (Returns (ids, rs), w) = (Returns st', grown w evs)
             /\ gets evs <= 1 /\ provider evs = 0).
  { exists (ids, rs), []. rewrite grown_nil. cbn. auto. }
  destruct (Search.has ids (_id d) || _); [exact H0|].
  unfold try_catch.
  destruct (getBySlug k (slug d)) as [full|]; [|exact H0].
  destruct (negb (truthy (contentCid full))); [exact H0|].
  unfold bind at 1.
  destruct (search_fetch_requests (contentCid full) w)
    as (evs & Hw & Hg & Hp).
  destruct (Search.fetchContentFromIPFS env net (contentCid full) w)
    as [[content|e] w1]; cbn [snd] in Hw; subst w1.
  - destruct (includes _ _ || _); cbn [ret]; eexists; exists evs; auto.
  - unfold bind, emit, ret. rewrite grown_emit.
    eexists; eexists. split; [reflexivity|].
    rewrite gets_app, provider_app. cbn. lia.
Qed.

Lemma content_loop_requests (k : Embeddings.kind) (ds : list doc) :
  forall st w,
    exists st' evs,
      forEach ds st (Search.contentStep env net getBySlug k query) w
      = (Returns st', grown w evs)
      /\ gets evs <= length ds /\ provider evs = 0.
Proof.
  induction ds as [|d ds IH]; intros st w; cbn [forEach].
  - exists st, []. rewrite grown_nil. cbn. auto.
  - unfold bind.
    destruct (contentStep_requests k st d w) as (st1 & evs1 & -> & Hg1 & Hp1).
    destruct (IH st1 (grown w evs1)) as (st2 & evs2 & -> & Hg2 & Hp2).
    exists st2, (evs1 ++ evs2). rewrite grown_grown, gets_app, provider_app.
    cbn [length]. split; [reflexivity|lia].
Qed.

(** X22: the request budget of the keyword search.  [search] sends at most
    one request per published post and page, all of them to the gateway,
    and leaves the store as it is. *)
Theorem search_request_budget (w : World) :
  let w' := snd (Search.search env net searchIndex getAll getBySlug query w) in
  gets (newEvents w w')
  <= length (getAll Embeddings.KPost) + length (getAll Embeddings.KPage)
  /\ provider (newEvents w w') = 0
  /\ posts w' = posts w /\ pages w' = pages w.
Proof.
  cbv zeta.
  assert (H : exists evs,
             snd (Search.search env net searchIndex getAll getBySlug query w)
             = grown w evs
             /\ gets evs
                <= length (getAll Embeddings.KPost)
                   + length (getAll Embeddings.KPage)
             /\ provider evs = 0).
  { unfold Search.search.
    destruct (negb (truthy (trim query))).
    - exists []. rewrite grown_nil. cbn. repeat split. lia.
    - unfold Search.collect, bind at 1. unfold bind at 1.
      destruct (content_loop_requests Embeddings.KPost
                  (getAll Embeddings.KPost)
                  (map Search.r_id (Search.searchTitleOnly searchIndex query),
                   Search.searchTitleOnly searchIndex query) w)
        as (st1 & evs1 & -> & Hg1 & Hp1).
      unfold bind at 1.
      destruct (content_loop_requests Embeddings.KPage
                  (getAll Embeddings.KPage) st1 (grown w evs1))
        as (st2 & evs2 & -> & Hg2 & Hp2).
      cbn [ret snd]. rewrite grown_grown. exists (evs1 ++ evs2).
      rewrite gets_app, provider_app. split; [reflexivity|lia]. }
  destruct H as (evs & -> & Hg & Hp). unfold grown.
  rewrite newEvents_app. cbn [posts pages]. auto.
Qed.

End SearchBudget.

(** ** Heading offsets *)

(** A line the heading pattern matches starts with [#]. *)
Lemma heading_line_starts (line : jsstring) (caps : list jsstring) :
  matchFirst SearchSnippet.reHeading line = Some caps ->
  exists t, line = "#"%char :: t.
Proof.
  unfold matchFirst. destruct line as [|c t]; cbn [match_go].
  - intros H. vm_compute in H. discriminate H.
  - destruct (hash c) eqn:Hc.
    + intros _. exists t. unfold hash, isChar in Hc.
      apply Ascii.eqb_eq in Hc. now subst c.
    + assert (E : match_at SearchSnippet.reHeading 0 (c :: t) = None).
      { unfold match_at, SearchSnippet.reHeading.
        cbn [exec node_exec rep_greedy Nat.eqb]. now rewrite Hc. }
      rewrite E, match_go_heading_later. discriminate.
Qed.

Lemma firstLine_head (cur s t : jsstring) :
  rev cur ++ firstLine s = "#"%char :: t ->
  cur = [] -> nth_error s 0 = Some "#"%char.
Proof.
  intros H ->. cbn [rev app] in H.
  destruct s as [|c s']; cbn [firstLine] in H; [discriminate H|].
  destruct (Ascii.eqb c LF); [discriminate H|].
  injection H as -> _. reflexivity.
Qed.

(** Where the headings of the lines of [s] lie, [cur] being the part of
    the first line read so far (in reverse) and [pos] the offset of that
    line: at [pos], the first line then being a heading, or right after a
    line feed of [s]. *)
Lemma collectHeadings_split (s : jsstring) :
  forall (cur : jsstring) (pos : nat) (h : SearchSnippet.heading),
    In h (SearchSnippet.collectHeadings (split_on LF cur s) pos) ->
    (SearchSnippet.position h = pos
     /\ exists t, rev cur ++ firstLine s = "#"%char :: t)
    \/ (exists i,
           SearchSnippet.position h = pos + length cur + S i
           /\ nth_error s i = Some LF
           /\ nth_error s (S i) = Some "#"%char).
Proof.
  induction s as [|c t IH]; intros cur pos h; cbn [split_on firstLine].
  - cbn [SearchSnippet.collectHeadings]. rewrite app_nil_r.
    destruct (matchFirst SearchSnippet.reHeading (rev cur)) as [caps|] eqn:E;
      [|intros []].
    intros [<-|[]]. left. split; [reflexivity|].
    eapply heading_line_starts, E.
  - destruct (Ascii.eqb c LF) eqn:Hc.
    + apply Ascii.eqb_eq in Hc. subst c. rewrite app_nil_r.
      cbn [SearchSnippet.collectHeadings].
      assert (Hlater : In h (SearchSnippet.collectHeadings
                               (split_on LF [] t)
                               (pos + length (rev cur) + 1)) ->
                       exists i,
                         SearchSnippet.position h = pos + length cur + S i
                         /\ nth_error (LF :: t) i = Some LF
                         /\ nth_error (LF :: t) (S i) = Some "#"%char).
      { intros Hin. apply IH in Hin. rewrite length_rev in Hin.
        destruct Hin as [(Hp & t' & Ht')|(i & Hp & Hi & Hi')].
        - exists 0. split; [lia|]. split; [reflexivity|].
          cbn [nth_error].
          now apply (@firstLine_head [] t t' Ht').
        - exists (S i). cbn [length] in Hp.
          split; [lia|]. split; assumption. }
      destruct (matchFirst SearchSnippet.reHeading (rev cur)) as [caps|] eqn:E.
      * intros [<-|Hin]; [|right; now apply Hlater].
        left. split; [reflexivity|]. eapply heading_line_starts, E.
      * intros Hin. right. now apply Hlater.
    + intros Hin. apply IH in Hin.
      destruct Hin as [(Hp & t' & Ht')|(i & Hp & Hi & Hi')].
      * left. split; [exact Hp|]. exists t'.
        cbn [rev] in Ht'. now rewrite <- app_assoc in Ht'.
      * right. exists (S i). cbn [length] in Hp.
        split; [lia|]. split; assumption.
Qed.

(** X23: every heading [findNearestHeading] collects has, as its position,
    an offset into the original markdown at which a line starts (offset 0,
    or right after a line feed) and at which the code unit is [#]; its id
    is the slug of its text.  The converse does not hold: a line that
    starts with [#] is collected only if it is a heading line
    ([headingLine]). *)
Theorem heading_offsets (content : jsstring) (h : SearchSnippet.heading) :
  In h (headingsOf content) ->
  nth_error content (SearchSnippet.position h) = Some "#"%char
  /\ (SearchSnippet.position h = 0
      \/ exists i, SearchSnippet.position h = S i
                   /\ nth_error content i = Some LF)
  /\ SearchSnippet.id h
     = SearchSnippet.generateSlug (SearchSnippet.text h).
Proof.
  intros Hin. split; [|split].
  - apply collectHeadings_split in Hin.
    destruct Hin as [(-> & t & Ht)|(i & -> & _ & Hi)].
    + now apply (@firstLine_head [] content t Ht).
    + exact Hi.
  - apply collectHeadings_split in Hin.
    destruct Hin as [(-> & _)|(i & -> & Hi & _)]; [now left|right].
    exists i. split; [reflexivity|exact Hi].
  - pose proof (collectHeadings_ids (splitLines content) 0) as H.
    rewrite Forall_forall in H. rewrite generateSlug_slugOf.
    now apply H.
Qed.

Lemma heading_offsets_witness :
  exists h,
    In h (headingsOf (lit "intro" ++ nl ++ mdCSharp))
    /\ SearchSnippet.position h = 6
    /\ nth_error (lit "intro" ++ nl ++ mdCSharp) 6 = Some "#"%char.
Proof.
  assert (H : exists h, In h (headingsOf (lit "intro" ++ nl ++ mdCSharp))
                        /\ SearchSnippet.position h = 6).
  { eexists. split; [vm_compute; left; reflexivity|reflexivity]. }
  destruct H as (h & Hin & Hp). exists h. split; [exact Hin|].
  split; [exact Hp|]. rewrite <- Hp.
  apply (heading_offsets _ h Hin).
Defined.

(** ** Import: slugs and clean-up *)

Lemma replace_alt_go_skip (rs : list regex) (tpl : list jsstring -> jsstring)
      (n : nat) :
  forall (s : jsstring) (pos : nat),
    n <= length s ->
    ImportAction.replace_alt_go rs tpl pos n s
    = ImportAction.replace_alt_go rs tpl (pos + n) 0 (skipn n s).
Proof.
  induction n as [|n IH]; intros s pos Hn.
  - now rewrite Nat.add_0_r.
  - destruct s as [|c t]; [cbn in Hn; lia|].
    cbn [ImportAction.replace_alt_go skipn]. rewrite IH by (cbn in Hn; lia).
    f_equal. lia.
Qed.

Lemma match_alt_edgeDash_later (pos : nat) (s : jsstring) :
  ImportAction.match_alt ImportAction.reEdgeDash (S pos) s
  = match s with
    | [c] => if isChar "-" c then Some ([], 1) else None
    | _ => None
    end.
Proof.
  unfold ImportAction.reEdgeDash, ImportAction.match_alt, match_at.
  cbn [exec node_exec Nat.eqb].
  destruct s as [|c [|d t]]; try reflexivity.
  - destruct (isChar "-" c); [|reflexivity]. do 2 f_equal. lia.
  - destruct (isChar "-" c); reflexivity.
Qed.

Lemma match_alt_edgeDash_first (s : jsstring) :
  ImportAction.match_alt ImportAction.reEdgeDash 0 s
  = match s with
    | c :: _ => if isChar "-" c then Some ([], 1) else None
    | [] => None
    end.
Proof.
  unfold ImportAction.reEdgeDash, ImportAction.match_alt, match_at.
  cbn [exec node_exec Nat.eqb].
  destruct s as [|c t]; [reflexivity|].
  destruct (isChar "-" c); [reflexivity|]. now destruct t.
Qed.

Lemma edgeDash_later (s : jsstring) :
  forall pos,
    ImportAction.replace_alt_go ImportAction.reEdgeDash (Regex.const [])
                                (S pos) 0 s
    = dropLastDash s.
Proof.
  induction s as [|c t IH]; intros pos;
    cbn [ImportAction.replace_alt_go dropLastDash];
    rewrite match_alt_edgeDash_later; [reflexivity|].
  destruct t as [|d t'].
  - destruct (isChar "-" c); cbn [Regex.const app ImportAction.replace_alt_go];
      now rewrite match_alt_edgeDash_later.
  - f_equal. apply IH.
Qed.

Lemma edgeDash_all (s : jsstring) :
  ImportAction.replaceAllAlt ImportAction.reEdgeDash (Regex.const []) s
  = dropLastDash (dropFirstDash s).
Proof.
  unfold ImportAction.replaceAllAlt.
  destruct s as [|c t]; cbn [ImportAction.replace_alt_go dropFirstDash];
    rewrite match_alt_edgeDash_first; [reflexivity|].
  destruct (isChar "-" c) eqn:Hc.
  - cbn [Regex.const app]. apply edgeDash_later.
  - rewrite edgeDash_later. cbn [dropLastDash]. rewrite Hc.
    destruct t; [|reflexivity]. cbn. reflexivity.
Qed.

Lemma substring_0 {A} (s : list A) (n : Z) :
  (0 <= n)%Z -> ImportAction.substring s 0 n = firstn (Z.to_nat n) s.
Proof.
  intros Hn. unfold ImportAction.substring.
  set (len := Z.of_nat (length s)).
  assert (Hlen : (0 <= len)%Z) by (unfold len; lia).
  replace (Z.min (Z.max 0 0) len) with 0%Z by lia.
  replace (Z.min (Z.max n 0) len) with (Z.min n len) by lia.
  replace (Z.min 0 (Z.min n len)) with 0%Z by lia.
  replace (Z.max 0 (Z.min n len)) with (Z.min n len) by lia.
  cbn [Z.to_nat skipn]. rewrite Z.sub_0_r.
  destruct (Z_le_gt_dec n len).
  - now rewrite Z.min_l by lia.
  - rewrite Z.min_r by lia. unfold len. rewrite Nat2Z.id.
    rewrite !firstn_all2; [reflexivity|lia|lia].
Qed.

Lemma slug_chain (title : jsstring) :
  replaceAll SearchSnippet.reDashes (Regex.const (lit "-"))
    (replaceAll reSpaces (Regex.const (lit "-"))
       (replaceAll SearchSnippet.reNotSlug (Regex.const [])
          (toLowerCase title)))
  = SearchSnippet.generateSlug title.
Proof.
  unfold SearchSnippet.generateSlug. symmetry.
  unfold SearchSnippet.reNotSlug, SearchSnippet.reDashes, reSpaces.
  rewrite replaceAll_delete, !replaceAll_plus.
  apply trim_no_ws, collapse_Forall; [repeat constructor|].
  apply collapse_clears. repeat constructor.
Qed.

Lemma dropLastDash_Forall (P : ascii -> Prop) (s : jsstring) :
  Forall P s -> Forall P (dropLastDash s).
Proof.
  induction 1 as [|c t Hc Ht IH]; cbn [dropLastDash]; [constructor|].
  destruct t; [destruct (isChar "-" c); auto|auto].
Qed.

Lemma dropFirstDash_Forall (P : ascii -> Prop) (s : jsstring) :
  Forall P s -> Forall P (dropFirstDash s).
Proof.
  destruct 1 as [|c t Hc Ht]; cbn; [constructor|].
  destruct (isChar "-" c); auto.
Qed.

Lemma startsWith_dash (s : jsstring) :
  startsWith (lit "-") s
  = match s with c :: _ => isChar "-" c | [] => false end.
Proof.
  destruct s as [|c t]; [reflexivity|].
  cbn [lit String.list_ascii_of_string startsWith].
  unfold isChar. now rewrite andb_true_r, Ascii.eqb_sym.
Qed.

(** X24: the slug [importAction.ts] makes of a title is the heading id
    [search.ts] makes of it, without the hyphen at its start and the one
    at its end, cut to sixty code units.  So it is made of [a-z], [0-9]
    and [-] only and never starts with [-]. *)
Theorem import_slug (title : jsstring) :
  ImportAction.generateSlug title
  = firstn 60 (dropLastDash
                 (dropFirstDash (SearchSnippet.generateSlug title)))
  /\ length (ImportAction.generateSlug title) <= 60
  /\ Forall (fun c => isSlugChar c = true) (ImportAction.generateSlug title)
  /\ startsWith (lit "-") (ImportAction.generateSlug title) = false.
Proof.
  assert (E : ImportAction.generateSlug title
              = firstn 60 (dropLastDash
                             (dropFirstDash
                                (SearchSnippet.generateSlug title)))).
  { unfold ImportAction.generateSlug.
    now rewrite slug_chain, edgeDash_all, substring_0 by lia. }
  split; [exact E|]. rewrite E. split; [rewrite length_firstn; lia|].
  rewrite generateSlug_slugOf.
  pose proof (slugOf_chars title) as Hc.
  assert (Hs : single dash false (slugOf title))
    by (unfold slugOf; now apply collapse_single).
  split.
  - now apply Forall_firstn, dropLastDash_Forall, dropFirstDash_Forall.
  - rewrite startsWith_dash.
    assert (Hd : match dropFirstDash (slugOf title) with
                 | c :: _ => isChar "-" c
                 | [] => false
                 end = false).
    { destruct (slugOf title) as [|c t]; [reflexivity|].
      cbn [dropFirstDash]. cbn [single] in Hs. unfold dash in Hs.
      destruct (isChar "-" c) eqn:Hc1; [|exact Hc1].
      destruct Hs as [_ Hs]. destruct t as [|d t]; [reflexivity|].
      cbn [single] in Hs.
      destruct (isChar "-" d); [destruct Hs; discriminate|reflexivity]. }
    destruct (dropFirstDash (slugOf title)) as [|c [|d t]];
      cbn [dropLastDash firstn]; [reflexivity| |exact Hd].
    rewrite Hd. cbn [firstn]. exact Hd.
Qed.

Lemma rep_greedy_eos (p : ascii -> bool) (caps : list jsstring)
      (pos0 : nat) (s : jsstring) :
  forall lo pos,
    rep_greedy p lo None pos s
      (fun pos' s' => match s' with
                      | [] => Some (caps, pos' - pos0)
                      | _ :: _ => None
                      end)
    = if forallb p s && (lo <=? length s)
      then Some (caps, pos + length s - pos0) else None.
Proof.
  induction s as [|c t IH]; intros lo pos; cbn [rep_greedy forallb length].
  - destruct lo; cbn; [now rewrite Nat.add_0_r|reflexivity].
  - destruct (p c); cbn [andb can_more dec option_map].
    + rewrite IH.
      replace (pred lo <=? length t) with (lo <=? S (length t))
        by (destruct lo; reflexivity).
      destruct (forallb p t && (lo <=? S (length t)));
        [do 3 f_equal; lia|].
      now destruct (lo =? 0).
    + now destruct (lo =? 0).
Qed.

Lemma match_alt_edgeSpace_later (pos : nat) (s : jsstring) :
  ImportAction.match_alt ImportAction.reEdgeSpace (S pos) s
  = if forallb isWs s && (1 <=? length s)
    then Some ([], length s) else None.
Proof.
  unfold ImportAction.reEdgeSpace, ImportAction.match_alt, match_at, Plus.
  cbn [exec node_exec Nat.eqb].
  rewrite (rep_greedy_eos isWs [] (S pos) s 1 (S pos)).
  destruct (forallb isWs s && _); [|reflexivity]. do 2 f_equal. lia.
Qed.

Lemma match_alt_edgeSpace_first (c : ascii) (t : jsstring) :
  ImportAction.match_alt ImportAction.reEdgeSpace 0 (c :: t)
  = if isWs c then Some ([], S (run isWs t)) else None.
Proof.
  unfold ImportAction.reEdgeSpace, ImportAction.match_alt.
  change (match_at [Bos; Plus isWs] 0 (c :: t))
    with (match_at [Plus isWs] 0 (c :: t)).
  rewrite match_at_plus.
  destruct (isWs c) eqn:Hc; [reflexivity|].
  unfold match_at, Plus. cbn [exec node_exec].
  rewrite (rep_greedy_eos isWs [] 0 (c :: t) 1 0).
  cbn [forallb]. now rewrite Hc.
Qed.

Lemma trimEnd_blank (s : jsstring) : forallb isWs s = true -> trimEnd s = [].
Proof.
  induction s as [|c t IH]; cbn; [reflexivity|].
  intros H. apply andb_true_iff in H. destruct H as [Hc Ht].
  now rewrite (IH Ht), Hc.
Qed.

Lemma trimEnd_cons (c : ascii) (t : jsstring) :
  forallb isWs (c :: t) = false -> trimEnd (c :: t) = c :: trimEnd t.
Proof.
  cbn [forallb trimEnd]. intros H.
  destruct (trimEnd t) as [|d t'] eqn:E; [|reflexivity].
  destruct (isWs c) eqn:Hc; [|reflexivity].
  cbn [andb] in H. exfalso. clear Hc.
  assert (Hall : forall x, trimEnd x = [] -> forallb isWs x = true).
  { induction x as [|a x IHx]; cbn; [reflexivity|].
    destruct (trimEnd x); [|discriminate].
    destruct (isWs a); [intros _; now apply IHx|discriminate]. }
  rewrite (Hall t E) in H. discriminate.
Qed.

Lemma edgeSpace_nil (pos : nat) :
  ImportAction.replace_alt_go ImportAction.reEdgeSpace (Regex.const [])
                              pos 0 []
  = [].
Proof. destruct pos; reflexivity. Qed.

Lemma edgeSpace_later (s : jsstring) :
  forall pos,
    ImportAction.replace_alt_go ImportAction.reEdgeSpace (Regex.const [])
                                (S pos) 0 s
    = trimEnd s.
Proof.
  induction s as [|c t IH]; intros pos;
    cbn [ImportAction.replace_alt_go];
    rewrite match_alt_edgeSpace_later; [reflexivity|].
  destruct (forallb isWs (c :: t)) eqn:Hall; cbn [andb length Nat.leb].
  - cbn [Regex.const app].
    rewrite replace_alt_go_skip, skipn_all by lia.
    rewrite edgeSpace_nil. now rewrite trimEnd_blank.
  - rewrite IH. symmetry. now apply trimEnd_cons.
Qed.

Lemma edgeSpace_all (s : jsstring) :
  ImportAction.replaceAllAlt ImportAction.reEdgeSpace (Regex.const []) s
  = trim s.
Proof.
  unfold ImportAction.replaceAllAlt, trim.
  destruct s as [|c t]; [reflexivity|].
  cbn [ImportAction.replace_alt_go]. rewrite match_alt_edgeSpace_first.
  destruct (isWs c) eqn:Hc.
  - cbn [Regex.const app trimStart]. rewrite Hc.
    rewrite replace_alt_go_skip by apply run_length.
    cbn [Nat.add]. rewrite edgeSpace_later. now rewrite trimStart_skipn.
  - cbn [trimStart]. rewrite Hc, edgeSpace_later. symmetry.
    apply trimEnd_cons. cbn. now rewrite Hc.
Qed.

(** X25: [cleanMarkdown] trims the content and then turns every run of
    three or more line feeds into two: what it returns holds no three line
    feeds in a row, and a content made of white space only becomes the
    empty string. *)
Theorem cleanMarkdown_normalises (content : jsstring) :
  ImportAction.cleanMarkdown content
  = replaceAll Embeddings.reBlankLines (Regex.const [LF; LF]) (trim content)
  /\ ~ occurs [LF; LF; LF] (ImportAction.cleanMarkdown content)
  /\ (blank content -> ImportAction.cleanMarkdown content = []).
Proof.
  assert (E : ImportAction.cleanMarkdown content
              = replaceAll Embeddings.reBlankLines (Regex.const [LF; LF])
                           (trim content))
    by (unfold ImportAction.cleanMarkdown; now rewrite edgeSpace_all).
  split; [exact E|]. rewrite E. split.
  - apply short_no_triple.
    apply (@blankLines_short (length (trim content)) (trim content) 0
                             (le_n _)).
  - intros Hb. apply trim_blank in Hb.
    destruct (trim content); [reflexivity|discriminate].
Qed.

Lemma cleanMarkdown_normalises_witness :
  ImportAction.cleanMarkdown ([LF; LF] ++ lit "   ") = [].
Proof.
  apply (cleanMarkdown_normalises ([LF; LF] ++ lit "   ")).
  repeat constructor.
Defined.

(** X26: [importFromUrl] never reports a success, whatever the scraper
    returns: the handler throws after a successful scrape, its own [catch]
    turns that into a failure, and every result carries an error text and
    neither slug nor title. *)
Theorem importFromUrl_never_succeeds
        (FIRECRAWL_API_KEY : option jsstring)
        (scrapeUrl : jsstring -> jsstring -> outcome ImportAction.scrapeResult)
        (hostnameOf : jsstring -> outcome jsstring)
        (now url : jsstring) :
  let r := ImportAction.importFromUrl FIRECRAWL_API_KEY scrapeUrl hostnameOf
                                      now url in
  ImportAction.success r = false
  /\ ImportAction.slug r = None
  /\ ImportAction.title r = None
  /\ ImportAction.error r <> None.
Proof.
  cbv zeta. unfold ImportAction.importFromUrl, ImportAction.attempt.
  destruct FIRECRAWL_API_KEY as [[|c key]|];
    try (cbn; repeat split; discriminate).
  destruct (scrapeUrl (c :: key) url) as [result|[m|v]];
    try (cbn; repeat split; discriminate).
  destruct (negb (ImportAction.sr_success result) || _);
    cbn; repeat split; discriminate.
Qed.

(** ** What a fetch returns *)

Lemma attemptResult_returns (net : Net) (history : list event)
      (url body : jsstring) :
  attemptResult (net history (Get url)) = Returns body ->
  served net history url body.
Proof.
  unfold served. destruct (net history (Get url)) as [r|e]; cbn;
    [|discriminate].
  destruct (ok r) eqn:Hok; [|discriminate]. intros H. now exists r.
Qed.

Ltac last_request before :=
  exists before; eexists;
  split; [rewrite newEvents_app; cbn [app]; reflexivity|];
  split; [rewrite ?app_nil_r;
          first [eapply attemptResult_returns; eassumption
                |eexists; eauto]
         |auto 6].

Ltac by_fallback before :=
  destruct (negb _); [|cbn [fst]; discriminate];
  let E := fresh "E" in
  match goal with
  | |- context [attemptResult ?o] => destruct (attemptResult o) eqn:E
  end;
  cbn [fst snd]; [|discriminate];
  intros H; injection H as <-; last_request before.

(** X27: the content [fetchContentFromIPFS] returns is the body of the
    answer to the last request the call made, an answer with a success
    status.  With the fallback ([embeddings.ts], [semanticSearch.ts]) that
    request is the first one and goes to the primary endpoint, or it goes
    to the public endpoint and follows one request to the primary endpoint
    and at most one to the public one; without ([search.ts]) it is the only
    request and goes to the configured endpoint.  The requests made before
    it are part of what the endpoint answered to. *)
Theorem fetch_returns_served_content
        (env : Env) (net : Net) (cid : jsstring) (w : World)
        (body : jsstring) :
  (fst (Gateway.fetchContentFromIPFS env net cid w) = Returns body ->
   cid <> []
   /\ exists before url,
       newEvents w (snd (Gateway.fetchContentFromIPFS env net cid w))
       = before ++ [Fetch (Get url)]
       /\ served net (trace w ++ before) url body
       /\ ((before = [] /\ url = Gateway.gatewayUrl env cid)
           \/ (url = Gateway.publicGatewayUrl cid
               /\ (before = [Fetch (Get (Gateway.gatewayUrl env cid))]
                   \/ before = [Fetch (Get (Gateway.gatewayUrl env cid));
                                Fetch (Get (Gateway.publicGatewayUrl cid))]))))
  /\ (fst (Search.fetchContentFromIPFS env net cid w) = Returns body ->
      cid <> []
      /\ newEvents w (snd (Search.fetchContentFromIPFS env net cid w))
         = [Fetch (Get (Search.getIPFSGatewayUrl env ++ lit "/ipfs/" ++ cid))]
      /\ served net (trace w)
                (Search.getIPFSGatewayUrl env ++ lit "/ipfs/" ++ cid) body).
Proof.
  split.
  - destruct cid as [|c cid']; [cbn; discriminate|].
    intros H. split; [discriminate|]. revert H.
    rewrite (@fetchContentFromIPFS_run env net (c :: cid') w)
      by discriminate.
    unfold tryBlock, catchClause, grown.
    set (u1 := Gateway.gatewayUrl env (c :: cid')).
    set (u2 := Gateway.publicGatewayUrl (c :: cid')).
    destruct (net (trace w) (Get u1)) as [r|e] eqn:E1.
    + destruct (ok r) eqn:Hok.
      * destruct (body_text r) as [b|e] eqn:Hb; cbn [fst snd].
        -- intros H; injection H as <-. last_request (@nil event).
        -- by_fallback [Fetch (Get u1)].
      * destruct (Gateway.fallbackStatus r).
        -- destruct (attemptResult _) eqn:E2; cbn [fst snd].
           ++ intros H; injection H as <-. last_request [Fetch (Get u1)].
           ++ by_fallback [Fetch (Get u1); Fetch (Get u2)].
        -- cbn [fst snd]. by_fallback [Fetch (Get u1)].
    + cbn [fst snd]. by_fallback [Fetch (Get u1)].
  - destruct cid as [|c cid']; [cbn; discriminate|].
    intros H. split; [discriminate|]. revert H.
    unfold Search.fetchContentFromIPFS. cbn [truthy negb].
    unfold try_catch, bind, fetch, await, throw, served.
    destruct (net (trace w) _) as [r|e]; cbn [fst snd]; [|discriminate].
    destruct (ok r) eqn:Hok; cbn [negb fst snd]; [|discriminate].
    destruct (body_text r) as [b|e] eqn:Hb; cbn [fst snd];
      [|discriminate].
    intros H; injection H as <-. split.
    + apply newEvents_app.
    + now exists r.
Qed.

Lemma fetch_returns_served_content_witness :
  exists before url,
    newEvents emptyWorld
      (snd (Gateway.fetchContentFromIPFS envCustom netServerError cid1
                                         emptyWorld))
    = before ++ [Fetch (Get url)]
    /\ served netServerError (trace emptyWorld ++ before) url (lit "# Intro")
    /\ ((before = [] /\ url = Gateway.gatewayUrl envCustom cid1)
        \/ (url = Gateway.publicGatewayUrl cid1
            /\ (before = [Fetch (Get (Gateway.gatewayUrl envCustom cid1))]
                \/ before
                   = [Fetch (Get (Gateway.gatewayUrl envCustom cid1));
                      Fetch (Get (Gateway.publicGatewayUrl cid1))]))).
Proof.
  apply (proj1 (fetch_returns_served_content envCustom netServerError cid1
                  emptyWorld (lit "# Intro"))).
  vm_compute. reflexivity.
Defined.

(** ** Requests of the semantic search *)

Ltac logged :=
  eexists;
  split; [cbn [snd]; unfold grown; cbn [trace posts pages];
          rewrite <- ?app_assoc; reflexivity
         |cbn; lia].

Section SemanticBudget.

Variable env : Env.
Variable net : Net.
Variable vectorSearch : Embeddings.kind -> list json -> list (jsstring * Q).
Variable fetchByIds : Embeddings.kind -> list jsstring -> list doc.

Lemma snippetOf_requests (k : Embeddings.kind) (d : doc) (initial : jsstring)
      (w : World) :
  exists snippet evs,
    SemanticIpfs.snippetOf env net k d initial w
    = (Returns snippet, grown w evs)
    /\ gets evs <= 3 /\ provider evs = 0.
Proof.
  unfold SemanticIpfs.snippetOf, try_catch, bind.
  destruct (fetchContentFromIPFS_requests env net (contentCid d) w)
    as (evs & Hw & Hg & Hp).
  destruct (Gateway.fetchContentFromIPFS env net (contentCid d) w)
    as [[content|e] w1]; cbn [snd] in Hw; subst w1.
  - unfold ret. eexists; exists evs. auto.
  - unfold SemanticIpfs.onSnippetError.
    destruct (negb _); unfold emit, ret.
    + rewrite grown_emit. eexists; eexists. split; [reflexivity|].
      rewrite gets_app, provider_app. cbn. lia.
    + eexists; exists evs. auto.
Qed.

Lemma postStep_requests (posts : list doc)
      (rs : list Semantic.scoredResult) (hit : jsstring * Q) (w : World) :
  exists rs' evs,
    SemanticIpfs.postStep env net posts rs hit w = (Returns rs', grown w evs)
    /\ gets evs <= 3 /\ provider evs = 0.
Proof.
  unfold SemanticIpfs.postStep.
  assert (H0 : exists rs' evs,
             ret rs w = (Returns rs', grown w evs)
             /\ gets evs <= 3 /\ provider evs = 0).
  { exists rs, []. rewrite grown_nil. cbn. repeat split; lia. }
  destruct (Semantic.find posts (fst hit)) as [post|]; [|exact H0].
  destruct (unlisted post); [exact H0|].
  unfold bind.
  destruct (snippetOf_requests Embeddings.KPost post
              (Search.lead (description post) []) w)
    as (sn & evs & -> & Hg & Hp).
  unfold ret. eexists; exists evs. auto.
Qed.

Lemma pageStep_requests (pages : list doc)
      (rs : list Semantic.scoredResult) (hit : jsstring * Q) (w : World) :
  exists rs' evs,
    SemanticIpfs.pageStep env net pages rs hit w = (Returns rs', grown w evs)
    /\ gets evs <= 3 /\ provider evs = 0.
Proof.
  unfold SemanticIpfs.pageStep.
  destruct (Semantic.find pages (fst hit)) as [page|].
  - unfold bind.
    destruct (snippetOf_requests Embeddings.KPage page (title page) w)
      as (sn & evs & -> & Hg & Hp).
    unfold ret. eexists; exists evs. auto.
  - exists rs, []. rewrite grown_nil. cbn. repeat split; lia.
Qed.

Lemma snippet_loop_requests
      (body : list Semantic.scoredResult -> jsstring * Q
              -> M (list Semantic.scoredResult))
      (hits : list (jsstring * Q)) :
  (forall rs hit w,
      exists rs' evs,
        body rs hit w = (Returns rs', grown w evs)
        /\ gets evs <= 3 /\ provider evs = 0) ->
  forall rs w,
    exists rs' evs,
      forEach hits rs body w = (Returns rs', grown w evs)
      /\ gets evs <= 3 * length hits /\ provider evs = 0.
Proof.
  intros Hbody. induction hits as [|hit hits IH]; intros rs w; cbn [forEach].
  - exists rs, []. rewrite grown_nil. cbn. repeat split; lia.
  - unfold bind.
    destruct (Hbody rs hit w) as (rs1 & evs1 & -> & Hg1 & Hp1).
    destruct (IH rs1 (grown w evs1)) as (rs2 & evs2 & -> & Hg2 & Hp2).
    exists rs2, (evs1 ++ evs2). rewrite grown_grown, gets_app, provider_app.
    cbn [length]. split; [reflexivity|lia].
Qed.

Lemma rank_requests (queryEmbedding : list json) (w : World) :
  exists evs,
    snd (SemanticIpfs.rank env net vectorSearch fetchByIds queryEmbedding w)
    = grown w evs
    /\ gets evs
       <= 3 * (length (vectorSearch Embeddings.KPost queryEmbedding)
               + length (vectorSearch Embeddings.KPage queryEmbedding))
    /\ provider evs = 0.
Proof.
  unfold SemanticIpfs.rank. cbv zeta. unfold bind at 1.
  destruct (snippet_loop_requests
              (SemanticIpfs.postStep env net
                 (fetchByIds Embeddings.KPost
                    (map fst (vectorSearch Embeddings.KPost queryEmbedding))))
              (vectorSearch Embeddings.KPost queryEmbedding)
              (fun rs hit w0 => postStep_requests _ rs hit w0) [] w)
    as (rs1 & evs1 & -> & Hg1 & Hp1).
  unfold bind.
  destruct (snippet_loop_requests
              (SemanticIpfs.pageStep env net
                 (fetchByIds Embeddings.KPage
                    (map fst (vectorSearch Embeddings.KPage queryEmbedding))))
              (vectorSearch Embeddings.KPage queryEmbedding)
              (fun rs hit w0 => pageStep_requests _ rs hit w0) rs1
              (grown w evs1))
    as (rs2 & evs2 & -> & Hg2 & Hp2).
  cbn [ret snd]. rewrite grown_grown. exists (evs1 ++ evs2).
  rewrite gets_app, provider_app. split; [reflexivity|lia].
Qed.

(** The whole handler: one request to the provider at most, then the
    ranking. *)
Lemma semanticSearch_ipfs_requests (query : jsstring) (w : World) :
  (forall k v, length (vectorSearch k v) <= 10) ->
  exists evs,
    snd (SemanticIpfs.semanticSearch env net vectorSearch fetchByIds query w)
    = grown w evs
    /\ gets evs <= 60 /\ provider evs <= 1.
Proof.
  intros Hlimit. unfold SemanticIpfs.semanticSearch.
  assert (Hnil : exists evs, w = grown w evs
                             /\ gets evs <= 60 /\ provider evs <= 1).
  { exists []. rewrite grown_nil. cbn. repeat split; lia. }
  destruct (negb (truthy (trim query))); [exact Hnil|].
  destruct (HUGGINGFACE_API_KEY env) as [[|c key]|];
    try (unfold bind, emit, ret; logged).
  unfold bind at 1. unfold emit at 1. unfold bind at 1. unfold emit at 1.
  unfold bind at 1. unfold fetch at 1. cbn [trace posts pages].
  destruct (net _ _) as [response|e]; [|logged].
  destruct (negb (ok response)).
  - unfold bind, await, emit, ret.
    destruct (body_text response); logged.
  - unfold bind at 1. unfold await at 1.
    destruct (body_json response) as [responseData|e]; [|logged].
    unfold bind at 1. unfold await at 1.
    destruct (Semantic.extractEmbedding responseData)
      as [[[|j items]|]|e];
      try (unfold bind, emit, ret; logged).
    set (w1 := {| trace := _; posts := _; pages := _ |}).
    destruct (rank_requests (j :: items) w1) as (evs & -> & Hg & Hp).
    pose proof (Hlimit Embeddings.KPost (j :: items)).
    pose proof (Hlimit Embeddings.KPage (j :: items)).
    eexists. split.
    + unfold w1, grown. cbn [trace posts pages].
      rewrite <- ?app_assoc. reflexivity.
    + rewrite ?gets_app, ?provider_app. cbn. lia.
Qed.

End SemanticBudget.

(** X28: the request budget of the semantic search that cuts its snippets
    from the content.  With a vector index that returns ten hits at most
    per table (the limit the handler asks for), one call sends at most one
    request to the provider and at most sixty to the gateways, and leaves
    the store as it is. *)
Theorem semantic_request_budget
        (env : Env) (net : Net)
        (vectorSearch : Embeddings.kind -> list json -> list (jsstring * Q))
        (fetchByIds : Embeddings.kind -> list jsstring -> list doc)
        (query : jsstring) (w : World) :
  (forall k v, length (vectorSearch k v) <= 10) ->
  let w' := snd (SemanticIpfs.semanticSearch env net vectorSearch fetchByIds
                                             query w) in
  gets (newEvents w w') <= 60
  /\ provider (newEvents w w') <= 1
  /\ posts w' = posts w /\ pages w' = pages w.
Proof.
  intros Hlimit. cbv zeta.
  destruct (@semanticSearch_ipfs_requests env net vectorSearch fetchByIds
              query w Hlimit) as (evs & -> & Hg & Hp).
  unfold grown. rewrite newEvents_app. cbn [posts pages]. auto.
Qed.

Lemma semantic_request_budget_witness :
  gets (newEvents worldTwoPosts
          (snd (SemanticIpfs.semanticSearch envPublic netServing hitsFix
                  docsFix (lit "caching") worldTwoPosts))) <= 60.
Proof.
  apply (@semantic_request_budget envPublic netServing hitsFix docsFix
           (lit "caching") worldTwoPosts).
  intros [|] v; cbn; lia.
Defined.
